(** * The document Q&A system of the RAG module (module 4)

    A shallow embedding of the chunker, the ingestion path, the
    statistics and the answer path of [document-manager.ts], of the
    [ingest], [query] and [interactive] commands of [cli.ts] and of the
    discovery of files and the JSON text extraction of
    [file-processor.ts], with the order in which a parsed JSON document
    lists its entries, followed by the properties that hold of them. *)

From Stdlib Require Import Ascii String DecimalString DecimalNat.
From Stdlib Require Import Floats.
From Stdlib Require Import List ZArith NArith Lia Bool Arith Permutation.
Import ListNotations.

Set Warnings "-register-all".
Local Open Scope Z_scope.

(** ** JavaScript strings

    A JavaScript string is a sequence of UTF-16 code units; [length],
    [slice], [lastIndexOf] and [trim] all count code units.  Indices are
    JavaScript numbers holding integers, here [Z]. *)

Module JS.

Definition char16 := N.
Definition jsstring := list char16.

(** An ASCII literal as a JavaScript string. *)
Definition lit (s : String.string) : jsstring :=
  map N_of_ascii (list_ascii_of_string s).

Definition len (s : jsstring) : Z := Z.of_nat (length s).

Definition eqb_str (a b : jsstring) : bool :=
  if list_eq_dec N.eq_dec a b then true else false.

(** [s.slice(start, end)]: a negative index counts from the end, both are
    clamped to [0, length], and an empty string results when the bounds
    cross. *)
Definition clampIndex (n : Z) (i : Z) : Z :=
  if i <? 0 then Z.max (n + i) 0 else Z.min i n.

Definition slice (s : jsstring) (start end_ : Z) : jsstring :=
  let from := clampIndex (len s) start in
  let to := clampIndex (len s) end_ in
  firstn (Z.to_nat (to - from)) (skipn (Z.to_nat from) s).

(** The code units [trim] removes: WhiteSpace and LineTerminator. *)
Definition isWhiteSpace (c : char16) : bool :=
  existsb (N.eqb c)
    [9; 10; 11; 12; 13; 32; 160; 5760; 8192; 8193; 8194; 8195; 8196; 8197;
     8198; 8199; 8200; 8201; 8202; 8232; 8233; 8239; 8287; 12288; 65279]%N.

Fixpoint trimStart (s : jsstring) : jsstring :=
  match s with
  | c :: s' => if isWhiteSpace c then trimStart s' else s
  | [] => []
  end.

Fixpoint trimEnd (s : jsstring) : jsstring :=
  match s with
  | [] => []
  | c :: s' =>
      match trimEnd s' with
      | [] => if isWhiteSpace c then [] else [c]
      | t => c :: t
      end
  end.

Definition trim (s : jsstring) : jsstring := trimEnd (trimStart s).

(** Does [pat] occur in [s] at its very beginning. *)
Fixpoint startsWith (s pat : jsstring) {struct pat} : bool :=
  match pat, s with
  | [], _ => true
  | _ :: _, [] => false
  | p :: pat', c :: s' => N.eqb p c && startsWith s' pat'
  end.

(** The largest index [i <= k] at which [pat] occurs in [s], else -1. *)
Fixpoint lastIndexOfFrom (s pat : jsstring) (k : nat) : Z :=
  if startsWith (skipn k s) pat then Z.of_nat k
  else match k with
       | O => -1
       | S k' => lastIndexOfFrom s pat k'
       end.

(** [s.lastIndexOf(pat, position)]: the search starts at [position]
    clamped to [0, length s - length pat] and runs backwards. *)
Definition lastIndexOf (s pat : jsstring) (position : Z) : Z :=
  if len s <? len pat then -1
  else lastIndexOfFrom s pat
         (Z.to_nat (Z.min (Z.max position 0) (len s - len pat))).

(** [parts.join(sep)]. *)
Fixpoint join (sep : jsstring) (parts : list jsstring) : jsstring :=
  match parts with
  | [] => []
  | [p] => p
  | p :: rest => p ++ sep ++ join sep rest
  end.

(** The decimal rendering of an array index in a template literal. *)
Definition ofNat (n : nat) : jsstring :=
  lit (NilZero.string_of_uint (Nat.to_uint n)).

(** [Array.from(new Set(xs))]: the first occurrence of every element, in
    insertion order. *)
Fixpoint uniqueFrom (seen xs : list jsstring) : list jsstring :=
  match xs with
  | [] => []
  | x :: rest =>
      if existsb (eqb_str x) seen then uniqueFrom seen rest
      else x :: uniqueFrom (x :: seen) rest
  end.

Definition unique (xs : list jsstring) : list jsstring := uniqueFrom [] xs.

End JS.

Import JS.

(** ** The chunker: [splitIntoChunks] of [document-manager.ts] *)

Module Chunker.

(** [breakChars], in priority order: two newlines, a newline, a full stop
    and a space, and the marks ! ? ; *)
Definition breakChars : list jsstring :=
  [ [10; 10]; [10]; [46; 32]; [33]; [63]; [59] ]%N.

(** The [for (const breakChar of breakChars)] loop: the first delimiter
    whose last occurrence at or before [end_] lies beyond the middle of the
    window decides [bestBreak]; -1 when none does.  The test
    [breakIndex > start + chunkSize * 0.5] is taken on integers, doubled. *)
Fixpoint findBreak (text : jsstring) (chunkSize start end_ : Z)
    (candidates : list jsstring) : Z :=
  match candidates with
  | [] => -1
  | breakChar :: rest =>
      let breakIndex := lastIndexOf text breakChar end_ in
      if 2 * breakIndex >? 2 * start + chunkSize
      then breakIndex + len breakChar
      else findBreak text chunkSize start end_ rest
  end.

(** The value of [end] when the chunk is pushed. *)
Definition chunkEnd (text : jsstring) (chunkSize start : Z) : Z :=
  let end_ := start + chunkSize in
  if end_ <? len text then
    let bestBreak := findBreak text chunkSize start end_ breakChars in
    if bestBreak >? -1 then bestBreak else end_
  else end_.

(** The [while (start < text.length)] loop.  [fuel] bounds the number of
    iterations; [None] means the bound was reached with the loop still
    running. *)
Fixpoint scan (fuel : nat) (text : jsstring) (chunkSize overlap start : Z)
    (chunks : list jsstring) : option (list jsstring) :=
  if start <? len text then
    match fuel with
    | O => None
    | S fuel' =>
        let end_ := chunkEnd text chunkSize start in
        scan fuel' text chunkSize overlap (end_ - overlap)
          (chunks ++ [trim (slice text start end_)])
    end
  else Some chunks.

Definition keepChunk (chunk : jsstring) : bool := len chunk >? 20.

Definition splitIntoChunksFuel (fuel : nat) (text : jsstring)
    (chunkSize overlap : Z) : option (list jsstring) :=
  option_map (filter keepChunk) (scan fuel text chunkSize overlap 0 []).

(** The call [this.splitIntoChunks(file.content)] of [ingestFile], with the
    default [chunkSize = 600] and [overlap = 100].  One iteration per code
    unit is always enough there ([defaults_terminate] below), so the
    fallback branch is never taken. *)
Definition splitIntoChunks (text : jsstring) : list jsstring :=
  match splitIntoChunksFuel (length text) text 600 100 with
  | Some chunks => chunks
  | None => []
  end.

(** *** The windows of the scan, for stating where chunks lie

    The scan again, keeping for every iteration the window it cut and
    the length of the delimiter that moved its end (0 when none did). *)

Fixpoint matchedBreak (text : jsstring) (chunkSize start end_ : Z)
    (candidates : list jsstring) : option jsstring :=
  match candidates with
  | [] => None
  | breakChar :: rest =>
      let breakIndex := lastIndexOf text breakChar end_ in
      if 2 * breakIndex >? 2 * start + chunkSize
      then Some breakChar
      else matchedBreak text chunkSize start end_ rest
  end.

Record Window := {
  w_start : Z;
  w_end : Z;
  w_delim : Z
}.

Definition windowAt (text : jsstring) (chunkSize start : Z) : Window :=
  {| w_start := start;
     w_end := chunkEnd text chunkSize start;
     w_delim :=
       if start + chunkSize <? len text then
         match matchedBreak text chunkSize start (start + chunkSize)
                 breakChars with
         | Some breakChar => len breakChar
         | None => 0
         end
       else 0 |}.

Fixpoint windows (fuel : nat) (text : jsstring) (chunkSize overlap start : Z)
    : option (list Window) :=
  if start <? len text then
    match fuel with
    | O => None
    | S fuel' =>
        option_map (cons (windowAt text chunkSize start))
          (windows fuel' text chunkSize overlap
             (chunkEnd text chunkSize start - overlap))
    end
  else Some [].

Definition chunkOf (text : jsstring) (w : Window) : jsstring :=
  trim (slice text (w_start w) (w_end w)).

(** The positions [a, b) of the text that the chunk of a window holds. *)
Definition spanOf (text : jsstring) (w : Window) : Z * Z :=
  let raw := slice text (w_start w) (w_end w) in
  let a := clampIndex (len text) (w_start w)
           + (len raw - len (trimStart raw)) in
  (a, a + len (trim raw)).

(** How many positions two spans have in common. *)
Definition shared (s1 s2 : Z * Z) : Z :=
  Z.max 0 (Z.min (snd s1) (snd s2) - Z.max (fst s1) (fst s2)).

End Chunker.

(** ** Files and the text of a JSON document: [file-processor.ts] *)

Module FileProcessor.

Record ProcessedFile := {
  path : jsstring;
  content : jsstring;
  type : jsstring;
  size : Z;
  lastModified : Z
}.

(** A parsed JSON value.  The entries of an object are in the order
    [Object.entries] lists them. *)
Inductive json :=
| JNull
| JBool (b : bool)
| JNumber (x : float)
| JString (s : jsstring)
| JArray (items : list json)
| JObject (entries : list (jsstring * json)).

(** The closure [extractText] of [extractTextFromJson]; [textParts] is
    the array it pushes to, passed in and handed back. *)
Fixpoint extractText (obj : json) (prefix : jsstring)
    (textParts : list jsstring) : list jsstring :=
  match obj with
  | JString s => textParts ++ [s]
  | JArray items =>
      (fix forEach (items : list json) (index : nat)
           (textParts : list jsstring) : list jsstring :=
         match items with
         | [] => textParts
         | item :: rest =>
             forEach rest (S index)
               (extractText item
                  (prefix ++ lit "[" ++ ofNat index ++ lit "]") textParts)
         end) items O textParts
  | JObject entries =>
      (fix forEach (entries : list (jsstring * json))
           (textParts : list jsstring) : list jsstring :=
         match entries with
         | [] => textParts
         | (key, value) :: rest =>
             let newPrefix :=
               match prefix with
               | [] => key
               | _ => prefix ++ lit "." ++ key
               end in
             forEach rest
               match value with
               | JString s =>
                   if len s >? 10
                   then textParts ++ [key ++ lit ": " ++ s]
                   else extractText value newPrefix textParts
               | _ => extractText value newPrefix textParts
               end
         end) entries textParts
  | JNull | JBool _ | JNumber _ => textParts
  end.

Definition extractTextFromJson (data : json) : jsstring :=
  let textParts := extractText data [] [] in
  join [10; 10]%N textParts.

(** The same text told by its leaves: what a depth-first walk in entry
    order emits.  An object entry holding a string longer than 10 code
    units gives "key: value"; any other string gives itself. *)
Fixpoint emitted (v : json) : list jsstring :=
  match v with
  | JString s => [s]
  | JArray items => flat_map emitted items
  | JObject entries =>
      flat_map (fun entry : jsstring * json =>
                  let (key, value) := entry in
                  match value with
                  | JString s =>
                      if len s >? 10 then [key ++ lit ": " ++ s] else [s]
                  | _ => emitted value
                  end) entries
  | JNull | JBool _ | JNumber _ => []
  end.

Section JsonInduction.

Variable P : json -> Prop.
Hypothesis P_null : P JNull.
Hypothesis P_bool : forall b, P (JBool b).
Hypothesis P_number : forall x, P (JNumber x).
Hypothesis P_string : forall s, P (JString s).
Hypothesis P_array : forall items, Forall P items -> P (JArray items).
Hypothesis P_object :
  forall entries, Forall (fun entry => P (snd entry)) entries ->
                  P (JObject entries).

(** Induction over a JSON value with the values nested in it. *)
Fixpoint json_nested_ind (v : json) : P v :=
  match v with
  | JNull => P_null
  | JBool b => P_bool b
  | JNumber x => P_number x
  | JString s => P_string s
  | JArray items =>
      P_array items
        ((fix all (l : list json) : Forall P l :=
            match l with
            | [] => Forall_nil P
            | x :: rest => Forall_cons x (json_nested_ind x) (all rest)
            end) items)
  | JObject entries =>
      P_object entries
        ((fix all (l : list (jsstring * json))
            : Forall (fun entry => P (snd entry)) l :=
            match l with
            | [] => Forall_nil _
            | entry :: rest =>
                Forall_cons entry (json_nested_ind (snd entry)) (all rest)
            end) entries)
  end.

End JsonInduction.

End FileProcessor.

(** ** JSON documents as written: [fs.readJson]

    [fs.readJson] hands the text of the file to [JSON.parse].  A
    [document] is that text as a tree, the members of an object in the
    order they are written; [parse] gives the value [JSON.parse] builds,
    with the entries of an object in the order [Object.entries] lists
    them: first the keys that are array indices, ascending, then the
    other keys in the order they were first written, and for a key
    written more than once the value written last. *)

Module JsonDocument.

Import FileProcessor.

Inductive document :=
| DNull
| DBool (b : bool)
| DNumber (x : float)
| DString (s : jsstring)
| DArray (items : list document)
| DObject (members : list (jsstring * document)).

Definition isDigit (c : char16) : bool := (48 <=? c)%N && (c <=? 57)%N.

Fixpoint digitsValue (acc : N) (s : jsstring) : N :=
  match s with
  | [] => acc
  | c :: s' => digitsValue (10 * acc + (c - 48)) s'
  end.

(** The number a key stands for when it is an array index: a decimal
    numeral without a leading zero that is less than 2^32 - 1. *)
Definition arrayIndex (key : jsstring) : option N :=
  match key with
  | [] => None
  | c :: rest =>
      if forallb isDigit key
         && (negb (c =? 48)%N || match rest with [] => true | _ => false end)
      then
        let n := digitsValue 0 key in
        if (n <? 4294967295)%N then Some n else None
      else None
  end.

(** The properties of an object in the order of their creation, after
    [key] is set to [value]: a key that is there keeps its place. *)
Fixpoint define (props : list (jsstring * json)) (key : jsstring)
    (value : json) : list (jsstring * json) :=
  match props with
  | [] => [(key, value)]
  | (k, v) :: rest =>
      if eqb_str k key then (k, value) :: rest
      else (k, v) :: define rest key value
  end.

Fixpoint insertIndexed (n : N) (entry : jsstring * json)
    (sorted : list (N * (jsstring * json))) : list (N * (jsstring * json)) :=
  match sorted with
  | [] => [(n, entry)]
  | (m, e) :: rest =>
      if (n <? m)%N then (n, entry) :: sorted
      else (m, e) :: insertIndexed n entry rest
  end.

(** The properties whose key is an array index, ascending. *)
Fixpoint indexed (props : list (jsstring * json))
    : list (N * (jsstring * json)) :=
  match props with
  | [] => []
  | (k, v) :: rest =>
      match arrayIndex k with
      | Some n => insertIndexed n (k, v) (indexed rest)
      | None => indexed rest
      end
  end.

(** The other properties, in the order of their creation. *)
Definition named (props : list (jsstring * json)) : list (jsstring * json) :=
  filter (fun entry => match arrayIndex (fst entry) with
                       | Some _ => false
                       | None => true
                       end) props.

(** [Object.entries] of an object with these properties. *)
Definition ownEntries (props : list (jsstring * json))
    : list (jsstring * json) :=
  map snd (indexed props) ++ named props.

(** [JSON.parse]. *)
Fixpoint parse (d : document) : json :=
  match d with
  | DNull => JNull
  | DBool b => JBool b
  | DNumber x => JNumber x
  | DString s => JString s
  | DArray items => JArray (map parse items)
  | DObject members =>
      JObject
        (ownEntries
           ((fix each (members : list (jsstring * document))
                 (props : list (jsstring * json)) : list (jsstring * json) :=
               match members with
               | [] => props
               | (key, value) :: rest =>
                   each rest (define props key (parse value))
               end) members []))
  end.

Section DocumentInduction.

Variable P : document -> Prop.
Hypothesis P_null : P DNull.
Hypothesis P_bool : forall b, P (DBool b).
Hypothesis P_number : forall x, P (DNumber x).
Hypothesis P_string : forall s, P (DString s).
Hypothesis P_array : forall items, Forall P items -> P (DArray items).
Hypothesis P_object :
  forall members, Forall (fun member => P (snd member)) members ->
                  P (DObject members).

(** Induction over a document with the documents nested in it. *)
Fixpoint document_nested_ind (d : document) : P d :=
  match d with
  | DNull => P_null
  | DBool b => P_bool b
  | DNumber x => P_number x
  | DString s => P_string s
  | DArray items =>
      P_array items
        ((fix all (l : list document) : Forall P l :=
            match l with
            | [] => Forall_nil P
            | x :: rest => Forall_cons x (document_nested_ind x) (all rest)
            end) items)
  | DObject members =>
      P_object members
        ((fix all (l : list (jsstring * document))
            : Forall (fun member => P (snd member)) l :=
            match l with
            | [] => Forall_nil _
            | member :: rest =>
                Forall_cons member (document_nested_ind (snd member))
                  (all rest)
            end) members)
  end.

End DocumentInduction.

End JsonDocument.

(** ** The document manager: [document-manager.ts] and the ingest loop

    *** The database table and the three collaborators

    [document_chunks] is a list of rows in insertion order; the column
    [id] is a serial the database assigns.  The database ([client.query]),
    the embedding model and the generative model are outside the program:
    an [Env] fixes, for the n-th call made to a collaborator, whether it
    fails and what it replies.  Every call is recorded in the world. *)

Module Rag.

Import Chunker.

Record Metadata := {
  source : jsstring;
  chunkIndex : nat;
  fileType : jsstring;
  lastModified : Z
}.

Record DocumentChunk := {
  id : Z;
  chunk_id : jsstring;
  content : jsstring;
  embedding : list float;
  metadata : Metadata
}.

Record SearchResult := {
  chunk : DocumentChunk;
  similarity : float
}.

Inductive Sql :=
| SelectStats
| DeleteWhereSource (src : jsstring)
| InsertChunk (chunkId text : jsstring) (vector : list float) (meta : Metadata)
| SelectSimilar (queryVector : list float) (topK : Z).

Inductive Call :=
| Query (q : Sql)
| EmbedContent (text : jsstring)
| GenerateContent (prompt : jsstring).

Inductive Error := StoreError | ProviderError.

Record Env := {
  (** does the n-th call, when it is a database query, fail *)
  queryFails : nat -> bool;
  (** [embeddingModel.embedContent]: [None] when the n-th call throws *)
  embedReply : nat -> jsstring -> option (list float);
  (** [generativeModel.generateContent]: [None] when the n-th call throws *)
  generateReply : nat -> jsstring -> option jsstring;
  (** the operator [<=>] of pgvector (cosine distance) *)
  distance : list float -> list float -> float;
  (** the order the database gives, in its n-th call, to rows that
      [ORDER BY] ranks alike: the row with the smaller number first *)
  tieRank : nat -> DocumentChunk -> nat
}.

Record World := {
  rows : list DocumentChunk;
  nextId : Z;
  calls : list Call
}.

Definition now (w : World) : nat := length (calls w).

Definition logCall (c : Call) (w : World) : World :=
  {| rows := rows w; nextId := nextId w; calls := calls w ++ [c] |}.

Inductive outcome (A : Type) :=
| Ok (a : A)
| Throw (e : Error).
Arguments Ok {A} a.
Arguments Throw {A} e.

(** A computation: from a world to an outcome and the world it leaves. *)
Definition M (A : Type) : Type := World -> outcome A * World.

Definition ret {A} (a : A) : M A := fun w => (Ok a, w).

Definition throw {A} (e : Error) : M A := fun w => (Throw e, w).

Definition bind {A B} (m : M A) (k : A -> M B) : M B :=
  fun w =>
    match m w with
    | (Ok a, w') => k a w'
    | (Throw e, w') => (Throw e, w')
    end.

(** [try { m } catch (error) { handler }] *)
Definition tryCatch {A} (m : M A) (handler : Error -> M A) : M A :=
  fun w =>
    match m w with
    | (Ok a, w') => (Ok a, w')
    | (Throw e, w') => handler e w'
    end.

Declare Scope js_scope.
Delimit Scope js_scope with js.
Notation "x <- m ;; k" := (bind m (fun x => k))
  (at level 61, m at next level, right associativity) : js_scope.
Notation "m ;;; k" := (bind m (fun _ => k))
  (at level 61, right associativity) : js_scope.

Local Open Scope js_scope.

Definition sourceIs (src : jsstring) (r : DocumentChunk) : bool :=
  eqb_str (source (metadata r)) src.

(** [DELETE FROM document_chunks WHERE metadata->>'source' = $1] *)
Definition deleteWhereSource (env : Env) (src : jsstring) : M unit :=
  fun w =>
    let w' := logCall (Query (DeleteWhereSource src)) w in
    if queryFails env (now w) then (Throw StoreError, w')
    else (Ok tt,
          {| rows := filter (fun r => negb (sourceIs src r)) (rows w');
             nextId := nextId w'; calls := calls w' |}).

(** [INSERT INTO document_chunks (chunk_id, content, embedding, metadata)] *)
Definition insertChunk (env : Env) (chunkId text : jsstring)
    (vector : list float) (meta : Metadata) : M unit :=
  fun w =>
    let w' := logCall (Query (InsertChunk chunkId text vector meta)) w in
    if queryFails env (now w) then (Throw StoreError, w')
    else (Ok tt,
          {| rows := rows w' ++
                     [{| id := nextId w'; chunk_id := chunkId;
                         content := text; embedding := vector;
                         metadata := meta |}];
             nextId := nextId w' + 1; calls := calls w' |}).

Definition embedContent (env : Env) (text : jsstring) : M (list float) :=
  fun w =>
    let w' := logCall (EmbedContent text) w in
    match embedReply env (now w) text with
    | Some values => (Ok values, w')
    | None => (Throw ProviderError, w')
    end.

Definition generateContent (env : Env) (prompt : jsstring) : M jsstring :=
  fun w =>
    let w' := logCall (GenerateContent prompt) w in
    match generateReply env (now w) prompt with
    | Some text => (Ok text, w')
    | None => (Throw ProviderError, w')
    end.

(** *** [getStats]

    Only [totalChunks] and [totalDocuments] are read by the code embedded
    here.  A failing query is caught and answered with zeros. *)

Record Stats := {
  totalChunks : Z;
  totalDocuments : Z
}.

Definition selectStats (env : Env) : M Stats :=
  fun w =>
    let w' := logCall (Query SelectStats) w in
    if queryFails env (now w) then (Throw StoreError, w')
    else (Ok {| totalChunks := Z.of_nat (length (rows w));
                totalDocuments :=
                  Z.of_nat (length (unique (map (fun r => source (metadata r))
                                              (rows w)))) |},
          w').

Definition getStats (env : Env) : M Stats :=
  tryCatch (selectStats env)
    (fun _ => ret {| totalChunks := 0; totalDocuments := 0 |}).

(** *** [ingestFile] *)

Definition underscoreChunk : jsstring := lit "_chunk_".

(** The body of the [for (let i = 0; i < textChunks.length; i++)] loop,
    over the chunks that remain from index [i] on. *)
Fixpoint ingestChunks (env : Env) (file : FileProcessor.ProcessedFile)
    (i : nat) (textChunks : list jsstring) : M unit :=
  match textChunks with
  | [] => ret tt
  | chunk :: rest =>
      embedding <- embedContent env chunk ;;
      let chunkId := FileProcessor.path file ++ underscoreChunk ++ ofNat i in
      let metadata :=
        {| source := FileProcessor.path file;
           chunkIndex := i;
           fileType := FileProcessor.type file;
           lastModified := FileProcessor.lastModified file |} in
      insertChunk env chunkId chunk embedding metadata ;;;
      ingestChunks env file (S i) rest
  end.

Definition ingestFile (env : Env) (file : FileProcessor.ProcessedFile)
    : M unit :=
  tryCatch
    (deleteWhereSource env (FileProcessor.path file) ;;;
     let textChunks := splitIntoChunks (FileProcessor.content file) in
     ingestChunks env file 0 textChunks)
    (fun error => throw error).

(** *** [searchSimilarChunks]

    [ORDER BY embedding <=> $1 LIMIT $2]: ascending by distance, a NaN
    after every number; a negative limit is an error of the database.
    The statement names no second sort key, so the order among rows at
    the same distance is the database's to choose, query by query:
    [tieRank] gives it.  Rows that it ranks alike as well stay in
    insertion order. *)

Definition distanceBefore (a b : float) : bool :=
  PrimFloat.ltb a b || (negb (PrimFloat.is_nan a) && PrimFloat.is_nan b).

(** Two distances that [ORDER BY] ranks alike: neither comes before the
    other. *)
Definition tied (a b : float) : bool :=
  negb (distanceBefore a b) && negb (distanceBefore b a).

(** Does row [r1] come before row [r2] in the result of the [t]-th
    call. *)
Definition rankedBefore (env : Env) (t : nat) (queryVector : list float)
    (r1 r2 : DocumentChunk) : bool :=
  let d1 := distance env (embedding r1) queryVector in
  let d2 := distance env (embedding r2) queryVector in
  distanceBefore d1 d2 || (tied d1 d2 && (tieRank env t r1 <? tieRank env t r2)%nat).

Fixpoint insertByDistance (env : Env) (t : nat) (queryVector : list float)
    (r : DocumentChunk) (sorted : list DocumentChunk) : list DocumentChunk :=
  match sorted with
  | [] => [r]
  | r' :: rest =>
      if rankedBefore env t queryVector r' r
      then r' :: insertByDistance env t queryVector r rest
      else r :: sorted
  end.

Definition orderByDistance (env : Env) (t : nat) (queryVector : list float)
    (table : list DocumentChunk) : list DocumentChunk :=
  fold_right (insertByDistance env t queryVector) [] table.

Definition selectSimilar (env : Env) (queryVector : list float) (topK : Z)
    : M (list SearchResult) :=
  fun w =>
    let w' := logCall (Query (SelectSimilar queryVector topK)) w in
    if queryFails env (now w) || (topK <? 0) then (Throw StoreError, w')
    else (Ok (map (fun row =>
                     {| chunk :=
                          {| id := id row; chunk_id := chunk_id row;
                             content := content row; embedding := [];
                             metadata := metadata row |};
                        similarity :=
                          PrimFloat.sub 1
                            (distance env (embedding row) queryVector) |})
                (firstn (Z.to_nat topK)
                   (orderByDistance env (now w) queryVector (rows w)))),
          w').

Definition searchSimilarChunks (env : Env) (query : jsstring) (topK : Z)
    : M (list SearchResult) :=
  tryCatch
    (queryEmbedding <- embedContent env query ;;
     selectSimilar env queryEmbedding topK)
    (fun error => throw error).

(** *** [askQuestion] *)

(** [path.basename] of Node on POSIX paths: trailing slashes are dropped,
    then what follows the last remaining slash is kept. *)
Definition isSlash (c : char16) : bool := N.eqb c 47.

Fixpoint takeUntilSlash (s : jsstring) : jsstring :=
  match s with
  | [] => []
  | c :: s' => if isSlash c then [] else c :: takeUntilSlash s'
  end.

Fixpoint dropSlashes (s : jsstring) : jsstring :=
  match s with
  | c :: s' => if isSlash c then dropSlashes s' else s
  | [] => []
  end.

Definition basename (p : jsstring) : jsstring :=
  rev (takeUntilSlash (dropSlashes (rev p))).

Definition nl : jsstring := [10%N].

Definition noDocuments : jsstring :=
  [10060%N] ++
  lit " No documents have been ingested yet. Please ingest some documents first using --ingest.".

Definition noRelevantInformation : jsstring :=
  [55358%N; 56596%N] ++
  lit " I couldn't find relevant information in the ingested documents to answer your question.".

Definition errorOccurred : jsstring :=
  [10060%N] ++
  lit " An error occurred while processing your question. Please try again.".

(** The relevance threshold [0.3], the double nearest to it. *)
Definition threshold : float := 0x1.3333333333333p-2%float.

Definition sourceOf (result : SearchResult) : jsstring :=
  basename (source (metadata (chunk result))).

(** One entry of the context block. *)
Definition contextEntry (result : SearchResult) : jsstring :=
  lit "[Source: " ++ sourceOf result ++ lit "]" ++ nl ++
  content (chunk result).

Definition contextOf (searchResults : list SearchResult) : jsstring :=
  join (nl ++ nl ++ lit "---" ++ nl ++ nl) (map contextEntry searchResults).

Definition promptOf (context question : jsstring) : jsstring :=
  lit "You are a helpful assistant answering questions based on provided documentation." ++ nl ++
  nl ++
  lit "    Context from documents:" ++ nl ++
  lit "    " ++ context ++ nl ++
  nl ++
  lit "    Question: " ++ question ++ nl ++
  nl ++
  lit "    Instructions:" ++ nl ++
  lit "    - Answer based only on the provided context" ++ nl ++
  lit "    - If the context doesn't contain enough information, say so clearly" ++ nl ++
  lit "    - Be specific and reference the sources when possible" ++ nl ++
  lit "    - Keep the answer concise but complete" ++ nl ++
  lit "    - Format your response in a friendly, conversational tone" ++ nl ++
  nl ++
  lit "    Answer:".

(** [Array.from(new Set(searchResults.map(r => path.basename(...))))] *)
Definition sourcesOf (searchResults : list SearchResult) : list jsstring :=
  unique (map sourceOf searchResults).

Definition sourceInfoOf (sources : list jsstring) : jsstring :=
  nl ++ nl ++ [55357%N; 56538%N] ++ lit " Sources: " ++
  join (lit ", ") sources.

Definition askQuestion (env : Env) (question : jsstring) (maxResults : Z)
    : M jsstring :=
  stats <- getStats env ;;
  if totalChunks stats =? 0 then ret noDocuments
  else
    tryCatch
      (searchResults <- searchSimilarChunks env question maxResults ;;
       match searchResults with
       | [] => ret noRelevantInformation
       | top :: _ =>
           if PrimFloat.ltb (similarity top) threshold
           then ret noRelevantInformation
           else
             let context := contextOf searchResults in
             let prompt := promptOf context question in
             answer <- generateContent env prompt ;;
             let sources := sourcesOf searchResults in
             let sourceInfo := sourceInfoOf sources in
             ret (answer ++ sourceInfo)
       end)
      (fun _ => ret errorOccurred).

(** *** The [ingest] command of [cli.ts], from "Process files" on

    The [for] loop awaits [ingestFile] for each discovered file inside the
    [try] of the command; its [catch] reports "Ingestion failed". *)

Fixpoint ingestFiles (env : Env) (files : list FileProcessor.ProcessedFile)
    : M unit :=
  match files with
  | [] => ret tt
  | file :: rest => ingestFile env file ;;; ingestFiles env rest
  end.

Inductive IngestReport :=
| NoValidFiles
| IngestionComplete (finalStats : Stats)
| IngestionFailed.

Definition ingestAction (env : Env)
    (files : list FileProcessor.ProcessedFile) : M IngestReport :=
  tryCatch
    (match files with
     | [] => ret NoValidFiles
     | _ =>
         ingestFiles env files ;;;
         finalStats <- getStats env ;;
         ret (IngestionComplete finalStats)
     end)
    (fun _ => ret IngestionFailed).

(** A caller that awaits [ingestFile] once per file and looks at no
    result: any sequence of calls. *)
Fixpoint callIngestFile (env : Env)
    (files : list FileProcessor.ProcessedFile) (w : World) : World :=
  match files with
  | [] => w
  | file :: rest => callIngestFile env rest (snd (ingestFile env file w))
  end.

End Rag.

(** ** Discovery of files: [processFile], [processDirectory] and the
    [ingest] command

    The file system and the functions of Node's [path] module and of
    [String] that discovery calls are collaborators: a [Platform] gives
    what each of them returns, [None] standing for a call that throws.
    The file system is taken not to change while a command runs. *)

Module Discovery.

Import FileProcessor.

Record FsStats := {
  isFile : bool;
  isDirectory : bool;
  statSize : Z;
  mtime : Z
}.

Record Platform := {
  (** [fs.stat] *)
  stat : jsstring -> option FsStats;
  (** [fs.readFile(path, 'utf-8')] *)
  readFile : jsstring -> option jsstring;
  (** [fs.readJson] *)
  readJson : jsstring -> option json;
  (** [fs.readdirSync] *)
  readdirSync : jsstring -> option (list jsstring);
  (** [fs.pathExists] *)
  pathExists : jsstring -> bool;
  (** [path.extname] *)
  extname : jsstring -> jsstring;
  (** [String.prototype.toLowerCase] *)
  toLowerCase : jsstring -> jsstring;
  (** [path.join] of two segments *)
  join2 : jsstring -> jsstring -> jsstring
}.

Definition supportedExtensions : list jsstring :=
  [lit ".txt"; lit ".md"; lit ".json"].

(** [xs.includes(x)] on strings. *)
Definition includes (xs : list jsstring) (x : jsstring) : bool :=
  existsb (eqb_str x) xs.

(** [processFile]; [None] is its [null], returned for an unsupported
    extension, for empty content and from the [catch]. *)
Definition processFile (sys : Platform) (filePath : jsstring)
    : option ProcessedFile :=
  match stat sys filePath with
  | None => None
  | Some stats =>
      let ext := toLowerCase sys (extname sys filePath) in
      if negb (includes supportedExtensions ext) then None
      else
        let read :=
          if eqb_str ext (lit ".json")
          then option_map extractTextFromJson (readJson sys filePath)
          else readFile sys filePath in
        match read with
        | None => None
        | Some content =>
            if len (trim content) =? 0 then None
            else Some {| path := filePath;
                         content := trim content;
                         type := slice ext 1 (len ext);
                         size := statSize stats;
                         lastModified := mtime stats |}
        end
  end.

(** The [for (const item of items)] loop of [processDirectory]; [files]
    is the array it pushes to.  [recur] is the recursive call; a [stat]
    that throws ends the loop with the files found so far. *)
Fixpoint forEachItem (recur : jsstring -> option (list ProcessedFile))
    (sys : Platform) (dirPath : jsstring) (recursive : bool)
    (items : list jsstring) (files : list ProcessedFile)
    : option (list ProcessedFile) :=
  match items with
  | [] => Some files
  | item :: rest =>
      let itemPath := join2 sys dirPath item in
      match stat sys itemPath with
      | None => Some files
      | Some stats =>
          if isDirectory stats && recursive then
            match recur itemPath with
            | None => None
            | Some subFiles =>
                forEachItem recur sys dirPath recursive rest
                  (files ++ subFiles)
            end
          else if isFile stats then
            match processFile sys itemPath with
            | Some processedFile =>
                forEachItem recur sys dirPath recursive rest
                  (files ++ [processedFile])
            | None => forEachItem recur sys dirPath recursive rest files
            end
          else forEachItem recur sys dirPath recursive rest files
      end
  end.

(** [processDirectory].  [fuel] bounds the depth of the recursion;
    [None] means the bound was reached.  A [readdirSync] that throws
    gives the empty list. *)
Fixpoint processDirectory (fuel : nat) (sys : Platform) (dirPath : jsstring)
    (recursive : bool) : option (list ProcessedFile) :=
  match fuel with
  | O => None
  | S fuel' =>
      match readdirSync sys dirPath with
      | None => Some []
      | Some items =>
          forEachItem (fun itemPath =>
                         processDirectory fuel' sys itemPath recursive)
            sys dirPath recursive items []
      end
  end.

(** The options of the [ingest] command. *)
Record IngestOptions := {
  recursive : bool;
  typeFilter : option jsstring
}.

(** [if (options.type) files = files.filter(f => f.type === options.type)];
    the empty string is falsy. *)
Definition filterByType (options : IngestOptions)
    (files : list ProcessedFile) : list ProcessedFile :=
  match typeFilter options with
  | Some (c :: t) => filter (fun f => eqb_str (type f) (c :: t)) files
  | Some [] | None => files
  end.

Inductive CommandReport :=
| PathDoesNotExist
| Finished (report : Rag.IngestReport).

(** The action of the [ingest] command, from the check of the path on;
    the connection to the database is taken as made. *)
Definition ingestCommand (fuel : nat) (sys : Platform) (env : Rag.Env)
    (inputPath : jsstring) (options : IngestOptions) (w : Rag.World)
    : option (CommandReport * Rag.World) :=
  if negb (pathExists sys inputPath) then Some (PathDoesNotExist, w)
  else
    match stat sys inputPath with
    | None => Some (Finished Rag.IngestionFailed, w)
    | Some stats =>
        let discovered :=
          if isFile stats then
            Some match processFile sys inputPath with
                 | Some file => [file]
                 | None => []
                 end
          else processDirectory fuel sys inputPath (recursive options) in
        match discovered with
        | None => None
        | Some files =>
            match Rag.ingestAction env (filterByType options files) w with
            | (Rag.Ok report, w') => Some (Finished report, w')
            | (Rag.Throw _, w') => Some (Finished Rag.IngestionFailed, w')
            end
        end
    end.

End Discovery.

(** ** The [query] and [interactive] commands of [cli.ts]

    [connects] tells whether [documentManager.connect()] resolves; it is
    no call to the table or to a model, and the log of calls is left as
    it is.  The lines typed in an interactive session are a list:
    [rl.question] hands the next one to its callback, and the session
    is over when none is left.  [disconnect] comes after the report. *)

Module Commands.

Import Rag.
Local Open Scope js_scope.

(** [await documentManager.connect()] *)
Definition connect (connects : bool) : M unit :=
  fun w => if connects then (Ok tt, w) else (Throw StoreError, w).

Inductive QueryReport :=
| NoDocumentsFound
| Answered (answer : jsstring)
| QueryFailed.

(** The action of the [query] command. *)
Definition queryCommand (env : Env) (connects : bool) (question : jsstring)
    : M QueryReport :=
  tryCatch
    (connect connects ;;;
     stats <- getStats env ;;
     if totalChunks stats =? 0 then ret NoDocumentsFound
     else
       answer <- askQuestion env question 4 ;;
       ret (Answered answer))
    (fun _ => ret QueryFailed).

(** What the interactive session writes in reply to a line. *)
Inductive Shown :=
| PleaseEnterAQuestion
| Thanks
| AnswerShown (answer : jsstring)
| ErrorProcessingQuestion.

Definition quitWords : list jsstring := [lit "quit"; lit "exit"; lit "q"].

(** [['quit', 'exit', 'q'].includes(question.toLowerCase().trim())] *)
Definition isQuit (toLowerCase : jsstring -> jsstring) (question : jsstring)
    : bool :=
  existsb (eqb_str (trim (toLowerCase question))) quitWords.

(** The closure [askQuestion] of the interactive command, which calls
    itself after every line but one that quits. *)
Fixpoint askLoop (env : Env) (toLowerCase : jsstring -> jsstring)
    (lines : list jsstring) : M (list Shown) :=
  match lines with
  | [] => ret []
  | question :: rest =>
      if len (trim question) =? 0 then
        shown <- askLoop env toLowerCase rest ;;
        ret (PleaseEnterAQuestion :: shown)
      else if isQuit toLowerCase question then ret [Thanks]
      else
        reply <- tryCatch
                   (answer <- askQuestion env question 4 ;;
                    ret (AnswerShown answer))
                   (fun _ => ret ErrorProcessingQuestion) ;;
        shown <- askLoop env toLowerCase rest ;;
        ret (reply :: shown)
  end.

Inductive SessionReport :=
| NoDocumentsInDatabase
| Session (shown : list Shown)
| FailedToStart.

(** The action of the [interactive] command. *)
Definition interactiveCommand (env : Env) (connects : bool)
    (toLowerCase : jsstring -> jsstring) (lines : list jsstring)
    : M SessionReport :=
  tryCatch
    (connect connects ;;;
     stats <- getStats env ;;
     if totalChunks stats =? 0 then ret NoDocumentsInDatabase
     else
       shown <- askLoop env toLowerCase lines ;;
       ret (Session shown))
    (fun _ => ret FailedToStart).

End Commands.

(** * Vocabulary of the properties *)

Import Chunker.
Import Rag.

(** The windows whose chunk passes the filter on the length. *)
Definition keptWindows (text : jsstring) (ws : list Window) : list Window :=
  filter (fun w => keepChunk (chunkOf text w)) ws.

(** What holds of the window [w] behind a returned chunk: its chunk is
    the slice of the text at its span, is no longer than [chunkSize] plus
    the length of the delimiter that moved the end of the window, and is
    longer than 20 code units, trimmed. *)
Definition chunkBound (text : jsstring) (chunkSize : Z) (w : Window) : Prop :=
  w = windowAt text chunkSize (w_start w) /\
  chunkOf text w = slice text (fst (spanOf text w)) (snd (spanOf text w)) /\
  0 <= fst (spanOf text w) <= snd (spanOf text w) /\
  snd (spanOf text w) <= len text /\
  len (chunkOf text w) <= chunkSize + w_delim w /\
  0 <= w_delim w <= 2 /\
  20 < len (trim (chunkOf text w)).

(** A window of the scan that starts at or after [start], inside the
    text. *)
Definition inText (text : jsstring) (chunkSize start : Z) (w : Window)
    : Prop :=
  start <= w_start w < len text /\ w = windowAt text chunkSize (w_start w).

(** [w2] starts no earlier than [overlap] before the end of [w1]. *)
Definition follows (overlap : Z) (w1 w2 : Window) : Prop :=
  w_end w1 - overlap <= w_start w2.

(** What [ingestFile] sets in a row: everything but the serial [id] and
    the embedding the model replied. *)
Definition describe (r : DocumentChunk) : jsstring * jsstring * Metadata :=
  (chunk_id r, content r, metadata r).

(** The metadata and the chunk identifier [ingestFile] gives to chunk [i]
    of a file. *)
Definition metadataOf (file : FileProcessor.ProcessedFile) (i : nat)
    : Metadata :=
  {| source := FileProcessor.path file; chunkIndex := i;
     fileType := FileProcessor.type file;
     lastModified := FileProcessor.lastModified file |}.

Definition chunkIdOf (file : FileProcessor.ProcessedFile) (i : nat)
    : jsstring :=
  FileProcessor.path file ++ underscoreChunk ++ ofNat i.

(** The rows one generation of a file consists of, from chunk [i] on. *)
Fixpoint rowsFrom (file : FileProcessor.ProcessedFile) (i : nat)
    (textChunks : list jsstring) : list (jsstring * jsstring * Metadata) :=
  match textChunks with
  | [] => []
  | chunk :: rest =>
      (chunkIdOf file i, chunk, metadataOf file i) :: rowsFrom file (S i) rest
  end.

(** The rows of a completed [ingestFile] of the file. *)
Definition generationOf (file : FileProcessor.ProcessedFile)
    : list (jsstring * jsstring * Metadata) :=
  rowsFrom file 0 (splitIntoChunks (FileProcessor.content file)).

(** The rows of a source, and the rows of all other sources. *)
Definition rowsOfSource (src : jsstring) (table : list DocumentChunk)
    : list DocumentChunk :=
  filter (sourceIs src) table.

Definition otherSources (src : jsstring) (table : list DocumentChunk)
    : list DocumentChunk :=
  filter (fun r => negb (sourceIs src r)) table.

(** The [INSERT] of chunk [i]. *)
Definition insertOf (file : FileProcessor.ProcessedFile) (i : nat)
    (chunk : jsstring) (values : list float) : Call :=
  Query (InsertChunk (chunkIdOf file i) chunk values (metadataOf file i)).

(** The rows of every source are a prefix of one generation of one
    file: chunk 0, chunk 1, ... of a single run of [ingestFile]. *)
Definition oneGeneration (table : list DocumentChunk) : Prop :=
  forall src, exists (file : FileProcessor.ProcessedFile) (k : nat),
    FileProcessor.path file = src /\
    map describe (rowsOfSource src table) = firstn k (generationOf file).

(** [searchResults.length === 0 || searchResults[0].similarity < 0.3] *)
Definition belowThreshold (searchResults : list SearchResult) : bool :=
  match searchResults with
  | [] => true
  | top :: _ => PrimFloat.ltb (similarity top) threshold
  end.

Definition isGenerate (c : Call) : bool :=
  match c with GenerateContent _ => true | _ => false end.

Definition isEmbed (c : Call) : bool :=
  match c with EmbedContent _ => true | _ => false end.

(** The calls made from world [w] to world [w']. *)
Definition callsSince (w w' : World) : list Call :=
  skipn (length (calls w)) (calls w').

(** [pat] occurs in [text] at index [j]. *)
Definition occursAt (text pat : jsstring) (j : Z) : Prop :=
  0 <= j /\ j + len pat <= len text /\ slice text j (j + len pat) = pat.

(** [j] lies beyond the middle of the window that starts at [start], and
    not after its hard end. *)
Definition beyondMiddle (chunkSize start j : Z) : Prop :=
  2 * start + chunkSize < 2 * j /\ j <= start + chunkSize.

(** The calls a completed loop of [ingestFile] makes for the chunks from
    index [i] on, each with the vector the model replied. *)
Fixpoint ingestCallsFrom (file : FileProcessor.ProcessedFile) (i : nat)
    (embedded : list (jsstring * list float)) : list Call :=
  match embedded with
  | [] => []
  | (chunk, values) :: rest =>
      EmbedContent chunk :: insertOf file i chunk values
      :: ingestCallsFrom file (S i) rest
  end.

(** The rows it appends, with serial numbers from [serial] on. *)
Fixpoint newRowsFrom (file : FileProcessor.ProcessedFile) (i : nat)
    (serial : Z) (embedded : list (jsstring * list float))
    : list DocumentChunk :=
  match embedded with
  | [] => []
  | (chunk, values) :: rest =>
      {| id := serial; chunk_id := chunkIdOf file i; content := chunk;
         embedding := values; metadata := metadataOf file i |}
      :: newRowsFrom file (S i) (serial + 1) rest
  end.

(** A row whose chunk identifier is the one [ingestFile] builds from its
    source and its chunk index. *)
Definition wellNamed (r : DocumentChunk) : Prop :=
  chunk_id r =
  source (metadata r) ++ underscoreChunk ++ ofNat (chunkIndex (metadata r)).

(** What [searchSimilarChunks] makes of a row of the table. *)
Definition resultOf (env : Env) (queryVector : list float)
    (row : DocumentChunk) : SearchResult :=
  {| chunk := {| id := id row; chunk_id := chunk_id row;
                 content := content row; embedding := [];
                 metadata := metadata row |};
     similarity := PrimFloat.sub 1 (distance env (embedding row) queryVector) |}.

(** The results of a search that returned. *)
Definition foundOf (search : outcome (list SearchResult) * World)
    : list SearchResult :=
  match fst search with
  | Ok found => found
  | Throw _ => []
  end.

(** The file types [processFile] can give. *)
Definition supportedTypes : list jsstring :=
  [lit "txt"; lit "md"; lit "json"].


(** [p] is reached from [dir] through entries of directory listings,
    every step but the last one entering a directory. *)
Inductive below (sys : Discovery.Platform) (dir : jsstring)
    : jsstring -> Prop :=
| below_entry items item :
    Discovery.readdirSync sys dir = Some items -> In item items ->
    below sys dir (Discovery.join2 sys dir item)
| below_sub items item stats p :
    Discovery.readdirSync sys dir = Some items -> In item items ->
    Discovery.stat sys (Discovery.join2 sys dir item) = Some stats ->
    Discovery.isDirectory stats = true ->
    below sys (Discovery.join2 sys dir item) p ->
    below sys dir p.

(** A file that is what [processFile] makes of its path. *)
Definition processed (sys : Discovery.Platform)
    (f : FileProcessor.ProcessedFile) : Prop :=
  Discovery.processFile sys (FileProcessor.path f) = Some f.

(** Every directory entered from a listing lies less deep than the
    directory listed: the tree has no cycle. *)
Definition measures (sys : Discovery.Platform) (depth : jsstring -> nat)
    : Prop :=
  forall dir items item stats,
    Discovery.readdirSync sys dir = Some items -> In item items ->
    Discovery.stat sys (Discovery.join2 sys dir item) = Some stats ->
    Discovery.isDirectory stats = true ->
    (depth (Discovery.join2 sys dir item) < depth dir)%nat.

(** A line that ends the session: not blank, and a quit word once
    lower-cased and trimmed. *)
Definition quits (toLowerCase : jsstring -> jsstring) (line : jsstring)
    : bool :=
  negb (len (trim line) =? 0) && Commands.isQuit toLowerCase line.

(** The replies to lines none of which quits, from the world [w] to the
    world [w']: a blank line is answered by the request to enter a
    question; any other line is answered by what [askQuestion] returns
    for it, with the default limit, in the world the lines before it
    left. *)
Inductive sessionReplies (env : Env)
    : World -> list jsstring -> list Commands.Shown -> World -> Prop :=
| replies_done w : sessionReplies env w [] [] w
| replies_blank w line rest shown w' :
    len (trim line) = 0 ->
    sessionReplies env w rest shown w' ->
    sessionReplies env w (line :: rest)
      (Commands.PleaseEnterAQuestion :: shown) w'
| replies_answer w line rest answer w1 shown w' :
    len (trim line) <> 0 ->
    askQuestion env line 4 w = (Ok answer, w1) ->
    sessionReplies env w1 rest shown w' ->
    sessionReplies env w (line :: rest)
      (Commands.AnswerShown answer :: shown) w'.

(** The vectors are the replies of the embedding model to the calls made
    for the chunks, the first call at time [t] and one call every two
    ticks, an [INSERT] lying between them. *)
Fixpoint repliedFrom (env : Env) (t : nat)
    (embedded : list (jsstring * list float)) : Prop :=
  match embedded with
  | [] => True
  | (chunk, values) :: rest =>
      embedReply env t chunk = Some values /\ repliedFrom env (S (S t)) rest
  end.

(** No two rows of the table are at distances from the query vector
    that [ORDER BY] ranks alike. *)
Definition noTies (env : Env) (queryVector : list float)
    (table : list DocumentChunk) : Prop :=
  ForallOrdPairs
    (fun r1 r2 =>
       tied (distance env (embedding r1) queryVector)
            (distance env (embedding r2) queryVector) = false)
    table.

(** What a depth-first walk of the document in the order it is written
    emits, by the rule of [emitted]. *)
Fixpoint written (d : JsonDocument.document) : list jsstring :=
  match d with
  | JsonDocument.DString s => [s]
  | JsonDocument.DArray items => flat_map written items
  | JsonDocument.DObject members =>
      flat_map (fun member : jsstring * JsonDocument.document =>
                  let (key, value) := member in
                  match value with
                  | JsonDocument.DString s =>
                      if len s >? 10 then [key ++ lit ": " ++ s] else [s]
                  | _ => written value
                  end) members
  | JsonDocument.DNull | JsonDocument.DBool _ | JsonDocument.DNumber _ => []
  end.

(** No string of the list occurs twice. *)
Fixpoint noRepeat (keys : list jsstring) : bool :=
  match keys with
  | [] => true
  | key :: rest => negb (existsb (eqb_str key) rest) && noRepeat rest
  end.

(** No object of the document, at any depth, has a key that is an array
    index or a key written twice. *)
Fixpoint plainKeys (d : JsonDocument.document) : bool :=
  match d with
  | JsonDocument.DArray items => forallb plainKeys items
  | JsonDocument.DObject members =>
      noRepeat (map fst members)
      && forallb (fun member : jsstring * JsonDocument.document =>
                    let (key, value) := member in
                    match JsonDocument.arrayIndex key with
                    | Some _ => false
                    | None => plainKeys value
                    end) members
  | _ => true
  end.


(** * Sample texts, files, tables and collaborators *)

(** A text of fifteen code units with a newline at index 6. *)
Definition stuckText : jsstring := lit "aaaaaa" ++ [10%N] ++ lit "aaaaaaaa".

(** [m] letters a, a newline, [n] letters a. *)
Definition oneNewline (m n : nat) : jsstring :=
  repeat 97%N m ++ 10%N :: repeat 97%N n.

(** A short text with white space around it. *)
Definition helloText : jsstring := lit "  The quick brown fox jumps over it. ".

(** Forty letters a, fifty spaces, forty letters b. *)
Definition gapText : jsstring :=
  repeat 97%N 40 ++ repeat 32%N 50 ++ repeat 98%N 40.

(** 530 times the letter a. *)
Definition text530 : jsstring := repeat 97%N 530.

(** A text of 96 code units in three sentences. *)
Definition threeSentences : jsstring :=
  lit "Alpha beta gamma delta epsilon zeta. Eta theta iota kappa lambda mu nu. Xi omicron pi rho sigma.".

(** A Markdown file as [processFile] hands it on. *)
Definition mdFile (name : String.string) (text : jsstring)
    : FileProcessor.ProcessedFile :=
  {| FileProcessor.path := lit name; FileProcessor.content := text;
     FileProcessor.type := lit "md"; FileProcessor.size := len text;
     FileProcessor.lastModified := 0 |}.

(** [a.md], 700 code units: two chunks with the default parameters. *)
Definition fileA : FileProcessor.ProcessedFile :=
  mdFile "a.md" (repeat 97%N 700).

(** [b.md], 40 code units: one chunk. *)
Definition fileB : FileProcessor.ProcessedFile :=
  mdFile "b.md" (repeat 98%N 40).

(** Every collaborator replies, except that the call number [n] fails
    when it is to the embedding model. *)
Definition embedFailsAt (n : nat) : Env :=
  {| queryFails := fun _ => false;
     embedReply := fun t _ => if Nat.eqb t n then None else Some [0.5%float];
     generateReply := fun _ _ => Some (lit "It is so.");
     distance := fun _ _ => 0.5%float;
     tieRank := fun _ _ => O |}.

(** No call ever fails. *)
Definition allReply : Env :=
  {| queryFails := fun _ => false;
     embedReply := fun _ _ => Some [0.5%float];
     generateReply := fun _ _ => Some (lit "It is so.");
     distance := fun _ _ => 0.5%float;
     tieRank := fun _ _ => O |}.

Definition emptyWorld : World := {| rows := []; nextId := 1; calls := [] |}.

(** A table that holds an earlier, shorter version of [a.md]. *)
Definition oldGeneration : World :=
  {| rows :=
       [{| id := 1; chunk_id := lit "a.md_chunk_0";
           content := lit "the text a.md had when it was ingested before";
           embedding := [0.25%float];
           metadata := {| source := lit "a.md"; chunkIndex := 0;
                          fileType := lit "md"; lastModified := 0 |} |}];
     nextId := 2; calls := [] |}.

Definition aQuestion : jsstring := lit "What is a chunk?".

(** Every row is at distance 0.875 from every query: similarity 0.125. *)
Definition allFar : Env :=
  {| queryFails := fun _ => false;
     embedReply := fun _ _ => Some [0.5%float];
     generateReply := fun _ _ => Some (lit "It is so.");
     distance := fun _ _ => 0.875%float;
     tieRank := fun _ _ => O |}.

(** A row whose embedding is [1] is at distance 0.125 from every query,
    any other row at distance 0.875. *)
Definition nearAndFar : Env :=
  {| queryFails := fun _ => false;
     embedReply := fun _ _ => Some [0.5%float];
     generateReply := fun _ _ => Some (lit "It is so.");
     distance := fun e _ =>
       match e with
       | [x] => if PrimFloat.eqb x 1 then 0.125%float else 0.875%float
       | _ => 0.5%float
       end;
     tieRank := fun _ _ => O |}.

Definition rowOf (n : Z) (path : String.string) (text : String.string)
    (vector : list float) : DocumentChunk :=
  {| id := n; chunk_id := lit path ++ lit "_chunk_0"; content := lit text;
     embedding := vector;
     metadata := {| source := lit path; chunkIndex := 0;
                    fileType := lit "md"; lastModified := 0 |} |}.

Definition twoSources : World :=
  {| rows := [rowOf 1 "docs/far.md" "Bread is baked in an oven." [2%float];
              rowOf 2 "docs/near.md" "A chunk is a slice of a text." [1%float]];
     nextId := 3; calls := [] |}.

(** What the search finds in [twoSources] when every row is far, and
    the world it leaves. *)
Definition farSearch : outcome (list SearchResult) * World :=
  searchSimilarChunks allFar aQuestion 4
    (logCall (Query SelectStats) twoSources).

Definition farResults : list SearchResult :=
  match fst farSearch with
  | Ok found => found
  | Throw _ => []
  end.

Definition nearSearch : outcome (list SearchResult) * World :=
  searchSimilarChunks nearAndFar aQuestion 4
    (logCall (Query SelectStats) twoSources).

Definition nearResults : list SearchResult :=
  match fst nearSearch with
  | Ok found => found
  | Throw _ => []
  end.

(** The value of
    {"title": "A long enough title", "tags": ["x", "a tag of some length"],
     "n": 3, "nested": {"note": "short"}}. *)
Definition sampleJson : FileProcessor.json :=
  FileProcessor.JObject
    [(lit "title", FileProcessor.JString (lit "A long enough title"));
     (lit "tags",
      FileProcessor.JArray
        [FileProcessor.JString (lit "x");
         FileProcessor.JString (lit "a tag of some length")]);
     (lit "n", FileProcessor.JNumber 3);
     (lit "nested",
      FileProcessor.JObject
        [(lit "note", FileProcessor.JString (lit "short"))])].

(** A new text for [a.md] of 20 code units only. *)
Definition tinyFile : FileProcessor.ProcessedFile :=
  mdFile "a.md" (lit "Twenty code units ok").

(** The search in [twoSources] with the limits 1 and 2. *)
Definition topOne : outcome (list SearchResult) * World :=
  searchSimilarChunks nearAndFar aQuestion 1 twoSources.

Definition topTwo : outcome (list SearchResult) * World :=
  searchSimilarChunks nearAndFar aQuestion (1 + 1) twoSources.

(** A platform over a table of paths: the extension is the text from
    the last dot on, lower case is taken as given, and two segments are
    joined by a slash. *)
Fixpoint lookupPath {A} (table : list (jsstring * A)) (p : jsstring)
    : option A :=
  match table with
  | [] => None
  | (q, a) :: rest => if eqb_str p q then Some a else lookupPath rest p
  end.

Definition extOf (p : jsstring) : jsstring :=
  let i := lastIndexOf p (lit ".") (len p) in
  if i <? 0 then [] else slice p i (len p).

Inductive Node :=
| TextFile (text : jsstring)
| JsonFile (data : FileProcessor.json)
| Directory (items : list jsstring).

Definition platformOf (table : list (jsstring * Node)) : Discovery.Platform :=
  {| Discovery.stat := fun p =>
       match lookupPath table p with
       | Some (TextFile text) =>
           Some {| Discovery.isFile := true; Discovery.isDirectory := false;
                   Discovery.statSize := len text; Discovery.mtime := 0 |}
       | Some (JsonFile _) =>
           Some {| Discovery.isFile := true; Discovery.isDirectory := false;
                   Discovery.statSize := 0; Discovery.mtime := 0 |}
       | Some (Directory _) =>
           Some {| Discovery.isFile := false; Discovery.isDirectory := true;
                   Discovery.statSize := 0; Discovery.mtime := 0 |}
       | None => None
       end;
     Discovery.readFile := fun p =>
       match lookupPath table p with
       | Some (TextFile text) => Some text
       | _ => None
       end;
     Discovery.readJson := fun p =>
       match lookupPath table p with
       | Some (JsonFile data) => Some data
       | _ => None
       end;
     Discovery.readdirSync := fun p =>
       match lookupPath table p with
       | Some (Directory items) => Some items
       | _ => None
       end;
     Discovery.pathExists := fun p =>
       match lookupPath table p with Some _ => true | None => false end;
     Discovery.extname := extOf;
     Discovery.toLowerCase := fun s => s;
     Discovery.join2 := fun a b => a ++ lit "/" ++ b |}.

(** [docs] lists a Markdown file, a directory [sub] with a text file and
    a file of blanks, an entry that is gone, and a JSON file. *)
Definition sampleTree : Discovery.Platform :=
  platformOf
    [(lit "docs", Directory [lit "a.md"; lit "sub"; lit "gone"; lit "c.json"]);
     (lit "docs/a.md", TextFile (lit " Alpha is the first letter. "));
     (lit "docs/sub", Directory [lit "b.txt"; lit "blank.txt"]);
     (lit "docs/sub/b.txt", TextFile (lit "Beta is the second letter."));
     (lit "docs/sub/blank.txt", TextFile (lit "  "));
     (lit "docs/c.json", JsonFile (FileProcessor.JString (lit "gamma")))].

(** [ingest docs --type md] and [ingest docs --type .md] on an empty
    table, with collaborators that always reply. *)
Definition mdOnly : Discovery.IngestOptions :=
  {| Discovery.recursive := true; Discovery.typeFilter := Some (lit "md") |}.

Definition dotMdOnly : Discovery.IngestOptions :=
  {| Discovery.recursive := true; Discovery.typeFilter := Some (lit ".md") |}.

Definition mdCommand : option (Discovery.CommandReport * World) :=
  Discovery.ingestCommand 2 sampleTree allReply (lit "docs") mdOnly emptyWorld.

Definition mdReport : Discovery.CommandReport :=
  match mdCommand with
  | Some (report, _) => report
  | None => Discovery.PathDoesNotExist
  end.

Definition mdWorld : World :=
  match mdCommand with
  | Some (_, w) => w
  | None => emptyWorld
  end.

(** The depth of the directories of [sampleTree]. *)
Definition sampleDepth (p : jsstring) : nat :=
  if eqb_str p (lit "docs") then 1%nat else 0%nat.

(** Lower case for the letters A to Z. *)
Definition asciiLower (s : jsstring) : jsstring :=
  map (fun c => if (65 <=? c)%N && (c <=? 90)%N then (c + 32)%N else c) s.

(** A session of four lines on [twoSources]: a blank line, a question,
    a line that quits and a line typed after it. *)
Definition sessionBefore : list jsstring := [lit "  "; aQuestion].

Definition sessionRest : list jsstring :=
  [lit " Quit "; lit "What is bread?"].

(** The document {"b": "beta", "1": "one"}. *)
Definition indexKeyDocument : JsonDocument.document :=
  JsonDocument.DObject
    [(lit "b", JsonDocument.DString (lit "beta"));
     (lit "1", JsonDocument.DString (lit "one"))].

(** The document {"title": "A long enough title", "tags": ["x"]}. *)
Definition plainDocument : JsonDocument.document :=
  JsonDocument.DObject
    [(lit "title", JsonDocument.DString (lit "A long enough title"));
     (lit "tags", JsonDocument.DArray [JsonDocument.DString (lit "x")])].

(** [docs/pad.json] holds {"": "           "}, a string of eleven
    spaces under the empty key, and [docs/blank.json] holds
    {"note": "  ", "list": [" ", 1]}. *)
Definition jsonTree : Discovery.Platform :=
  platformOf
    [(lit "docs/pad.json",
      JsonFile (FileProcessor.JObject
                  [([], FileProcessor.JString (repeat 32%N 11))]));
     (lit "docs/blank.json",
      JsonFile (FileProcessor.JObject
                  [(lit "note", FileProcessor.JString (lit "  "));
                   (lit "list",
                    FileProcessor.JArray
                      [FileProcessor.JString (lit " ");
                       FileProcessor.JNumber 1])]))].

(** Every row is at the same distance from every query, and the
    database ranks such rows by descending [id] in its calls of odd
    number and by ascending [id] in those of even number. *)
Definition fickle : Env :=
  {| queryFails := fun _ => false;
     embedReply := fun _ _ => Some [0.5%float];
     generateReply := fun _ _ => Some (lit "It is so.");
     distance := fun _ _ => 0.5%float;
     tieRank := fun t r =>
       if Nat.even t then Z.to_nat (id r) else (10 - Z.to_nat (id r))%nat |}.

(** * Properties *)

(** ** JavaScript strings *)

Section StringFacts.

Lemma len_nonneg (s : jsstring) : 0 <= len s.
Proof. unfold len. lia. Qed.

Lemma len_app (a b : jsstring) : len (a ++ b) = len a + len b.
Proof. unfold len. rewrite length_app. lia. Qed.

Lemma len_nil_iff (s : jsstring) : len s = 0 <-> s = [].
Proof.
  unfold len. destruct s; simpl; split; intros H; try reflexivity;
    try discriminate; lia.
Qed.

Lemma eqb_str_true (a b : jsstring) : eqb_str a b = true <-> a = b.
Proof.
  unfold eqb_str. destruct (list_eq_dec N.eq_dec a b); split; intros H;
    try assumption; try reflexivity; try discriminate. contradiction.
Qed.

Lemma eqb_str_false (a b : jsstring) : eqb_str a b = false <-> a <> b.
Proof.
  unfold eqb_str. destruct (list_eq_dec N.eq_dec a b); split; intros H;
    try assumption; try reflexivity; try discriminate. contradiction.
Qed.

Lemma startsWith_length (s pat : jsstring) :
  startsWith s pat = true -> (length pat <= length s)%nat.
Proof.
  revert s. induction pat as [|p pat IH]; intros s H; simpl.
  - lia.
  - destruct s as [|c s]; simpl in H; [discriminate|].
    apply andb_prop in H. destruct H as [_ H]. apply IH in H. simpl. lia.
Qed.

Lemma lastIndexOfFrom_S (s pat : jsstring) (k : nat) :
  lastIndexOfFrom s pat (S k) =
  if startsWith (skipn (S k) s) pat then Z.of_nat (S k)
  else lastIndexOfFrom s pat k.
Proof. reflexivity. Qed.

Lemma lastIndexOfFrom_range (s pat : jsstring) (k : nat) :
  -1 <= lastIndexOfFrom s pat k <= Z.of_nat k.
Proof.
  induction k as [|k IH].
  - simpl. destruct (startsWith _ _); lia.
  - rewrite lastIndexOfFrom_S. destruct (startsWith _ _); lia.
Qed.

Lemma lastIndexOfFrom_found (s pat : jsstring) (k : nat) :
  0 <= lastIndexOfFrom s pat k ->
  startsWith (skipn (Z.to_nat (lastIndexOfFrom s pat k)) s) pat = true.
Proof.
  induction k as [|k IH].
  - simpl. destruct (startsWith s pat) eqn:E; [intros _; exact E | lia].
  - rewrite lastIndexOfFrom_S.
    destruct (startsWith (skipn (S k) s) pat) eqn:E.
    + intros _. rewrite Nat2Z.id. exact E.
    + exact IH.
Qed.

Lemma lastIndexOfFrom_none (s pat : jsstring) (k : nat) :
  (forall j, (j <= k)%nat -> startsWith (skipn j s) pat = false) ->
  lastIndexOfFrom s pat k = -1.
Proof.
  induction k as [|k IH]; intros H.
  - pose proof (H O (Nat.le_refl 0)) as E. simpl in *. rewrite E. reflexivity.
  - rewrite lastIndexOfFrom_S, (H (S k)) by lia. apply IH.
    intros j Hj. apply H. lia.
Qed.

Lemma lastIndexOfFrom_at (s pat : jsstring) (k i : nat) :
  (i <= k)%nat -> startsWith (skipn i s) pat = true ->
  (forall j, (i < j <= k)%nat -> startsWith (skipn j s) pat = false) ->
  lastIndexOfFrom s pat k = Z.of_nat i.
Proof.
  induction k as [|k IH]; intros Hi Ht Hf.
  - assert (i = O) by lia. subst i. simpl in *. rewrite Ht. reflexivity.
  - rewrite lastIndexOfFrom_S.
    destruct (Nat.eq_dec i (S k)) as [->|N].
    + rewrite Ht. reflexivity.
    + rewrite (Hf (S k)) by lia. apply IH; [lia | exact Ht |].
      intros j Hj. apply Hf. lia.
Qed.

(** What [lastIndexOf] returns: -1, or an index not after the position
    asked for at which the whole pattern fits in the string. *)
Lemma lastIndexOf_range (s pat : jsstring) (position : Z) :
  lastIndexOf s pat position = -1 \/
  (0 <= lastIndexOf s pat position <= Z.max position 0 /\
   lastIndexOf s pat position + len pat <= len s).
Proof.
  unfold lastIndexOf. destruct (len s <? len pat) eqn:E; [left; reflexivity|].
  apply Z.ltb_ge in E.
  set (k := Z.to_nat _).
  assert (Z.of_nat k = Z.min (Z.max position 0) (len s - len pat)) as Hk
    by (subst k; lia).
  clearbody k.
  pose proof (lastIndexOfFrom_range s pat k) as R.
  destruct (Z.eq_dec (lastIndexOfFrom s pat k) (-1)) as [Hm|Hm]; [left; exact Hm|].
  right. assert (0 <= lastIndexOfFrom s pat k) as H0 by lia.
  split.
  - split; [exact H0|]. lia.
  - pose proof (lastIndexOfFrom_found s pat k H0) as F.
    apply startsWith_length in F. rewrite length_skipn in F.
    unfold len in *. lia.
Qed.

Lemma clampIndex_range (n i : Z) : 0 <= n -> 0 <= clampIndex n i <= n.
Proof.
  intros Hn. unfold clampIndex.
  destruct (i <? 0) eqn:E; [apply Z.ltb_lt in E | apply Z.ltb_ge in E]; lia.
Qed.

Lemma clampIndex_inside (n i : Z) : 0 <= i <= n -> clampIndex n i = i.
Proof.
  intros H. unfold clampIndex.
  destruct (i <? 0) eqn:E; [apply Z.ltb_lt in E | apply Z.ltb_ge in E]; lia.
Qed.

Lemma len_slice (s : jsstring) (a b : Z) :
  len (slice s a b) =
  Z.max 0 (clampIndex (len s) b - clampIndex (len s) a).
Proof.
  pose proof (clampIndex_range (len s) a (len_nonneg s)) as Ha.
  pose proof (clampIndex_range (len s) b (len_nonneg s)) as Hb.
  unfold slice. unfold len at 1. rewrite length_firstn, length_skipn.
  unfold len in *. lia.
Qed.

Lemma slice_whole (s : jsstring) (b : Z) : len s <= b -> slice s 0 b = s.
Proof.
  intros H. unfold slice, clampIndex. simpl.
  pose proof (len_nonneg s) as Hn.
  destruct (b <? 0) eqn:E; [apply Z.ltb_lt in E; lia|].
  replace (Z.min 0 (len s)) with 0 by lia.
  replace (Z.min b (len s)) with (len s) by lia.
  rewrite Z.sub_0_r. unfold len. rewrite Nat2Z.id. apply firstn_all.
Qed.

End StringFacts.

Section TrimFacts.

Lemma trimStart_skipn (s : jsstring) :
  exists n, (n <= length s)%nat /\ trimStart s = skipn n s.
Proof.
  induction s as [|c s IH].
  - exists O. split; [simpl; lia | reflexivity].
  - cbn [trimStart]. destruct (isWhiteSpace c).
    + destruct IH as [n [Hn IH]]. exists (S n). split; [simpl; lia | exact IH].
    + exists O. split; [simpl; lia | reflexivity].
Qed.

Lemma trimStart_suffix (s : jsstring) :
  trimStart s = skipn (length s - length (trimStart s)) s.
Proof.
  destruct (trimStart_skipn s) as [n [Hn E]].
  rewrite E at 2. rewrite length_skipn.
  replace (length s - (length s - n))%nat with n by lia. exact E.
Qed.

Lemma trimStart_length (s : jsstring) :
  (length (trimStart s) <= length s)%nat.
Proof. rewrite trimStart_suffix at 1. rewrite length_skipn. lia. Qed.

Lemma trimEnd_prefix (s : jsstring) :
  trimEnd s = firstn (length (trimEnd s)) s.
Proof.
  induction s as [|c s IH]; simpl; [reflexivity|].
  destruct (trimEnd s) as [|d t] eqn:E.
  - destruct (isWhiteSpace c); reflexivity.
  - simpl. f_equal. exact IH.
Qed.

Lemma trimEnd_length (s : jsstring) : (length (trimEnd s) <= length s)%nat.
Proof. rewrite trimEnd_prefix at 1. rewrite length_firstn. lia. Qed.

Lemma trim_length (s : jsstring) : len (trim s) <= len s.
Proof.
  unfold trim, len.
  pose proof (trimEnd_length (trimStart s)). pose proof (trimStart_length s).
  lia.
Qed.

(** The trimmed string sits inside the string, after the leading white
    space. *)
Lemma trim_inside (s : jsstring) :
  trim s =
  firstn (length (trim s)) (skipn (length s - length (trimStart s)) s).
Proof.
  unfold trim. rewrite <- trimStart_suffix. apply trimEnd_prefix.
Qed.

Lemma trimStart_head (s : jsstring) :
  match trimStart s with
  | [] => True
  | c :: _ => isWhiteSpace c = false
  end.
Proof.
  induction s as [|c s IH]; simpl; [exact I|].
  destruct (isWhiteSpace c) eqn:E; [exact IH | exact E].
Qed.

Lemma trimEnd_head (s : jsstring) :
  match trimEnd s with
  | [] => True
  | c :: _ => exists s', s = c :: s'
  end.
Proof.
  destruct s as [|c s]; simpl; [exact I|].
  destruct (trimEnd s); [destruct (isWhiteSpace c)|]; try exact I;
    eexists; reflexivity.
Qed.

Lemma trimEnd_idem (s : jsstring) : trimEnd (trimEnd s) = trimEnd s.
Proof.
  induction s as [|c s IH]; simpl; [reflexivity|].
  destruct (trimEnd s) as [|d t] eqn:E.
  - destruct (isWhiteSpace c) eqn:W; simpl; [reflexivity|].
    rewrite W. reflexivity.
  - change (trimEnd (c :: d :: t)) with
      (match trimEnd (d :: t) with
       | [] => if isWhiteSpace c then [] else [c]
       | u => c :: u
       end).
    rewrite IH. reflexivity.
Qed.

Lemma trim_idem (s : jsstring) : trim (trim s) = trim s.
Proof.
  unfold trim at 1.
  assert (trimStart (trim s) = trim s) as H.
  { unfold trim. pose proof (trimStart_head s) as Hs.
    pose proof (trimEnd_head (trimStart s)) as He.
    destruct (trimEnd (trimStart s)) as [|c t]; [reflexivity|].
    destruct He as [s' He]. rewrite He in Hs. simpl. rewrite Hs. reflexivity. }
  rewrite H. unfold trim. apply trimEnd_idem.
Qed.

End TrimFacts.

(** ** The chunker *)

#[local] Arguments Z.mul : simpl never.
#[local] Arguments Z.add : simpl never.
#[local] Arguments Z.sub : simpl never.
#[local] Arguments Z.ltb : simpl never.
#[local] Arguments Z.gtb : simpl never.
#[local] Arguments Z.of_nat : simpl never.

Section ChunkerFacts.

Variable text : jsstring.
Variables chunkSize overlap : Z.

Lemma findBreak_matched (start end_ : Z) (candidates : list jsstring) :
  findBreak text chunkSize start end_ candidates =
  match matchedBreak text chunkSize start end_ candidates with
  | Some breakChar => lastIndexOf text breakChar end_ + len breakChar
  | None => -1
  end.
Proof.
  induction candidates as [|bc rest IH]; simpl; [reflexivity|].
  destruct (2 * lastIndexOf text bc end_ >? 2 * start + chunkSize);
    [reflexivity | exact IH].
Qed.

Lemma matchedBreak_some (start end_ : Z) (candidates : list jsstring)
    (breakChar : jsstring) :
  matchedBreak text chunkSize start end_ candidates = Some breakChar ->
  In breakChar candidates /\
  2 * start + chunkSize < 2 * lastIndexOf text breakChar end_.
Proof.
  induction candidates as [|bc rest IH]; simpl; [discriminate|].
  destruct (2 * lastIndexOf text bc end_ >? 2 * start + chunkSize) eqn:E.
  - intros H. injection H as <-. split; [left; reflexivity|].
    apply Z.gtb_lt in E. exact E.
  - intros H. apply IH in H. destruct H as [H1 H2]. split; [right|]; assumption.
Qed.

Lemma breakChars_len (breakChar : jsstring) :
  In breakChar breakChars -> 1 <= len breakChar <= 2.
Proof.
  unfold breakChars. simpl.
  intros [<-|[<-|[<-|[<-|[<-|[<-|[]]]]]]]; unfold len; simpl; lia.
Qed.

(** The end of a window: either the hard end [start + chunkSize], or just
    past a delimiter that starts beyond the middle of the window and not
    after the hard end. *)
Lemma chunkEnd_cases (start : Z) :
  0 <= start -> 0 <= chunkSize ->
  let w := windowAt text chunkSize start in
  (w_delim w = 0 /\ w_end w = start + chunkSize) \/
  (1 <= w_delim w <= 2 /\
   start + chunkSize < len text /\
   2 * start + chunkSize + 1 + 2 * w_delim w <= 2 * w_end w /\
   w_end w <= start + chunkSize + w_delim w /\
   w_end w <= len text).
Proof.
  intros Hs Hc. unfold windowAt, chunkEnd. cbn [w_delim w_end].
  destruct (start + chunkSize <? len text) eqn:E; [|left; split; reflexivity].
  apply Z.ltb_lt in E. rewrite findBreak_matched.
  destruct (matchedBreak text chunkSize start (start + chunkSize) breakChars)
    as [bc|] eqn:M.
  - apply matchedBreak_some in M. destruct M as [Hin Hgt].
    pose proof (breakChars_len bc Hin) as Hl.
    destruct (lastIndexOf_range text bc (start + chunkSize)) as [R|[R1 R2]];
      [lia|].
    replace (lastIndexOf text bc (start + chunkSize) + len bc >? -1)
      with true by (symmetry; apply Z.gtb_lt; lia).
    right. repeat split; lia.
  - left. simpl. split; reflexivity.
Qed.

Lemma chunkEnd_window (start : Z) :
  chunkEnd text chunkSize start = w_end (windowAt text chunkSize start).
Proof. reflexivity. Qed.

(** Forward progress of one iteration. *)
Lemma chunkEnd_progress (start : Z) :
  0 < overlap < chunkSize -> 2 * overlap <= chunkSize + 2 ->
  0 <= start ->
  start < chunkEnd text chunkSize start - overlap.
Proof.
  intros Ho H2 Hs. rewrite chunkEnd_window.
  destruct (chunkEnd_cases start Hs) as [[_ E]|[D [_ [L _]]]]; lia.
Qed.

Lemma scan_done (fuel : nat) (start : Z) (chunks : list jsstring) :
  len text <= start ->
  scan fuel text chunkSize overlap start chunks = Some chunks.
Proof.
  intros H. destruct fuel; simpl;
    (replace (start <? len text) with false
       by (symmetry; apply Z.ltb_ge; exact H)); reflexivity.
Qed.

Lemma scan_windows (fuel : nat) (start : Z) (chunks : list jsstring) :
  scan fuel text chunkSize overlap start chunks =
  option_map (fun ws => chunks ++ map (chunkOf text) ws)
    (windows fuel text chunkSize overlap start).
Proof.
  revert start chunks. induction fuel as [|fuel IH]; intros start chunks; simpl.
  - destruct (start <? len text); simpl; [reflexivity|].
    rewrite app_nil_r. reflexivity.
  - destruct (start <? len text); simpl.
    + rewrite IH.
      destruct (windows fuel text chunkSize overlap
                  (chunkEnd text chunkSize start - overlap)); simpl;
        [|reflexivity].
      rewrite <- app_assoc. reflexivity.
    + rewrite app_nil_r. reflexivity.
Qed.

Lemma windows_enough (fuel : nat) (start : Z) :
  0 < overlap < chunkSize -> 2 * overlap <= chunkSize + 2 ->
  0 <= start -> len text - start <= Z.of_nat fuel ->
  exists ws, windows fuel text chunkSize overlap start = Some ws.
Proof.
  intros Ho H2. revert start. induction fuel as [|fuel IH]; intros start Hs Hf.
  - simpl. replace (start <? len text) with false
      by (symmetry; apply Z.ltb_ge; lia). eexists; reflexivity.
  - simpl. destruct (start <? len text) eqn:E; [|eexists; reflexivity].
    pose proof (chunkEnd_progress start Ho H2 Hs) as P.
    destruct (IH (chunkEnd text chunkSize start - overlap)) as [ws Hws];
      [lia | lia |].
    rewrite Hws. eexists; reflexivity.
Qed.

Lemma windows_more_fuel (fuel fuel' : nat) (start : Z) (ws : list Window) :
  windows fuel text chunkSize overlap start = Some ws ->
  (fuel <= fuel')%nat ->
  windows fuel' text chunkSize overlap start = Some ws.
Proof.
  revert fuel' start ws.
  induction fuel as [|fuel IH]; intros fuel' start ws H Hle.
  - simpl in H. destruct (start <? len text) eqn:E; [discriminate|].
    destruct fuel'; simpl; rewrite E; exact H.
  - destruct fuel' as [|fuel']; [lia|]. simpl in *.
    destruct (start <? len text); [|exact H].
    destruct (windows fuel text chunkSize overlap
                (chunkEnd text chunkSize start - overlap)) as [ws'|] eqn:W;
      [|discriminate].
    rewrite (IH fuel' _ ws' W) by lia. exact H.
Qed.

End ChunkerFacts.

Section ChunkerTheorems.

Lemma scan_S (fuel : nat) (text : jsstring) (chunkSize overlap start : Z)
    (chunks : list jsstring) :
  scan (S fuel) text chunkSize overlap start chunks =
  if start <? len text then
    scan fuel text chunkSize overlap
      (chunkEnd text chunkSize start - overlap)
      (chunks ++ [trim (slice text start (chunkEnd text chunkSize start))])
  else Some chunks.
Proof. reflexivity. Qed.

Lemma splitIntoChunksFuel_windows (fuel : nat) (text : jsstring)
    (chunkSize overlap : Z) :
  splitIntoChunksFuel fuel text chunkSize overlap =
  option_map (fun ws => filter keepChunk (map (chunkOf text) ws))
    (windows fuel text chunkSize overlap 0).
Proof.
  unfold splitIntoChunksFuel. rewrite scan_windows.
  destruct (windows fuel text chunkSize overlap 0); reflexivity.
Qed.

(** With the default parameters the scan returns within one iteration
    per code unit, so [splitIntoChunks] is what any larger bound gives. *)
Lemma defaults_terminate (text : jsstring) :
  exists ws,
    windows (length text) text 600 100 0 = Some ws /\
    splitIntoChunks text = filter keepChunk (map (chunkOf text) ws) /\
    forall fuel, (length text <= fuel)%nat ->
      splitIntoChunksFuel fuel text 600 100 = Some (splitIntoChunks text).
Proof.
  destruct (windows_enough text 600 100 (length text) 0) as [ws Hws];
    try lia; [unfold len; lia|].
  exists ws. split; [exact Hws|].
  assert (splitIntoChunks text = filter keepChunk (map (chunkOf text) ws)) as E.
  { unfold splitIntoChunks. rewrite splitIntoChunksFuel_windows, Hws.
    reflexivity. }
  split; [exact E|]. intros fuel Hf.
  rewrite splitIntoChunksFuel_windows.
  rewrite (windows_more_fuel text 600 100 _ fuel 0 ws Hws Hf).
  rewrite E. reflexivity.
Qed.

(** C4, amended.  When [0 < overlap < chunkSize] and, besides,
    [2 * overlap <= chunkSize + 2], every iteration of the scan moves
    [start] strictly forward, the loop stops as soon as
    [start >= length text], and [splitIntoChunks] returns: one iteration
    per code unit of the text is enough, and more fuel gives the same
    chunks. *)
Theorem scan_progress_and_termination (text : jsstring)
    (chunkSize overlap : Z) :
  0 < overlap < chunkSize -> 2 * overlap <= chunkSize + 2 ->
  (forall start, 0 <= start -> start < len text ->
     start < chunkEnd text chunkSize start - overlap) /\
  (forall fuel start chunks, len text <= start ->
     scan fuel text chunkSize overlap start chunks = Some chunks) /\
  (exists chunks,
     forall fuel, (length text <= fuel)%nat ->
       splitIntoChunksFuel fuel text chunkSize overlap = Some chunks).
Proof.
  intros Ho H2. split; [|split].
  - intros start Hs _. apply chunkEnd_progress; assumption.
  - intros fuel start chunks H. apply scan_done. exact H.
  - destruct (windows_enough text chunkSize overlap (length text) 0 Ho H2)
      as [ws Hws]; [lia | unfold len; lia |].
    exists (filter keepChunk (map (chunkOf text) ws)). intros fuel Hf.
    rewrite splitIntoChunksFuel_windows.
    rewrite (windows_more_fuel text chunkSize overlap _ fuel 0 ws Hws Hf).
    reflexivity.
Qed.

Lemma scan_progress_and_termination_witness :
  (0 < 100 < 600 /\ 2 * 100 <= 600 + 2) /\
  exists chunks,
    forall fuel, (length stuckText <= fuel)%nat ->
      splitIntoChunksFuel fuel stuckText 600 100 = Some chunks.
Proof.
  split; [lia|].
  apply (scan_progress_and_termination stuckText 600 100); lia.
Defined.

Lemma stuck_forever (fuel : nat) (chunks : list jsstring) :
  scan fuel stuckText 10 7 0 chunks = None.
Proof.
  revert chunks. induction fuel as [|fuel IH]; intros chunks.
  - reflexivity.
  - rewrite scan_S.
    replace (chunkEnd stuckText 10 0 - 7) with 0 by (vm_compute; reflexivity).
    replace (0 <? len stuckText) with true by (vm_compute; reflexivity).
    apply IH.
Qed.

(** C4 as stated fails: with [chunkSize = 10] and [overlap = 7] the
    newline at index 6 ends the first window at 7, the next start is 0
    again, and no amount of fuel lets the scan return. *)
Lemma overlap_below_chunkSize_not_enough :
  0 < 7 < 10 /\
  chunkEnd stuckText 10 0 - 7 = 0 /\
  (forall fuel, splitIntoChunksFuel fuel stuckText 10 7 = None).
Proof.
  split; [lia|]. split; [vm_compute; reflexivity|].
  intros fuel. unfold splitIntoChunksFuel. rewrite stuck_forever. reflexivity.
Qed.

(** A text that ends before [chunkSize - overlap] is cut by one window. *)
Lemma one_window (fuel : nat) (text : jsstring) (chunkSize overlap : Z) :
  0 <= overlap -> 0 < len text <= chunkSize - overlap ->
  splitIntoChunksFuel (S fuel) text chunkSize overlap =
    Some (if keepChunk (trim text) then [trim text] else []).
Proof.
  intros Ho Hl. unfold splitIntoChunksFuel. rewrite scan_S.
  replace (0 <? len text) with true by (symmetry; apply Z.ltb_lt; lia).
  assert (chunkEnd text chunkSize 0 = chunkSize) as E.
  { unfold chunkEnd. rewrite Z.add_0_l.
    replace (chunkSize <? len text) with false
      by (symmetry; apply Z.ltb_ge; lia). reflexivity. }
  rewrite E. rewrite scan_done by lia.
  rewrite slice_whole by lia. reflexivity.
Qed.

(** C5, amended.  The empty string yields no passage.  A non-empty text
    of at most [chunkSize - overlap] code units yields the whole trimmed
    text as its only passage when that is longer than 20 code units, and
    nothing otherwise. *)
Theorem short_text_single_passage (fuel : nat) (text : jsstring)
    (chunkSize overlap : Z) :
  0 <= overlap -> 0 < len text <= chunkSize - overlap ->
  splitIntoChunksFuel fuel [] chunkSize overlap = Some [] /\
  splitIntoChunksFuel (S fuel) text chunkSize overlap =
    Some (if keepChunk (trim text) then [trim text] else []).
Proof.
  intros Ho Hl. split.
  - unfold splitIntoChunksFuel. destruct fuel; reflexivity.
  - apply one_window; assumption.
Qed.

Lemma short_text_single_passage_witness :
  (0 <= 100 /\ 0 < len helloText <= 600 - 100) /\
  splitIntoChunksFuel 0 [] 600 100 = Some [] /\
  splitIntoChunksFuel 1 helloText 600 100 =
    Some (if keepChunk (trim helloText) then [trim helloText] else []).
Proof.
  split; [vm_compute; repeat split; discriminate|].
  apply (short_text_single_passage 0 helloText 600 100);
    vm_compute; repeat split; discriminate.
Defined.

(** The same for the call [ingestFile] makes, with the defaults: a text
    of at most 500 code units gives one passage at most. *)
Lemma splitIntoChunks_short (text : jsstring) :
  0 < len text <= 500 ->
  splitIntoChunks text = if keepChunk (trim text) then [trim text] else [].
Proof.
  intros H. unfold splitIntoChunks.
  destruct text as [|c text]; [unfold len in H; simpl in H; lia|].
  cbn [length].
  rewrite (one_window (length text) (c :: text) 600 100) by lia.
  reflexivity.
Qed.

(** C5 as stated fails: a text of 530 code units is shorter than the
    default [chunkSize] of 600, yet after the first window the scan
    restarts at 500 and a second passage, the last 30 code units, is
    returned as well. *)
Lemma shorter_than_chunkSize_two_passages :
  len text530 = 530 /\
  trim text530 = text530 /\
  splitIntoChunks text530 = [text530; repeat 97%N 30].
Proof. vm_compute. repeat split; reflexivity. Qed.

End ChunkerTheorems.

Section ProgressBound.

Lemma skipn_repeat_app {A} (x : A) (m j : nat) (l : list A) :
  (j <= m)%nat -> skipn j (repeat x m ++ l) = repeat x (m - j) ++ l.
Proof.
  revert j. induction m as [|m IH]; intros j Hj.
  - assert (j = O) by lia. subst j. reflexivity.
  - destruct j as [|j]; [reflexivity|]. simpl. apply IH. lia.
Qed.

Lemma skipn_repeat {A} (x : A) (n j : nat) :
  skipn j (repeat x n) = repeat x (n - j).
Proof.
  revert j. induction n as [|n IH]; intros j.
  - destruct j; reflexivity.
  - destruct j as [|j]; [reflexivity|]. simpl. apply IH.
Qed.

Lemma startsWith_repeat_a (n : nat) (pat : jsstring) :
  startsWith (repeat 97%N n) (10%N :: pat) = false.
Proof. destruct n; reflexivity. Qed.

Lemma oneNewline_skipn (m n j : nat) :
  skipn j (oneNewline m n) =
  if (j <? m)%nat then repeat 97%N (m - j) ++ 10%N :: repeat 97%N n
  else if (j =? m)%nat then 10%N :: repeat 97%N n
  else repeat 97%N (n - (j - m - 1)).
Proof.
  unfold oneNewline.
  destruct (j <? m)%nat eqn:L.
  - apply Nat.ltb_lt in L. apply skipn_repeat_app. lia.
  - apply Nat.ltb_ge in L. destruct (j =? m)%nat eqn:E.
    + apply Nat.eqb_eq in E. subst j. rewrite skipn_repeat_app by lia.
      rewrite Nat.sub_diag. reflexivity.
    + apply Nat.eqb_neq in E.
      replace j with ((j - m - 1) + 1 + m)%nat at 1 by lia.
      rewrite <- skipn_skipn, <- skipn_skipn.
      rewrite skipn_repeat_app by lia. rewrite Nat.sub_diag. simpl.
      apply skipn_repeat.
Qed.

Lemma oneNewline_no_double (m n j : nat) :
  startsWith (skipn j (oneNewline m n)) [10; 10]%N = false.
Proof.
  rewrite oneNewline_skipn.
  destruct (j <? m)%nat eqn:L.
  - apply Nat.ltb_lt in L. destruct (m - j)%nat eqn:D; [lia|]. reflexivity.
  - destruct (j =? m)%nat.
    + destruct n; reflexivity.
    + apply startsWith_repeat_a.
Qed.

Lemma oneNewline_single (m n j : nat) :
  startsWith (skipn j (oneNewline m n)) [10]%N = (j =? m)%nat.
Proof.
  rewrite oneNewline_skipn.
  destruct (j <? m)%nat eqn:L.
  - apply Nat.ltb_lt in L. destruct (m - j)%nat eqn:D; [lia|].
    replace (j =? m)%nat with false by (symmetry; apply Nat.eqb_neq; lia).
    reflexivity.
  - destruct (j =? m)%nat; [reflexivity | apply startsWith_repeat_a].
Qed.

Lemma oneNewline_len (m n : nat) :
  len (oneNewline m n) = Z.of_nat m + 1 + Z.of_nat n.
Proof.
  unfold len, oneNewline. rewrite length_app. simpl.
  rewrite !repeat_length. lia.
Qed.

(** Beyond [2 * overlap <= chunkSize + 2] forward progress is lost: with
    a newline just past the middle of the first window the second window
    starts at 0 or before. *)
Lemma progress_bound_tight (chunkSize overlap : Z) :
  0 < overlap < chunkSize -> chunkSize + 2 < 2 * overlap ->
  exists text, chunkEnd text chunkSize 0 - overlap <= 0.
Proof.
  intros Ho H2.
  set (m := Z.to_nat (chunkSize / 2 + 1)). set (n := Z.to_nat chunkSize).
  pose proof (Z.div_mod chunkSize 2 ltac:(lia)) as DM.
  pose proof (Z.mod_pos_bound chunkSize 2 ltac:(lia)) as MB.
  assert (Z.of_nat m = chunkSize / 2 + 1) as Hm by (subst m; lia).
  assert (Z.of_nat n = chunkSize) as Hn by (subst n; lia).
  clearbody m n.
  exists (oneNewline m n).
  pose proof (oneNewline_len m n) as L.
  assert (len [10%N] = 1) as L1 by reflexivity.
  assert (lastIndexOf (oneNewline m n) [10; 10]%N (0 + chunkSize) = -1) as D.
  { unfold lastIndexOf.
    destruct (len (oneNewline m n) <? len [10; 10]%N); [reflexivity|].
    apply lastIndexOfFrom_none. intros j _. apply oneNewline_no_double. }
  assert (lastIndexOf (oneNewline m n) [10]%N (0 + chunkSize) = Z.of_nat m) as S.
  { unfold lastIndexOf. rewrite L1.
    replace (len (oneNewline m n) <? 1) with false
      by (symmetry; apply Z.ltb_ge; lia).
    apply lastIndexOfFrom_at.
    - lia.
    - rewrite oneNewline_single. apply Nat.eqb_refl.
    - intros j Hj. rewrite oneNewline_single. apply Nat.eqb_neq. lia. }
  unfold chunkEnd.
  replace (0 + chunkSize <? len (oneNewline m n)) with true
    by (symmetry; apply Z.ltb_lt; lia).
  unfold breakChars. cbn [findBreak]. rewrite D.
  replace (2 * -1 >? 2 * 0 + chunkSize) with false
    by (symmetry; rewrite Z.gtb_ltb; apply Z.ltb_ge; lia).
  rewrite S.
  replace (2 * Z.of_nat m >? 2 * 0 + chunkSize) with true
    by (symmetry; apply Z.gtb_lt; lia).
  rewrite L1.
  replace (Z.of_nat m + 1 >? -1) with true
    by (symmetry; apply Z.gtb_lt; lia).
  lia.
Qed.

End ProgressBound.

(** ** Lists *)

Section ListFacts.

Lemma ForallOrdPairs_filter {A} (R : A -> A -> Prop) (p : A -> bool)
    (l : list A) :
  ForallOrdPairs R l -> ForallOrdPairs R (filter p l).
Proof.
  induction 1 as [|a l Ha Hl IH]; simpl; [constructor|].
  destruct (p a); [|exact IH].
  constructor; [|exact IH].
  apply Forall_forall. intros x Hx. apply filter_In in Hx.
  rewrite Forall_forall in Ha. apply Ha. tauto.
Qed.

Lemma ForallOrdPairs_consecutive {A} (R : A -> A -> Prop) (l : list A)
    (i : nat) (a b : A) :
  ForallOrdPairs R l ->
  nth_error l i = Some a -> nth_error l (S i) = Some b -> R a b.
Proof.
  intros H. revert i. induction H as [|x l Hx Hl IH]; intros i Ha Hb.
  - destruct i; discriminate.
  - destruct i as [|i].
    + simpl in Ha. injection Ha as <-. simpl in Hb.
      rewrite Forall_forall in Hx. apply Hx.
      apply (nth_error_In l O). exact Hb.
    + simpl in Ha. change (nth_error l (S i) = Some b) in Hb.
      eapply IH; eassumption.
Qed.

Lemma filter_map_swap {A B} (f : A -> B) (p : B -> bool) (l : list A) :
  filter p (map f l) = map f (filter (fun x => p (f x)) l).
Proof.
  induction l as [|x l IH]; simpl; [reflexivity|].
  destruct (p (f x)); simpl; rewrite IH; reflexivity.
Qed.

End ListFacts.

(** ** Where the chunks lie in the text *)

Section SpanFacts.

Variable text : jsstring.
Variables chunkSize overlap : Z.
Hypothesis overlap_ok : 0 < overlap < chunkSize.
Hypothesis overlap_half : 2 * overlap <= chunkSize + 2.

Lemma firstn_skipn_slice (a b : Z) :
  0 <= a <= b -> b <= len text ->
  slice text a b = firstn (Z.to_nat (b - a)) (skipn (Z.to_nat a) text).
Proof.
  intros Ha Hb. unfold slice.
  rewrite !clampIndex_inside by lia. reflexivity.
Qed.

(** The chunk of a window that starts inside the text is the slice of the
    text at its span, which lies within the window. *)
Lemma window_span (start : Z) :
  0 <= start < len text ->
  let w := windowAt text chunkSize start in
  let span := spanOf text w in
  chunkOf text w = slice text (fst span) (snd span) /\
  start <= fst span <= snd span /\
  snd span <= len text /\
  snd span <= w_end w /\
  len (chunkOf text w) = snd span - fst span /\
  len (chunkOf text w) <= chunkSize + w_delim w /\
  0 <= w_delim w <= 2.
Proof.
  intros Hs w span.
  assert (0 <= chunkSize) as Hc by lia.
  pose proof (chunkEnd_cases text chunkSize start (proj1 Hs) Hc) as C.
  fold w in C. cbv zeta in C.
  assert (start < w_end w <= start + chunkSize + w_delim w /\
          0 <= w_delim w <= 2) as [He Hd]
    by (destruct C as [[D E]|[D [_ [L [U _]]]]]; lia).
  assert (w_start w = start) as Hst by reflexivity.
  set (raw := slice text (w_start w) (w_end w)).
  set (from := clampIndex (len text) (w_start w)).
  set (to := clampIndex (len text) (w_end w)).
  assert (from = start) as Hfrom
    by (subst from; rewrite Hst; apply clampIndex_inside; lia).
  assert (start < to <= len text /\ to <= w_end w) as Hto.
  { subst to. unfold clampIndex.
    destruct (w_end w <? 0) eqn:E;
      [apply Z.ltb_lt in E | apply Z.ltb_ge in E]; lia. }
  assert (raw = firstn (Z.to_nat (to - from)) (skipn (Z.to_nat from) text))
    as Hraw by reflexivity.
  assert (len raw = to - from) as Lraw
    by (subst raw; rewrite len_slice; fold from to; lia).
  pose proof (trimStart_length raw) as L1.
  pose proof (trimEnd_length (trimStart raw)) as L2.
  fold (trim raw) in L2.
  set (lead := (length raw - length (trimStart raw))%nat).
  assert (fst span = from + Z.of_nat lead) as Ha.
  { subst span. unfold spanOf. cbn [fst]. fold raw from.
    unfold len. subst lead. lia. }
  assert (snd span = from + Z.of_nat lead + len (trim raw)) as Hb.
  { subst span. unfold spanOf. cbn [snd]. fold raw from.
    unfold len. subst lead. lia. }
  assert (chunkOf text w = trim raw) as Hchunk by reflexivity.
  assert (Z.of_nat lead + len (trim raw) <= len raw) as Hin
    by (unfold len in *; subst lead; lia).
  assert (0 <= Z.of_nat lead) as Hlead by lia.
  pose proof (len_nonneg (trim raw)) as Ht.
  split; [|repeat split; try lia].
  - rewrite firstn_skipn_slice by lia.
    rewrite Hchunk, (trim_inside raw). fold lead.
    rewrite Hraw at 2. rewrite skipn_firstn_comm, skipn_skipn.
    rewrite firstn_firstn. f_equal.
    + unfold len in *. lia.
    + f_equal. lia.
  - rewrite Hchunk. lia.
  - rewrite Hchunk. lia.
Qed.

Lemma windows_facts (fuel : nat) (start : Z) (ws : list Window) :
  0 <= start ->
  windows fuel text chunkSize overlap start = Some ws ->
  Forall (inText text chunkSize start) ws /\ ForallOrdPairs (follows overlap) ws.
Proof.
  revert start ws. induction fuel as [|fuel IH]; intros start ws Hs H.
  - simpl in H. destruct (start <? len text); [discriminate|].
    injection H as <-. split; constructor.
  - simpl in H. destruct (start <? len text) eqn:E.
    + apply Z.ltb_lt in E.
      destruct (windows fuel text chunkSize overlap
                  (chunkEnd text chunkSize start - overlap)) as [ws'|] eqn:W;
        [|discriminate].
      injection H as <-.
      pose proof (chunkEnd_progress text chunkSize overlap start
                    overlap_ok overlap_half Hs) as P.
      destruct (IH (chunkEnd text chunkSize start - overlap) ws'
                  ltac:(lia) W) as [F O].
      split.
      * constructor.
        -- split; [cbn [windowAt w_start]; lia | reflexivity].
        -- eapply Forall_impl; [|exact F].
           intros w [Hw1 Hw2]. split; [lia | exact Hw2].
      * constructor; [|exact O].
        eapply Forall_impl; [|exact F].
        intros w [Hw1 _]. unfold follows. cbn [windowAt w_end]. lia.
    + injection H as <-. split; constructor.
Qed.

End SpanFacts.

Section ChunkBounds.

(** C6, amended.  With [0 < overlap < chunkSize] and
    [2 * overlap <= chunkSize + 2] (the defaults 600 and 100 among them)
    [splitIntoChunks] returns, and every chunk it returns, the last one
    too, is at most [chunkSize] plus the length of the matched delimiter
    (at most 2) long and more than 20 code units long after trimming.
    Of two consecutive returned chunks the second starts no earlier than
    [overlap] positions before the end of the first, so that they have
    at most [overlap] positions of the text in common; they may have
    none and lie apart. *)
Theorem chunks_bounded (text : jsstring) (chunkSize overlap : Z) :
  0 < overlap < chunkSize -> 2 * overlap <= chunkSize + 2 ->
  exists ws,
    windows (length text) text chunkSize overlap 0 = Some ws /\
    splitIntoChunksFuel (length text) text chunkSize overlap =
      Some (map (chunkOf text) (keptWindows text ws)) /\
    Forall (chunkBound text chunkSize) (keptWindows text ws) /\
    (forall i w1 w2,
        nth_error (keptWindows text ws) i = Some w1 ->
        nth_error (keptWindows text ws) (S i) = Some w2 ->
        snd (spanOf text w1) - fst (spanOf text w2) <= overlap /\
        shared (spanOf text w1) (spanOf text w2) <= overlap).
Proof.
  intros Ho H2.
  destruct (windows_enough text chunkSize overlap (length text) 0 Ho H2)
    as [ws Hws]; [lia | unfold len; lia |].
  exists ws. split; [exact Hws|].
  destruct (windows_facts text chunkSize overlap Ho H2 _ 0 ws
              ltac:(lia) Hws) as [F O].
  split; [|split].
  - rewrite splitIntoChunksFuel_windows, Hws. simpl.
    unfold keptWindows. rewrite filter_map_swap. reflexivity.
  - apply Forall_forall. intros w Hw. unfold keptWindows in Hw.
    apply filter_In in Hw. destruct Hw as [Hin Hk].
    rewrite Forall_forall in F. destruct (F w Hin) as [Hr Hw].
    pose proof (window_span text chunkSize overlap Ho (w_start w)
                  ltac:(lia)) as S.
    rewrite <- Hw in S. cbv zeta in S.
    destruct S as [S1 [S2 [S3 [S4 [S5 [S6 S7]]]]]].
    unfold chunkBound. repeat split; try assumption; try lia.
    unfold chunkOf at 1. rewrite trim_idem. fold (chunkOf text w).
    unfold keepChunk in Hk. apply Z.gtb_lt in Hk. exact Hk.
  - intros i w1 w2 H1 H2'.
    pose proof (ForallOrdPairs_filter (follows overlap)
                  (fun w => keepChunk (chunkOf text w)) ws O) as O'.
    fold (keptWindows text ws) in O'.
    pose proof (ForallOrdPairs_consecutive _ _ i w1 w2 O' H1 H2') as Fl.
    apply nth_error_In in H1, H2'. unfold keptWindows in H1, H2'.
    apply filter_In in H1, H2'. destruct H1 as [H1 _], H2' as [H2' _].
    rewrite Forall_forall in F.
    destruct (F w1 H1) as [R1 E1]. destruct (F w2 H2') as [R2 E2].
    pose proof (window_span text chunkSize overlap Ho (w_start w1)
                  ltac:(lia)) as S1.
    pose proof (window_span text chunkSize overlap Ho (w_start w2)
                  ltac:(lia)) as S2.
    rewrite <- E1 in S1. rewrite <- E2 in S2. cbv zeta in S1, S2.
    unfold follows in Fl. unfold shared. lia.
Qed.

Lemma chunks_bounded_witness :
  (0 < 10 < 40 /\ 2 * 10 <= 40 + 2) /\
  exists ws,
    windows (length threeSentences) threeSentences 40 10 0 = Some ws /\
    splitIntoChunksFuel (length threeSentences) threeSentences 40 10 =
      Some (map (chunkOf threeSentences) (keptWindows threeSentences ws)) /\
    Forall (chunkBound threeSentences 40) (keptWindows threeSentences ws) /\
    (forall i w1 w2,
        nth_error (keptWindows threeSentences ws) i = Some w1 ->
        nth_error (keptWindows threeSentences ws) (S i) = Some w2 ->
        snd (spanOf threeSentences w1) - fst (spanOf threeSentences w2)
          <= 10 /\
        shared (spanOf threeSentences w1) (spanOf threeSentences w2) <= 10).
Proof.
  split; [lia|]. apply (chunks_bounded threeSentences 40 10); lia.
Defined.

(** C6 as stated fails: the overlap of two consecutive returned chunks
    can be negative.  With the parameters 40 and 10 the windows between
    the letters a and the letters b of [gapText] give chunks of 10 code
    units, which are discarded, and the two chunks returned lie at
    positions 0 to 40 and 90 to 130 of the text. *)
Lemma returned_chunks_lie_apart :
  (0 < 10 < 40 /\ 2 * 10 <= 40 + 2) /\
  splitIntoChunksFuel (length gapText) gapText 40 10 =
    Some [repeat 97%N 40; repeat 98%N 40] /\
  option_map (fun ws => map (spanOf gapText) (keptWindows gapText ws))
    (windows (length gapText) gapText 40 10 0) =
    Some [(0, 40); (90, 130)] /\
  40 - 90 < 0.
Proof.
  split; [lia|]. split; [vm_compute; reflexivity|].
  split; [vm_compute; reflexivity | lia].
Qed.

End ChunkBounds.

(** ** Ingestion *)

#[local] Open Scope js_scope.

Section IngestFacts.

Variable env : Env.
Variable file : FileProcessor.ProcessedFile.

Lemma rowsFrom_source (i : nat) (textChunks : list jsstring) :
  Forall (fun d => source (snd d) = FileProcessor.path file)
    (rowsFrom file i textChunks).
Proof.
  revert i. induction textChunks as [|c rest IH]; intros i; simpl;
    constructor; [reflexivity | apply IH].
Qed.

Lemma rowsFrom_length (i : nat) (textChunks : list jsstring) :
  length (rowsFrom file i textChunks) = length textChunks.
Proof.
  revert i. induction textChunks as [|c rest IH]; intros i; simpl;
    [reflexivity | rewrite IH; reflexivity].
Qed.

(** One iteration of the loop of [ingestFile]. *)
Lemma ingestChunks_cons (i : nat) (chunk : jsstring) (rest : list jsstring)
    (w : World) :
  ingestChunks env file i (chunk :: rest) w =
  match embedReply env (now w) chunk with
  | None => (Throw ProviderError, logCall (EmbedContent chunk) w)
  | Some values =>
      let w1 := logCall (EmbedContent chunk) w in
      if queryFails env (now w1)
      then (Throw StoreError, logCall (insertOf file i chunk values) w1)
      else ingestChunks env file (S i) rest
             {| rows := rows w ++
                        [{| id := nextId w; chunk_id := chunkIdOf file i;
                            content := chunk; embedding := values;
                            metadata := metadataOf file i |}];
                nextId := nextId w + 1;
                calls := calls w1 ++ [insertOf file i chunk values] |}
  end.
Proof.
  cbn [ingestChunks]. unfold bind, embedContent, insertChunk.
  destruct (embedReply env (now w) chunk) as [values|]; [|reflexivity].
  cbv zeta.
  destruct (queryFails env (now (logCall (EmbedContent chunk) w)));
    reflexivity.
Qed.

(** The loop of [ingestFile] appends rows, in order, for a prefix of the
    chunks: all of them when it completes, fewer when it throws. *)
Lemma ingestChunks_rows (textChunks : list jsstring) :
  forall (i : nat) (w : World),
  exists (fresh : list DocumentChunk) (k : nat),
    rows (snd (ingestChunks env file i textChunks w)) = rows w ++ fresh /\
    map describe fresh = firstn k (rowsFrom file i textChunks) /\
    match fst (ingestChunks env file i textChunks w) with
    | Ok _ => k = length textChunks
    | Throw _ => (k < length textChunks)%nat
    end.
Proof.
  induction textChunks as [|chunk rest IH]; intros i w.
  - exists [], O. simpl. rewrite app_nil_r. repeat split; reflexivity.
  - rewrite ingestChunks_cons.
    destruct (embedReply env (now w) chunk) as [values|].
    + cbv zeta.
      destruct (queryFails env (now (logCall (EmbedContent chunk) w))).
      * exists [], O. cbn [fst snd]. split; [|split].
        -- simpl. rewrite app_nil_r. reflexivity.
        -- reflexivity.
        -- simpl. lia.
      * match goal with
        | |- context [ingestChunks env file (S i) rest ?w1] =>
            destruct (IH (S i) w1) as [fresh [k [R [D O]]]];
            set (w' := w1) in *
        end.
        exists ({| id := nextId w; chunk_id := chunkIdOf file i;
                   content := chunk; embedding := values;
                   metadata := metadataOf file i |} :: fresh), (S k).
        split; [|split].
        -- rewrite R. subst w'. cbn [rows]. rewrite <- app_assoc. reflexivity.
        -- cbn [map firstn rowsFrom]. rewrite D. reflexivity.
        -- destruct (fst (ingestChunks env file (S i) rest w')); simpl; lia.
    + exists [], O. cbn [fst snd]. split; [|split].
      * simpl. rewrite app_nil_r. reflexivity.
      * reflexivity.
      * simpl. lia.
Qed.

Lemma tryCatch_rethrow {A} (m : M A) (w : World) :
  tryCatch m (fun error => throw error) w = m w.
Proof.
  unfold tryCatch, throw. destruct (m w) as [[a|e] w']; reflexivity.
Qed.

(** [ingestFile], step by step. *)
Lemma ingestFile_unfold (w : World) :
  ingestFile env file w =
  if queryFails env (now w)
  then (Throw StoreError,
        logCall (Query (DeleteWhereSource (FileProcessor.path file))) w)
  else ingestChunks env file 0
         (splitIntoChunks (FileProcessor.content file))
         {| rows := otherSources (FileProcessor.path file) (rows w);
            nextId := nextId w;
            calls := calls w ++
                     [Query (DeleteWhereSource (FileProcessor.path file))] |}.
Proof.
  unfold ingestFile. rewrite tryCatch_rethrow.
  unfold bind, deleteWhereSource.
  destruct (queryFails env (now w)); reflexivity.
Qed.

(** [ingestFile] either fails at its [DELETE] and leaves the table as it
    was, or removes the rows of the source and appends a prefix of the
    new generation. *)
Lemma ingestFile_rows (w : World) :
  (queryFails env (now w) = true /\
   fst (ingestFile env file w) = Throw StoreError /\
   rows (snd (ingestFile env file w)) = rows w) \/
  (queryFails env (now w) = false /\
   exists (fresh : list DocumentChunk) (k : nat),
     rows (snd (ingestFile env file w)) =
       otherSources (FileProcessor.path file) (rows w) ++ fresh /\
     map describe fresh = firstn k (generationOf file) /\
     match fst (ingestFile env file w) with
     | Ok _ => k = length (splitIntoChunks (FileProcessor.content file))
     | Throw _ =>
         (k < length (splitIntoChunks (FileProcessor.content file)))%nat
     end).
Proof.
  rewrite ingestFile_unfold.
  destruct (queryFails env (now w)) eqn:Q.
  - left. repeat split; reflexivity.
  - right. split; [reflexivity|].
    match goal with
    | |- context [ingestChunks env file 0 ?cs ?w1] =>
        destruct (ingestChunks_rows cs 0 w1) as [fresh [k [R [D O]]]]
    end.
    exists fresh, k. split; [|split]; [exact R | exact D | exact O].
Qed.

Lemma describe_source (fresh : list DocumentChunk) (k i : nat)
    (textChunks : list jsstring) :
  map describe fresh = firstn k (rowsFrom file i textChunks) ->
  Forall (fun r => source (metadata r) = FileProcessor.path file) fresh.
Proof.
  intros H.
  assert (Forall (fun d => source (snd d) = FileProcessor.path file)
            (map describe fresh)) as F.
  { rewrite H. apply Forall_forall. intros d Hd.
    pose proof (rowsFrom_source i textChunks) as S.
    rewrite Forall_forall in S. apply S.
    rewrite <- (firstn_skipn k (rowsFrom file i textChunks)).
    apply in_or_app. left. exact Hd. }
  rewrite Forall_map in F. exact F.
Qed.

Lemma filter_all {A} (p : A -> bool) (l : list A) :
  Forall (fun x => p x = true) l -> filter p l = l.
Proof.
  induction 1 as [|x l Hx Hl IH]; simpl; [reflexivity|].
  rewrite Hx, IH. reflexivity.
Qed.

Lemma filter_none {A} (p : A -> bool) (l : list A) :
  Forall (fun x => p x = false) l -> filter p l = [].
Proof.
  induction 1 as [|x l Hx Hl IH]; simpl; [reflexivity|].
  rewrite Hx, IH. reflexivity.
Qed.

Lemma rowsOfSource_others (src : jsstring) (table : list DocumentChunk) :
  rowsOfSource src (otherSources src table) = [].
Proof.
  unfold rowsOfSource, otherSources. apply filter_none.
  apply Forall_forall. intros r Hr. apply filter_In in Hr.
  destruct Hr as [_ Hr]. destruct (sourceIs src r); [discriminate|reflexivity].
Qed.

Lemma rowsOfSource_others_neq (src src' : jsstring)
    (table : list DocumentChunk) :
  src <> src' ->
  rowsOfSource src (otherSources src' table) = rowsOfSource src table.
Proof.
  intros N. unfold rowsOfSource, otherSources.
  induction table as [|r table IH]; simpl; [reflexivity|].
  destruct (sourceIs src' r) eqn:E1; simpl.
  - destruct (sourceIs src r) eqn:E2; [|exact IH].
    unfold sourceIs in E1, E2.
    apply eqb_str_true in E1. apply eqb_str_true in E2. congruence.
  - destruct (sourceIs src r); rewrite IH; reflexivity.
Qed.

End IngestFacts.

Section ReplaceFacts.

Lemma otherSources_idem (src : jsstring) (table : list DocumentChunk) :
  otherSources src (otherSources src table) = otherSources src table.
Proof.
  unfold otherSources. apply filter_all. apply Forall_forall.
  intros r Hr. apply filter_In in Hr. tauto.
Qed.

(** The table after the rows of [src] were removed and rows of [src]
    appended. *)
Lemma replaced_rows (src : jsstring) (table fresh : list DocumentChunk) :
  Forall (fun r => source (metadata r) = src) fresh ->
  rowsOfSource src (otherSources src table ++ fresh) = fresh /\
  otherSources src (otherSources src table ++ fresh) = otherSources src table /\
  (forall src', src' <> src ->
     rowsOfSource src' (otherSources src table ++ fresh) =
     rowsOfSource src' table).
Proof.
  intros F.
  assert (Forall (fun r => sourceIs src r = true) fresh) as F1.
  { eapply Forall_impl; [|exact F]. intros r Hr. unfold sourceIs.
    apply eqb_str_true. exact Hr. }
  split; [|split].
  - unfold rowsOfSource. rewrite filter_app.
    fold (rowsOfSource src (otherSources src table)).
    rewrite rowsOfSource_others. simpl. apply filter_all. exact F1.
  - unfold otherSources at 1. rewrite filter_app.
    fold (otherSources src (otherSources src table)).
    rewrite otherSources_idem.
    rewrite (filter_none _ fresh); [apply app_nil_r|].
    eapply Forall_impl; [|exact F1]. intros r Hr. cbv beta. rewrite Hr.
    reflexivity.
  - intros src' N. unfold rowsOfSource. rewrite filter_app.
    fold (rowsOfSource src' (otherSources src table)).
    rewrite rowsOfSource_others_neq by exact N.
    rewrite (filter_none _ fresh); [apply app_nil_r|].
    eapply Forall_impl; [|exact F]. intros r Hr. unfold sourceIs.
    apply eqb_str_false. congruence.
Qed.

End ReplaceFacts.

Section IngestTheorems.

(** C2, amended.  A failure inside [ingestFile] reaches the caller as a
    thrown error and leaves the rows of every other source as they were.
    The rows of the source itself are kept only when the initial [DELETE]
    is what failed; otherwise they are all gone and the table holds, for
    this source, the chunks inserted before the failure: a strict prefix
    of the new chunk set. *)
Theorem failed_ingest_leaves_prefix (env : Env)
    (file : FileProcessor.ProcessedFile) (w : World) (e : Error) :
  fst (ingestFile env file w) = Throw e ->
  let src := FileProcessor.path file in
  let w' := snd (ingestFile env file w) in
  otherSources src (rows w') = otherSources src (rows w) /\
  ((queryFails env (now w) = true /\ rows w' = rows w) \/
   (queryFails env (now w) = false /\
    exists k,
      (k < length (splitIntoChunks (FileProcessor.content file)))%nat /\
      map describe (rowsOfSource src (rows w')) =
        firstn k (generationOf file))).
Proof.
  intros H src w'.
  destruct (ingestFile_rows env file w) as [[Q [_ R]]|[Q [fresh [k [R [D O]]]]]].
  - subst w'. rewrite R. split; [reflexivity|]. left. split; [exact Q|reflexivity].
  - subst w' src. rewrite R. rewrite H in O.
    pose proof (describe_source file fresh k 0 _ D) as F.
    destruct (replaced_rows (FileProcessor.path file) (rows w) fresh F)
      as [R1 [R2 _]].
    split; [exact R2|]. right. split; [exact Q|].
    exists k. split; [exact O|]. rewrite R1. exact D.
Qed.

Lemma failed_ingest_leaves_prefix_witness :
  fst (ingestFile (embedFailsAt 3) fileA oldGeneration) = Throw ProviderError /\
  let src := FileProcessor.path fileA in
  let w' := snd (ingestFile (embedFailsAt 3) fileA oldGeneration) in
  otherSources src (rows w') = otherSources src (rows oldGeneration) /\
  ((queryFails (embedFailsAt 3) (now oldGeneration) = true /\
    rows w' = rows oldGeneration) \/
   (queryFails (embedFailsAt 3) (now oldGeneration) = false /\
    exists k,
      (k < length (splitIntoChunks (FileProcessor.content fileA)))%nat /\
      map describe (rowsOfSource src (rows w')) =
        firstn k (generationOf fileA))).
Proof.
  split; [vm_compute; reflexivity|].
  apply (failed_ingest_leaves_prefix (embedFailsAt 3) fileA oldGeneration
           ProviderError).
  vm_compute. reflexivity.
Defined.

(** C2 as stated fails: [a.md] is in the table from an earlier run; its
    new text makes two chunks and the embedding of the second one fails.
    The error is thrown, the earlier row is gone and only the first of
    the two new chunks is in the table. *)
Lemma failed_ingest_partial_commit :
  length (splitIntoChunks (FileProcessor.content fileA)) = 2%nat /\
  map chunk_id (rows oldGeneration) = [lit "a.md_chunk_0"] /\
  map content (rows oldGeneration) =
    [lit "the text a.md had when it was ingested before"] /\
  fst (ingestFile (embedFailsAt 3) fileA oldGeneration) = Throw ProviderError /\
  map chunk_id (rows (snd (ingestFile (embedFailsAt 3) fileA oldGeneration)))
    = [lit "a.md_chunk_0"] /\
  map content (rows (snd (ingestFile (embedFailsAt 3) fileA oldGeneration)))
    = [repeat 97%N 600].
Proof. vm_compute. repeat split; reflexivity. Qed.

End IngestTheorems.

Section Generations.

Lemma oneGeneration_empty : oneGeneration [].
Proof.
  intros src.
  exists {| FileProcessor.path := src; FileProcessor.content := [];
            FileProcessor.type := []; FileProcessor.size := 0;
            FileProcessor.lastModified := 0 |}, O.
  split; reflexivity.
Qed.

Lemma ingestFile_oneGeneration (env : Env)
    (file : FileProcessor.ProcessedFile) (w : World) :
  oneGeneration (rows w) ->
  oneGeneration (rows (snd (ingestFile env file w))).
Proof.
  intros G.
  destruct (ingestFile_rows env file w) as [[_ [_ R]]|[_ [fresh [k [R [D _]]]]]];
    rewrite R; [exact G|].
  pose proof (describe_source file fresh k 0 _ D) as F.
  destruct (replaced_rows (FileProcessor.path file) (rows w) fresh F)
    as [R1 [_ R3]].
  intros src.
  destruct (list_eq_dec N.eq_dec src (FileProcessor.path file)) as [->|N].
  - exists file, k. split; [reflexivity|]. rewrite R1. exact D.
  - rewrite (R3 src N). apply G.
Qed.

Lemma callIngestFile_oneGeneration (env : Env)
    (files : list FileProcessor.ProcessedFile) :
  forall w, oneGeneration (rows w) ->
            oneGeneration (rows (callIngestFile env files w)).
Proof.
  induction files as [|file rest IH]; intros w G; simpl; [exact G|].
  apply IH. apply ingestFile_oneGeneration. exact G.
Qed.

Lemma NoDup_firstn {A} (k : nat) (l : list A) :
  NoDup l -> NoDup (firstn k l).
Proof.
  intros H. revert k. induction H as [|x l Hx Hl IH]; intros k.
  - rewrite firstn_nil. constructor.
  - destruct k as [|k]; simpl; constructor; [|apply IH].
    intros Hin. apply Hx.
    rewrite <- (firstn_skipn k l). apply in_or_app. left. exact Hin.
Qed.

Lemma rowsFrom_indices (file : FileProcessor.ProcessedFile) (i : nat)
    (textChunks : list jsstring) :
  map (fun d => chunkIndex (snd d)) (rowsFrom file i textChunks) =
  seq i (length textChunks).
Proof.
  revert i. induction textChunks as [|c rest IH]; intros i; simpl;
    [reflexivity | rewrite IH; reflexivity].
Qed.

(** In a table of one generation per source no chunk index occurs twice
    for a source. *)
Lemma oneGeneration_NoDup (table : list DocumentChunk) :
  oneGeneration table ->
  forall src,
    NoDup (map (fun r => chunkIndex (metadata r)) (rowsOfSource src table)).
Proof.
  intros G src. destruct (G src) as [file [k [_ E]]].
  replace (map (fun r => chunkIndex (metadata r)) (rowsOfSource src table))
    with (map (fun d => chunkIndex (snd d))
            (map describe (rowsOfSource src table)))
    by (rewrite map_map; reflexivity).
  rewrite E, <- firstn_map. unfold generationOf. rewrite rowsFrom_indices.
  apply NoDup_firstn, seq_NoDup.
Qed.

Lemma completed_ingest (env : Env) (file : FileProcessor.ProcessedFile)
    (w : World) :
  fst (ingestFile env file w) = Ok tt ->
  map describe
    (rowsOfSource (FileProcessor.path file) (rows (snd (ingestFile env file w))))
  = generationOf file.
Proof.
  intros H.
  destruct (ingestFile_rows env file w) as [[_ [T _]]|[_ [fresh [k [R [D O]]]]]];
    [rewrite H in T; discriminate|].
  rewrite H in O. rewrite R.
  pose proof (describe_source file fresh k 0 _ D) as F.
  destruct (replaced_rows (FileProcessor.path file) (rows w) fresh F)
    as [R1 _].
  rewrite R1, D. subst k. unfold generationOf.
  rewrite <- (rowsFrom_length file 0). apply firstn_all.
Qed.

(** C3.  When [ingestFile] completes twice in a row for the same
    unchanged file, the source has after the second run the rows it had
    after the first: the chunks of the file, each once, and so the same
    number of records.  And from a table in which the rows of every
    source are of one generation, the empty table among them, any
    sequence of [ingestFile] calls, failed ones included, leads to such a
    table again, in which no source has two rows of the same chunk
    index. *)
Theorem reingest_idempotent :
  (forall (env1 env2 : Env) (file : FileProcessor.ProcessedFile) (w : World),
     fst (ingestFile env1 file w) = Ok tt ->
     fst (ingestFile env2 file (snd (ingestFile env1 file w))) = Ok tt ->
     let src := FileProcessor.path file in
     let once := rows (snd (ingestFile env1 file w)) in
     let twice :=
       rows (snd (ingestFile env2 file (snd (ingestFile env1 file w)))) in
     map describe (rowsOfSource src twice) = generationOf file /\
     map describe (rowsOfSource src once) = generationOf file /\
     length (rowsOfSource src twice) = length (rowsOfSource src once)) /\
  (forall (env : Env) (files : list FileProcessor.ProcessedFile) (w : World),
     oneGeneration (rows w) ->
     oneGeneration (rows (callIngestFile env files w)) /\
     forall src,
       NoDup (map (fun r => chunkIndex (metadata r))
                (rowsOfSource src (rows (callIngestFile env files w))))).
Proof.
  split.
  - intros env1 env2 file w H1 H2 src once twice.
    pose proof (completed_ingest env1 file w H1) as E1.
    pose proof (completed_ingest env2 file _ H2) as E2.
    fold src once in E1. fold src twice in E2.
    split; [exact E2|]. split; [exact E1|].
    rewrite <- (length_map describe (rowsOfSource src twice)).
    rewrite <- (length_map describe (rowsOfSource src once)).
    rewrite E1, E2. reflexivity.
  - intros env files w G.
    pose proof (callIngestFile_oneGeneration env files w G) as G'.
    split; [exact G' | apply oneGeneration_NoDup; exact G'].
Qed.

Lemma reingest_idempotent_witness :
  (fst (ingestFile allReply fileA oldGeneration) = Ok tt /\
   fst (ingestFile allReply fileA (snd (ingestFile allReply fileA oldGeneration)))
     = Ok tt /\
   length (rowsOfSource (lit "a.md")
             (rows (snd (ingestFile allReply fileA
                           (snd (ingestFile allReply fileA oldGeneration))))))
   = length (rowsOfSource (lit "a.md")
               (rows (snd (ingestFile allReply fileA oldGeneration))))) /\
  (oneGeneration (rows emptyWorld) /\
   oneGeneration
     (rows (callIngestFile (embedFailsAt 3) [fileA; fileB; fileA] emptyWorld))).
Proof.
  split.
  - split; [vm_compute; reflexivity|]. split; [vm_compute; reflexivity|].
    apply (proj1 reingest_idempotent allReply allReply fileA oldGeneration);
      vm_compute; reflexivity.
  - split; [apply oneGeneration_empty|].
    apply (proj2 reingest_idempotent (embedFailsAt 3) [fileA; fileB; fileA]
             emptyWorld).
    apply oneGeneration_empty.
Defined.

End Generations.

(** ** The ingest command *)

Section BatchTheorems.

Lemma ingestFiles_app (env : Env)
    (before after : list FileProcessor.ProcessedFile) (w : World) :
  ingestFiles env (before ++ after) w =
  match ingestFiles env before w with
  | (Ok _, w1) => ingestFiles env after w1
  | (Throw e, w1) => (Throw e, w1)
  end.
Proof.
  revert w. induction before as [|file rest IH]; intros w; simpl.
  - reflexivity.
  - unfold bind. destruct (ingestFile env file w) as [[[]|e] w1];
      [apply IH | reflexivity].
Qed.

(** C8, amended.  When [ingestFile] throws for a document of the batch,
    the loop of the ingest command stops there: the command reports
    "Ingestion failed", the world is the one the failed call left, with
    the documents before it ingested, and no call is made for any
    document after it. *)
Theorem failed_document_halts_batch (env : Env)
    (before after : list FileProcessor.ProcessedFile)
    (file : FileProcessor.ProcessedFile) (w w1 w2 : World) (e : Error) :
  ingestFiles env before w = (Ok tt, w1) ->
  ingestFile env file w1 = (Throw e, w2) ->
  ingestFiles env (before ++ file :: after) w = (Throw e, w2) /\
  ingestAction env (before ++ file :: after) w = (Ok IngestionFailed, w2).
Proof.
  intros H1 H2.
  assert (ingestFiles env (before ++ file :: after) w = (Throw e, w2)) as H.
  { rewrite ingestFiles_app, H1. simpl. unfold bind. rewrite H2. reflexivity. }
  split; [exact H|].
  unfold ingestAction, tryCatch.
  destruct (before ++ file :: after) as [|f l] eqn:E.
  - destruct before; discriminate.
  - unfold bind at 1. rewrite H. reflexivity.
Qed.

Lemma failed_document_halts_batch_witness :
  (ingestFiles (embedFailsAt 6) [fileB] emptyWorld =
     (Ok tt, snd (ingestFiles (embedFailsAt 6) [fileB] emptyWorld)) /\
   ingestFile (embedFailsAt 6) fileA
     (snd (ingestFiles (embedFailsAt 6) [fileB] emptyWorld)) =
     (Throw ProviderError,
      snd (ingestFile (embedFailsAt 6) fileA
             (snd (ingestFiles (embedFailsAt 6) [fileB] emptyWorld))))) /\
  ingestFiles (embedFailsAt 6) ([fileB] ++ fileA :: [fileB; fileA]) emptyWorld =
    (Throw ProviderError,
     snd (ingestFile (embedFailsAt 6) fileA
            (snd (ingestFiles (embedFailsAt 6) [fileB] emptyWorld)))) /\
  ingestAction (embedFailsAt 6) ([fileB] ++ fileA :: [fileB; fileA]) emptyWorld =
    (Ok IngestionFailed,
     snd (ingestFile (embedFailsAt 6) fileA
            (snd (ingestFiles (embedFailsAt 6) [fileB] emptyWorld)))).
Proof.
  split; [split; vm_compute; reflexivity|].
  apply (failed_document_halts_batch (embedFailsAt 6) [fileB] [fileB; fileA]
           fileA emptyWorld
           (snd (ingestFiles (embedFailsAt 6) [fileB] emptyWorld)));
    vm_compute; reflexivity.
Defined.

(** C8 as stated fails: in the batch [a.md; b.md] the embedding of the
    first chunk of [a.md] fails.  The command reports "Ingestion failed";
    the only calls made are the [DELETE] for [a.md] and that embedding,
    and [b.md] has no row in the table. *)
Lemma failed_document_stops_later_ones :
  fst (ingestAction (embedFailsAt 1) [fileA; fileB] emptyWorld) =
    Ok IngestionFailed /\
  calls (snd (ingestAction (embedFailsAt 1) [fileA; fileB] emptyWorld)) =
    [Query (DeleteWhereSource (lit "a.md"));
     EmbedContent (repeat 97%N 600)] /\
  rowsOfSource (lit "b.md")
    (rows (snd (ingestAction (embedFailsAt 1) [fileA; fileB] emptyWorld))) = [] /\
  map chunk_id
    (rowsOfSource (lit "b.md")
       (rows (snd (ingestAction allReply [fileA; fileB] emptyWorld)))) =
    [lit "b.md_chunk_0"].
Proof. vm_compute. repeat split; reflexivity. Qed.

End BatchTheorems.

(** ** Answering *)

Section AnswerFacts.

Variable env : Env.

Lemma getStats_unfold (w : World) :
  getStats env w =
  (Ok (if queryFails env (now w)
       then {| totalChunks := 0; totalDocuments := 0 |}
       else {| totalChunks := Z.of_nat (length (rows w));
               totalDocuments :=
                 Z.of_nat (length (unique (map (fun r => source (metadata r))
                                             (rows w)))) |}),
   logCall (Query SelectStats) w).
Proof.
  unfold getStats, tryCatch, selectStats, ret.
  destruct (queryFails env (now w)); reflexivity.
Qed.

Lemma searchSimilarChunks_calls (query : jsstring) (topK : Z) (w : World) :
  exists made,
    calls (snd (searchSimilarChunks env query topK w)) = calls w ++ made /\
    existsb isGenerate made = false.
Proof.
  unfold searchSimilarChunks. rewrite tryCatch_rethrow.
  unfold bind, embedContent, selectSimilar.
  destruct (embedReply env (now w) query) as [values|].
  - destruct (queryFails env (now (logCall (EmbedContent query) w))
              || (topK <? 0));
      exists [EmbedContent query; Query (SelectSimilar values topK)];
      simpl; rewrite <- app_assoc; split; reflexivity.
  - exists [EmbedContent query]. split; reflexivity.
Qed.

(** [askQuestion], step by step. *)
Lemma askQuestion_unfold (question : jsstring) (maxResults : Z) (w : World) :
  askQuestion env question maxResults w =
  let w0 := logCall (Query SelectStats) w in
  if queryFails env (now w) || (Z.of_nat (length (rows w)) =? 0)
  then (Ok noDocuments, w0)
  else
    match searchSimilarChunks env question maxResults w0 with
    | (Throw _, w1) => (Ok errorOccurred, w1)
    | (Ok searchResults, w1) =>
        if belowThreshold searchResults
        then (Ok noRelevantInformation, w1)
        else
          let prompt := promptOf (contextOf searchResults) question in
          match generateReply env (now w1) prompt with
          | Some answer =>
              (Ok (answer ++ sourceInfoOf (sourcesOf searchResults)),
               logCall (GenerateContent prompt) w1)
          | None => (Ok errorOccurred, logCall (GenerateContent prompt) w1)
          end
    end.
Proof.
  unfold askQuestion. unfold bind at 1. rewrite getStats_unfold. cbv zeta.
  destruct (queryFails env (now w)); [reflexivity|]. cbn [orb totalChunks].
  destruct (Z.of_nat (length (rows w)) =? 0); [reflexivity|].
  unfold tryCatch, bind.
  destruct (searchSimilarChunks env question maxResults
              (logCall (Query SelectStats) w)) as [[rs|e] w1];
    [|reflexivity].
  destruct rs as [|top rest]; [reflexivity|].
  cbn [belowThreshold].
  destruct (PrimFloat.ltb (similarity top) threshold); [reflexivity|].
  unfold generateContent, ret.
  destruct (generateReply env (now w1)
              (promptOf (contextOf (top :: rest)) question)); reflexivity.
Qed.

Example basename_samples :
  basename (lit "docs/guide/intro.md") = lit "intro.md" /\
  basename (lit "intro.md") = lit "intro.md" /\
  basename (lit "/tmp/docs/") = lit "docs" /\
  basename (lit "/") = [].
Proof. vm_compute. repeat split; reflexivity. Qed.

Example ranked_by_distance :
  map (fun r => id (chunk r)) nearResults = [2; 1].
Proof. vm_compute. reflexivity. Qed.

End AnswerFacts.

Section UniqueFacts.

Lemma existsb_eqb_str (x : jsstring) (seen : list jsstring) :
  existsb (eqb_str x) seen = true <-> In x seen.
Proof.
  rewrite existsb_exists. split.
  - intros [y [Hy E]]. apply eqb_str_true in E. subst y. exact Hy.
  - intros H. exists x. split; [exact H | apply eqb_str_true; reflexivity].
Qed.

Lemma uniqueFrom_In (xs seen : list jsstring) (x : jsstring) :
  In x (uniqueFrom seen xs) <-> In x xs /\ ~ In x seen.
Proof.
  revert seen. induction xs as [|y xs IH]; intros seen; simpl.
  - tauto.
  - destruct (existsb (eqb_str y) seen) eqn:E.
    + apply existsb_eqb_str in E. rewrite IH. split.
      * intros [H1 H2]. tauto.
      * intros [[->|H1] H2]; [contradiction | tauto].
    + assert (~ In y seen) as N
        by (intros H; apply existsb_eqb_str in H; congruence).
      simpl. rewrite IH. simpl. split.
      * intros [->|[H1 H2]]; [tauto|]. split; [tauto|]. intros H. apply H2. tauto.
      * intros [[->|H1] H2]; [tauto|].
        destruct (list_eq_dec N.eq_dec y x) as [->|D]; [tauto|].
        right. split; [exact H1|]. intros [H|H]; [congruence | contradiction].
Qed.

Lemma uniqueFrom_NoDup (xs seen : list jsstring) : NoDup (uniqueFrom seen xs).
Proof.
  revert seen. induction xs as [|y xs IH]; intros seen; simpl.
  - constructor.
  - destruct (existsb (eqb_str y) seen); [apply IH|].
    constructor; [|apply IH].
    rewrite uniqueFrom_In. simpl. tauto.
Qed.

(** Values already seen can as well be filtered out beforehand. *)
Lemma uniqueFrom_filter (xs seen later : list jsstring) :
  uniqueFrom (seen ++ later) xs =
  uniqueFrom seen (filter (fun y => negb (existsb (eqb_str y) later)) xs).
Proof.
  revert seen. induction xs as [|y xs IH]; intros seen; simpl; [reflexivity|].
  rewrite existsb_app.
  destruct (existsb (eqb_str y) later) eqn:L; simpl.
  - rewrite orb_true_r. apply IH.
  - rewrite orb_false_r. destruct (existsb (eqb_str y) seen); [apply IH|].
    f_equal. apply (IH (y :: seen)).
Qed.

(** [unique] keeps the first occurrence of each value, in order. *)
Lemma unique_cons (x : jsstring) (xs : list jsstring) :
  unique (x :: xs) =
  x :: unique (filter (fun y => negb (eqb_str y x)) xs).
Proof.
  unfold unique. simpl. f_equal.
  pose proof (uniqueFrom_filter xs [] [x]) as H. simpl in H. rewrite H.
  f_equal. apply filter_ext. intros y. rewrite orb_false_r. reflexivity.
Qed.

End UniqueFacts.

Section AnswerTheorems.

(** C9.  On a table without rows [askQuestion] returns the "no
    documents" sentence as its result, and the only call it makes is the
    statistics query: none to the embedding model, none to the generative
    model. *)
Theorem empty_store_no_documents (env : Env) (question : jsstring)
    (maxResults : Z) (w : World) :
  rows w = [] ->
  askQuestion env question maxResults w =
    (Ok noDocuments, logCall (Query SelectStats) w) /\
  callsSince w (snd (askQuestion env question maxResults w)) =
    [Query SelectStats] /\
  existsb isEmbed
    (callsSince w (snd (askQuestion env question maxResults w))) = false /\
  existsb isGenerate
    (callsSince w (snd (askQuestion env question maxResults w))) = false.
Proof.
  intros H.
  assert (askQuestion env question maxResults w =
          (Ok noDocuments, logCall (Query SelectStats) w)) as E.
  { rewrite askQuestion_unfold. cbv zeta. rewrite H. simpl.
    rewrite orb_true_r. reflexivity. }
  rewrite E. cbn [snd].
  assert (callsSince w (logCall (Query SelectStats) w) = [Query SelectStats])
    as C.
  { unfold callsSince, logCall. cbn [calls].
    rewrite skipn_app, skipn_all, Nat.sub_diag. reflexivity. }
  rewrite C. repeat split; reflexivity.
Qed.

Lemma empty_store_no_documents_witness :
  rows emptyWorld = [] /\
  askQuestion allReply aQuestion 4 emptyWorld =
    (Ok noDocuments, logCall (Query SelectStats) emptyWorld) /\
  callsSince emptyWorld (snd (askQuestion allReply aQuestion 4 emptyWorld)) =
    [Query SelectStats] /\
  existsb isEmbed
    (callsSince emptyWorld
       (snd (askQuestion allReply aQuestion 4 emptyWorld))) = false /\
  existsb isGenerate
    (callsSince emptyWorld
       (snd (askQuestion allReply aQuestion 4 emptyWorld))) = false.
Proof.
  split; [reflexivity|].
  apply (empty_store_no_documents allReply aQuestion 4 emptyWorld).
  reflexivity.
Defined.

End AnswerTheorems.

Section GatingTheorems.

(** C1.  When the statistics query reports at least one row, which is
    the precondition of the answer operation (the empty store is C9),
    and the search returns no result, or a best result of similarity
    below 0.3, [askQuestion] returns the "no relevant information"
    sentence and makes no call to the generative model. *)
Theorem threshold_gating (env : Env) (question : jsstring) (maxResults : Z)
    (w w1 : World) (searchResults : list SearchResult) :
  queryFails env (now w) = false -> rows w <> [] ->
  searchSimilarChunks env question maxResults (logCall (Query SelectStats) w)
    = (Ok searchResults, w1) ->
  belowThreshold searchResults = true ->
  askQuestion env question maxResults w = (Ok noRelevantInformation, w1) /\
  existsb isGenerate (callsSince w w1) = false.
Proof.
  intros Q R S B. split.
  - rewrite askQuestion_unfold. cbv zeta. rewrite Q, S, B.
    destruct (rows w) as [|r t]; [contradiction|]. reflexivity.
  - destruct (searchSimilarChunks_calls env question maxResults
                (logCall (Query SelectStats) w)) as [made [C G]].
    rewrite S in C. cbn [snd] in C. unfold callsSince. rewrite C.
    unfold logCall. cbn [calls]. rewrite <- app_assoc.
    rewrite skipn_app, skipn_all, Nat.sub_diag. simpl. exact G.
Qed.

Lemma threshold_gating_witness :
  (queryFails allFar (now twoSources) = false /\ rows twoSources <> [] /\
   searchSimilarChunks allFar aQuestion 4
     (logCall (Query SelectStats) twoSources) = (Ok farResults, snd farSearch) /\
   belowThreshold farResults = true) /\
  askQuestion allFar aQuestion 4 twoSources =
    (Ok noRelevantInformation, snd farSearch) /\
  existsb isGenerate (callsSince twoSources (snd farSearch)) = false.
Proof.
  split.
  - split; [reflexivity|]. split; [discriminate|].
    split; vm_compute; reflexivity.
  - apply (threshold_gating allFar aQuestion 4 twoSources (snd farSearch)
             farResults).
    + reflexivity.
    + discriminate.
    + vm_compute. reflexivity.
    + vm_compute. reflexivity.
Defined.

End GatingTheorems.

Section SourceTheorems.

Lemma sourcesOf_cons (r : SearchResult) (rest : list SearchResult) :
  sourcesOf (r :: rest) =
  sourceOf r ::
  sourcesOf (filter (fun r' => negb (eqb_str (sourceOf r') (sourceOf r))) rest).
Proof.
  unfold sourcesOf. cbn [map]. rewrite unique_cons. f_equal. f_equal.
  apply (filter_map_swap sourceOf
           (fun y => negb (eqb_str y (sourceOf r))) rest).
Qed.

(** C7, amended.  When [askQuestion] calls the generative model and it
    replies, the context of the prompt is made of all the search results,
    in ranked order, whatever the similarity of those after the first,
    and the sources appended to the answer are the base names of the
    sources of exactly these results: each once, in the order of their
    first occurrence. *)
Theorem sources_are_those_of_the_context (env : Env) (question : jsstring)
    (maxResults : Z) (w w1 : World) (searchResults : list SearchResult)
    (answer : jsstring) :
  queryFails env (now w) = false -> rows w <> [] ->
  searchSimilarChunks env question maxResults (logCall (Query SelectStats) w)
    = (Ok searchResults, w1) ->
  belowThreshold searchResults = false ->
  generateReply env (now w1) (promptOf (contextOf searchResults) question)
    = Some answer ->
  askQuestion env question maxResults w =
    (Ok (answer ++ sourceInfoOf (sourcesOf searchResults)),
     logCall (GenerateContent (promptOf (contextOf searchResults) question))
       w1) /\
  contextOf searchResults =
    join (nl ++ nl ++ lit "---" ++ nl ++ nl)
      (map contextEntry searchResults) /\
  (forall x, In x (sourcesOf searchResults) <->
             exists r, In r searchResults /\ sourceOf r = x) /\
  NoDup (sourcesOf searchResults) /\
  (forall r rest, searchResults = r :: rest ->
     sourcesOf searchResults =
     sourceOf r ::
     sourcesOf
       (filter (fun r' => negb (eqb_str (sourceOf r') (sourceOf r))) rest)).
Proof.
  intros Q R S B G. split; [|split; [|split; [|split]]].
  - rewrite askQuestion_unfold. cbv zeta. rewrite Q, S, B, G.
    destruct (rows w) as [|r t]; [contradiction|]. reflexivity.
  - reflexivity.
  - intros x. unfold sourcesOf, unique. rewrite uniqueFrom_In. simpl.
    rewrite in_map_iff. split.
    + intros [[r [E H]] _]. exists r. tauto.
    + intros [r [H E]]. split; [exists r; tauto | tauto].
  - apply uniqueFrom_NoDup.
  - intros r rest ->. apply sourcesOf_cons.
Qed.

Lemma sources_are_those_of_the_context_witness :
  (queryFails nearAndFar (now twoSources) = false /\ rows twoSources <> [] /\
   searchSimilarChunks nearAndFar aQuestion 4
     (logCall (Query SelectStats) twoSources)
     = (Ok nearResults, snd nearSearch) /\
   belowThreshold nearResults = false /\
   generateReply nearAndFar (now (snd nearSearch))
     (promptOf (contextOf nearResults) aQuestion) = Some (lit "It is so.")) /\
  askQuestion nearAndFar aQuestion 4 twoSources =
    (Ok (lit "It is so." ++ sourceInfoOf (sourcesOf nearResults)),
     logCall (GenerateContent (promptOf (contextOf nearResults) aQuestion))
       (snd nearSearch)) /\
  NoDup (sourcesOf nearResults).
Proof.
  split.
  - split; [reflexivity|]. split; [discriminate|].
    split; [vm_compute; reflexivity|]. split; [vm_compute; reflexivity|].
    reflexivity.
  - pose proof (sources_are_those_of_the_context nearAndFar aQuestion 4
                  twoSources (snd nearSearch) nearResults (lit "It is so."))
      as T.
    destruct T as [T1 [_ [_ [T4 _]]]].
    + reflexivity.
    + discriminate.
    + vm_compute. reflexivity.
    + vm_compute. reflexivity.
    + reflexivity.
    + split; [exact T1 | exact T4].
Defined.

(** C7 as stated fails: of the two results the second, from
    [docs/far.md], has a similarity below 0.3; it is in the context of
    the prompt all the same, and [far.md] is listed among the sources. *)
Lemma source_below_threshold_is_listed :
  map (fun r => (sourceOf r, PrimFloat.ltb (similarity r) threshold))
    nearResults =
    [(lit "near.md", false); (lit "far.md", true)] /\
  contextOf nearResults =
    lit "[Source: near.md]" ++ nl ++ lit "A chunk is a slice of a text." ++
    nl ++ nl ++ lit "---" ++ nl ++ nl ++
    lit "[Source: far.md]" ++ nl ++ lit "Bread is baked in an oven." /\
  fst (askQuestion nearAndFar aQuestion 4 twoSources) =
    Ok (lit "It is so." ++ nl ++ nl ++ [55357%N; 56538%N] ++
        lit " Sources: near.md, far.md") /\
  existsb isGenerate
    (callsSince twoSources
       (snd (askQuestion nearAndFar aQuestion 4 twoSources))) = true.
Proof. vm_compute. repeat split; reflexivity. Qed.

End SourceTheorems.

(** ** How the windows tile the text *)

Section TilingFacts.

Variable text : jsstring.
Variables chunkSize overlap : Z.
Hypothesis overlap_ok : 0 < overlap < chunkSize.
Hypothesis overlap_half : 2 * overlap <= chunkSize + 2.

Lemma windows_S (fuel : nat) (start : Z) :
  windows (S fuel) text chunkSize overlap start =
  if start <? len text then
    option_map (cons (windowAt text chunkSize start))
      (windows fuel text chunkSize overlap
         (chunkEnd text chunkSize start - overlap))
  else Some [].
Proof. reflexivity. Qed.

Lemma chunkEnd_grows (start : Z) :
  0 <= start ->
  chunkEnd text chunkSize start <
  chunkEnd text chunkSize (chunkEnd text chunkSize start - overlap).
Proof.
  intros Hs.
  pose proof (chunkEnd_progress text chunkSize overlap start
                overlap_ok overlap_half Hs) as P.
  set (start' := chunkEnd text chunkSize start - overlap) in *.
  assert (0 <= start') as Hs' by lia.
  assert (0 <= chunkSize) as Hc by lia.
  pose proof (chunkEnd_cases text chunkSize start' Hs' Hc) as C.
  cbv zeta in C. cbn [windowAt w_end w_delim] in C.
  destruct C as [[_ E]|[D [_ [L _]]]]; lia.
Qed.

(** The windows from [start] on: the first one starts at [start], each
    next one [overlap] before the end of the one before, and together
    they hold every position of the text from [start] on. *)
Lemma windows_tile_from (fuel : nat) :
  forall (start : Z) (ws : list Window),
    0 <= start ->
    windows fuel text chunkSize overlap start = Some ws ->
    (forall w, nth_error ws 0 = Some w -> w = windowAt text chunkSize start) /\
    (forall k w1 w2,
        nth_error ws k = Some w1 -> nth_error ws (S k) = Some w2 ->
        w_start w2 = w_end w1 - overlap /\
        w_start w1 < w_start w2 /\ w_end w1 < w_end w2) /\
    (forall i, start <= i < len text ->
               exists w, In w ws /\ w_start w <= i < w_end w).
Proof.
  induction fuel as [|fuel IH]; intros start ws Hs H.
  - simpl in H. destruct (start <? len text) eqn:E; [discriminate|].
    injection H as <-. apply Z.ltb_ge in E.
    split; [|split].
    + intros w Hw. discriminate.
    + intros k w1 w2 H1. destruct k; discriminate.
    + intros i Hi. lia.
  - rewrite windows_S in H. destruct (start <? len text) eqn:E.
    + apply Z.ltb_lt in E.
      destruct (windows fuel text chunkSize overlap
                  (chunkEnd text chunkSize start - overlap)) as [ws'|] eqn:W;
        [|discriminate].
      injection H as <-.
      pose proof (chunkEnd_progress text chunkSize overlap start
                    overlap_ok overlap_half Hs) as P.
      destruct (IH (chunkEnd text chunkSize start - overlap) ws'
                  ltac:(lia) W) as [Hd [Hc Hi]].
      split; [|split].
      * intros w Hw. simpl in Hw. injection Hw as <-. reflexivity.
      * intros k w1 w2 H1 H2. destruct k as [|k].
        -- simpl in H1. injection H1 as <-.
           change (nth_error ws' 0 = Some w2) in H2.
           rewrite (Hd w2 H2). cbn [windowAt w_start w_end].
           pose proof (chunkEnd_grows start Hs). lia.
        -- change (nth_error ws' k = Some w1) in H1.
           change (nth_error ws' (S k) = Some w2) in H2.
           apply (Hc k); assumption.
      * intros i Hr.
        destruct (Z_lt_dec i (chunkEnd text chunkSize start)) as [L|G].
        -- exists (windowAt text chunkSize start).
           split; [left; reflexivity|]. cbn [windowAt w_start w_end]. lia.
        -- destruct (Hi i ltac:(lia)) as [w [Hin Hw]].
           exists w. split; [right; exact Hin | exact Hw].
    + injection H as <-. apply Z.ltb_ge in E.
      split; [|split].
      * intros w Hw. discriminate.
      * intros k w1 w2 H1. destruct k; discriminate.
      * intros i Hi. lia.
Qed.

End TilingFacts.

(** X1.  With [0 < overlap < chunkSize] and [2 * overlap <= chunkSize + 2]
    the windows of [splitIntoChunks] tile the text: the first starts at
    index 0, every next one starts [overlap] code units before the end of
    the one before, with both its start and its end strictly further on,
    and every index of the text lies in some window.  The chunks returned
    are the trimmed slices of these windows that are longer than 20 code
    units. *)
Theorem windows_tile (text : jsstring) (chunkSize overlap : Z) :
  0 < overlap < chunkSize -> 2 * overlap <= chunkSize + 2 ->
  exists ws,
    windows (length text) text chunkSize overlap 0 = Some ws /\
    splitIntoChunksFuel (length text) text chunkSize overlap =
      Some (filter keepChunk (map (chunkOf text) ws)) /\
    (forall w, nth_error ws 0 = Some w -> w_start w = 0) /\
    (forall k w1 w2,
        nth_error ws k = Some w1 -> nth_error ws (S k) = Some w2 ->
        w_start w2 = w_end w1 - overlap /\
        w_start w1 < w_start w2 /\ w_end w1 < w_end w2) /\
    (forall i, 0 <= i < len text ->
               exists w, In w ws /\ w_start w <= i < w_end w).
Proof.
  intros Ho H2.
  destruct (windows_enough text chunkSize overlap (length text) 0 Ho H2)
    as [ws Hws]; [lia | unfold len; lia |].
  exists ws. split; [exact Hws|].
  destruct (windows_tile_from text chunkSize overlap Ho H2 (length text) 0 ws
              ltac:(lia) Hws) as [Hd [Hc Hi]].
  split; [|split; [|split]].
  - rewrite splitIntoChunksFuel_windows, Hws. reflexivity.
  - intros w Hw. rewrite (Hd w Hw). reflexivity.
  - exact Hc.
  - exact Hi.
Qed.

Lemma windows_tile_witness :
  (0 < 10 < 40 /\ 2 * 10 <= 40 + 2) /\
  exists ws,
    windows (length threeSentences) threeSentences 40 10 0 = Some ws /\
    splitIntoChunksFuel (length threeSentences) threeSentences 40 10 =
      Some (filter keepChunk (map (chunkOf threeSentences) ws)) /\
    (forall w, nth_error ws 0 = Some w -> w_start w = 0) /\
    (forall k w1 w2,
        nth_error ws k = Some w1 -> nth_error ws (S k) = Some w2 ->
        w_start w2 = w_end w1 - 10 /\
        w_start w1 < w_start w2 /\ w_end w1 < w_end w2) /\
    (forall i, 0 <= i < len threeSentences ->
               exists w, In w ws /\ w_start w <= i < w_end w).
Proof.
  split; [lia|]. apply (windows_tile threeSentences 40 10); lia.
Defined.

(** ** Where a window ends *)

Section OccurrenceFacts.

Lemma startsWith_firstn (s pat : jsstring) :
  startsWith s pat = true <-> firstn (length pat) s = pat.
Proof.
  revert s. induction pat as [|p pat IH]; intros s.
  - simpl. split; reflexivity.
  - destruct s as [|c s]; simpl.
    + split; discriminate.
    + rewrite andb_true_iff, IH, N.eqb_eq. split.
      * intros [-> ->]. reflexivity.
      * intros H. injection H as -> H. split; [reflexivity | exact H].
Qed.

Lemma occursAt_startsWith (s pat : jsstring) (j : Z) :
  occursAt s pat j <->
  0 <= j /\ j + len pat <= len s /\
  startsWith (skipn (Z.to_nat j) s) pat = true.
Proof.
  unfold occursAt. pose proof (len_nonneg pat) as Lp.
  split; intros [Hj [Hl H]]; (split; [exact Hj|]); (split; [exact Hl|]).
  - apply startsWith_firstn.
    unfold slice in H. rewrite !clampIndex_inside in H by lia.
    replace (j + len pat - j) with (len pat) in H by lia.
    unfold len in H at 1. rewrite Nat2Z.id in H. exact H.
  - apply startsWith_firstn in H.
    unfold slice. rewrite !clampIndex_inside by lia.
    replace (j + len pat - j) with (len pat) by lia.
    unfold len at 1. rewrite Nat2Z.id. exact H.
Qed.

Lemma lastIndexOfFrom_later (s pat : jsstring) (k j : nat) :
  lastIndexOfFrom s pat k < Z.of_nat j -> (j <= k)%nat ->
  startsWith (skipn j s) pat = false.
Proof.
  induction k as [|k IH]; intros Hr Hj.
  - assert (j = O) by lia. subst j. simpl in Hr.
    destruct (startsWith s pat) eqn:E; [lia | exact E].
  - rewrite lastIndexOfFrom_S in Hr.
    destruct (startsWith (skipn (S k) s) pat) eqn:E; [lia|].
    destruct (Nat.eq_dec j (S k)) as [->|N]; [exact E|].
    apply IH; [exact Hr | lia].
Qed.

(** [lastIndexOf] finds an occurrence, the last one that starts at or
    before the position. *)
Lemma lastIndexOf_occurs (s pat : jsstring) (position : Z) :
  0 <= lastIndexOf s pat position ->
  occursAt s pat (lastIndexOf s pat position).
Proof.
  intros H. apply occursAt_startsWith.
  destruct (lastIndexOf_range s pat position) as [R|[R1 R2]]; [lia|].
  split; [exact H|]. split; [exact R2|].
  unfold lastIndexOf in *. destruct (len s <? len pat); [lia|].
  apply lastIndexOfFrom_found. exact H.
Qed.

Lemma lastIndexOf_last (s pat : jsstring) (position j : Z) :
  occursAt s pat j -> j <= position -> j <= lastIndexOf s pat position.
Proof.
  intros O Hp. apply occursAt_startsWith in O. destruct O as [Hj [Hl H]].
  unfold lastIndexOf.
  destruct (len s <? len pat) eqn:E; [apply Z.ltb_lt in E; lia|].
  set (k := Z.to_nat (Z.min (Z.max position 0) (len s - len pat))).
  destruct (Z_lt_dec (lastIndexOfFrom s pat k) j) as [L|G]; [|lia].
  exfalso.
  assert (startsWith (skipn (Z.to_nat j) s) pat = false) as F.
  { apply (lastIndexOfFrom_later s pat k); [lia | subst k; lia]. }
  congruence.
Qed.

End OccurrenceFacts.

Section BreakFacts.

Variable text : jsstring.
Variables chunkSize start : Z.

Lemma matchedBreak_split (end_ : Z) (candidates : list jsstring)
    (breakChar : jsstring) :
  matchedBreak text chunkSize start end_ candidates = Some breakChar ->
  exists before after,
    candidates = before ++ breakChar :: after /\
    2 * start + chunkSize < 2 * lastIndexOf text breakChar end_ /\
    Forall (fun b => 2 * lastIndexOf text b end_ <= 2 * start + chunkSize)
      before.
Proof.
  induction candidates as [|bc rest IH]; simpl; [discriminate|].
  destruct (2 * lastIndexOf text bc end_ >? 2 * start + chunkSize) eqn:E.
  - intros H. injection H as <-. exists [], rest.
    apply Z.gtb_lt in E. repeat split; [exact E | constructor].
  - intros H. destruct (IH H) as [before [after [E1 [E2 E3]]]].
    exists (bc :: before), after. subst rest. split; [reflexivity|].
    split; [exact E2|]. constructor; [|exact E3].
    rewrite Z.gtb_ltb in E. apply Z.ltb_ge in E. exact E.
Qed.

Lemma matchedBreak_none (end_ : Z) (candidates : list jsstring) :
  matchedBreak text chunkSize start end_ candidates = None ->
  Forall (fun b => 2 * lastIndexOf text b end_ <= 2 * start + chunkSize)
    candidates.
Proof.
  induction candidates as [|bc rest IH]; simpl; [constructor|].
  destruct (2 * lastIndexOf text bc end_ >? 2 * start + chunkSize) eqn:E;
    [discriminate|].
  intros H. constructor; [|apply IH; exact H].
  rewrite Z.gtb_ltb in E. apply Z.ltb_ge in E. exact E.
Qed.

Lemma no_occurrence_beyond (b : jsstring) :
  2 * lastIndexOf text b (start + chunkSize) <= 2 * start + chunkSize ->
  forall j, beyondMiddle chunkSize start j -> ~ occursAt text b j.
Proof.
  intros H j [B1 B2] O.
  pose proof (lastIndexOf_last text b (start + chunkSize) j O B2). lia.
Qed.

End BreakFacts.

(** X2.  Where a window ends.  For a window that stops short of the end
    of the text, either no delimiter of [breakChars] occurs at an index
    beyond the middle of the window and up to its hard end, and the
    window ends at [start + chunkSize]; or it ends just past the last
    such occurrence of the first delimiter, in the order of [breakChars],
    that has one: a paragraph break wins over a newline, a newline over
    the end of a sentence, and so on. *)
Theorem break_placement (text : jsstring) (chunkSize start : Z) :
  0 <= start -> 0 <= chunkSize -> start + chunkSize < len text ->
  let end_ := chunkEnd text chunkSize start in
  (end_ = start + chunkSize /\
   forall b j, In b breakChars -> beyondMiddle chunkSize start j ->
               ~ occursAt text b j) \/
  (exists before breakChar after,
     breakChars = before ++ breakChar :: after /\
     occursAt text breakChar (end_ - len breakChar) /\
     beyondMiddle chunkSize start (end_ - len breakChar) /\
     (forall j, end_ - len breakChar < j -> j <= start + chunkSize ->
                ~ occursAt text breakChar j) /\
     (forall b j, In b before -> beyondMiddle chunkSize start j ->
                  ~ occursAt text b j)).
Proof.
  intros Hs Hc Hl end_. subst end_. unfold chunkEnd.
  replace (start + chunkSize <? len text) with true
    by (symmetry; apply Z.ltb_lt; exact Hl).
  rewrite findBreak_matched.
  destruct (matchedBreak text chunkSize start (start + chunkSize) breakChars)
    as [bc|] eqn:M.
  - right. destruct (matchedBreak_split text chunkSize start _ _ _ M)
      as [before [after [E1 [E2 E3]]]].
    assert (0 <= lastIndexOf text bc (start + chunkSize)) as H0 by lia.
    pose proof (lastIndexOf_occurs text bc (start + chunkSize) H0) as O.
    destruct (lastIndexOf_range text bc (start + chunkSize)) as [R|[R1 R2]];
      [lia|].
    pose proof (len_nonneg bc) as Lb.
    replace (lastIndexOf text bc (start + chunkSize) + len bc >? -1) with true
      by (symmetry; apply Z.gtb_lt; lia).
    cbv iota beta.
    exists before, bc, after. rewrite Z.add_simpl_r.
    split; [exact E1|]. split; [exact O|].
    split; [split; lia|]. split.
    + intros j Hj1 Hj2 Oj.
      pose proof (lastIndexOf_last text bc (start + chunkSize) j Oj Hj2). lia.
    + intros b j Hb. rewrite Forall_forall in E3.
      apply no_occurrence_beyond. apply E3. exact Hb.
  - left. simpl. split; [reflexivity|].
    intros b j Hb. pose proof (matchedBreak_none text chunkSize start _ _ M) as F.
    rewrite Forall_forall in F. apply no_occurrence_beyond. apply F. exact Hb.
Qed.

Lemma break_placement_witness :
  (0 <= 0 /\ 0 <= 40 /\ 0 + 40 < len threeSentences) /\
  let end_ := chunkEnd threeSentences 40 0 in
  (end_ = 0 + 40 /\
   forall b j, In b breakChars -> beyondMiddle 40 0 j ->
               ~ occursAt threeSentences b j) \/
  (exists before breakChar after,
     breakChars = before ++ breakChar :: after /\
     occursAt threeSentences breakChar (end_ - len breakChar) /\
     beyondMiddle 40 0 (end_ - len breakChar) /\
     (forall j, end_ - len breakChar < j -> j <= 0 + 40 ->
                ~ occursAt threeSentences breakChar j) /\
     (forall b j, In b before -> beyondMiddle 40 0 j ->
                  ~ occursAt threeSentences b j)).
Proof.
  split; [vm_compute; repeat split; discriminate|].
  apply (break_placement threeSentences 40 0); vm_compute;
    try discriminate; reflexivity.
Defined.

(** ** Sizes and number of chunks *)

Section ChunkSizes.

Lemma kept_chunk_sizes (text : jsstring) (ws : list Window) :
  Forall (fun chunk => 20 < len chunk <= len text /\ trim chunk = chunk)
    (filter keepChunk (map (chunkOf text) ws)).
Proof.
  apply Forall_forall. intros c Hc. apply filter_In in Hc.
  destruct Hc as [Hin Hk]. apply in_map_iff in Hin.
  destruct Hin as [w [<- _]]. unfold keepChunk in Hk. apply Z.gtb_lt in Hk.
  assert (len (chunkOf text w) <= len text) as L.
  { unfold chunkOf.
    pose proof (trim_length (slice text (w_start w) (w_end w))) as T.
    pose proof (len_slice text (w_start w) (w_end w)) as L.
    pose proof (clampIndex_range (len text) (w_start w) (len_nonneg text)).
    pose proof (clampIndex_range (len text) (w_end w) (len_nonneg text)).
    lia. }
  split; [lia|]. unfold chunkOf. apply trim_idem.
Qed.

(** X3.  With [0 < overlap < chunkSize] and [2 * overlap <= chunkSize + 2]
    [splitIntoChunks] returns, after at most one iteration per code unit
    of the text, and every chunk it returns is longer than 20 code
    units, no longer than the text, and trimmed; a text of at most 20
    code units gives no chunk at all. *)
Theorem chunks_within_text (text : jsstring) (chunkSize overlap : Z) :
  0 < overlap < chunkSize -> 2 * overlap <= chunkSize + 2 ->
  exists chunks,
    (forall fuel, (length text <= fuel)%nat ->
       splitIntoChunksFuel fuel text chunkSize overlap = Some chunks) /\
    Forall (fun chunk => 20 < len chunk <= len text /\ trim chunk = chunk)
      chunks /\
    (len text <= 20 -> chunks = []).
Proof.
  intros Ho H2.
  destruct (windows_enough text chunkSize overlap (length text) 0 Ho H2)
    as [ws Hws]; [lia | unfold len; lia |].
  exists (filter keepChunk (map (chunkOf text) ws)).
  pose proof (kept_chunk_sizes text ws) as F.
  split; [|split; [exact F|]].
  - intros fuel L. rewrite splitIntoChunksFuel_windows.
    rewrite (windows_more_fuel text chunkSize overlap (length text) fuel 0 ws
               Hws L).
    reflexivity.
  - intros Hl.
    destruct (filter keepChunk (map (chunkOf text) ws)) as [|c rest];
      [reflexivity|].
    inversion F as [|? ? [Hc _] _]. lia.
Qed.

Lemma chunks_within_text_witness :
  (0 < 100 < 600 /\ 2 * 100 <= 600 + 2) /\
  exists chunks,
    (forall fuel, (length helloText <= fuel)%nat ->
       splitIntoChunksFuel fuel helloText 600 100 = Some chunks) /\
    Forall (fun chunk => 20 < len chunk <= len helloText /\ trim chunk = chunk)
      chunks /\
    (len helloText <= 20 -> chunks = []).
Proof.
  split; [lia|]. apply (chunks_within_text helloText 600 100); lia.
Defined.

(** With the defaults every window starts at least 202 code units after
    the one before. *)
Lemma default_step (text : jsstring) (start : Z) :
  0 <= start -> start + 202 <= chunkEnd text 600 start - 100.
Proof.
  intros Hs.
  pose proof (chunkEnd_cases text 600 start Hs ltac:(lia)) as C.
  cbv zeta in C. cbn [windowAt w_end w_delim] in C.
  destruct C as [[_ E]|[D [_ [L _]]]]; lia.
Qed.

Lemma default_windows_count (text : jsstring) (fuel : nat) :
  forall (start : Z) (ws : list Window),
    0 <= start ->
    windows fuel text 600 100 start = Some ws ->
    202 * Z.of_nat (length ws) <=
    if start <? len text then len text - start + 201 else 0.
Proof.
  induction fuel as [|fuel IH]; intros start ws Hs H.
  - simpl in H. destruct (start <? len text); [discriminate|].
    injection H as <-. simpl. lia.
  - simpl in H. destruct (start <? len text) eqn:E.
    + apply Z.ltb_lt in E.
      destruct (windows fuel text 600 100 (chunkEnd text 600 start - 100))
        as [ws'|] eqn:W; [|discriminate].
      injection H as <-.
      pose proof (default_step text start Hs) as P.
      pose proof (IH (chunkEnd text 600 start - 100) ws' ltac:(lia) W) as B.
      cbn [length]. rewrite Nat2Z.inj_succ.
      destruct (chunkEnd text 600 start - 100 <? len text) eqn:E';
        [apply Z.ltb_lt in E' | apply Z.ltb_ge in E']; lia.
    + injection H as <-. simpl. lia.
Qed.

(** X4.  With the default parameters a text of [n] code units gives at
    most [(n + 201) / 202] chunks: consecutive windows start at least 202
    code units apart. *)
Theorem chunk_count_bound (text : jsstring) :
  202 * Z.of_nat (length (splitIntoChunks text)) <= len text + 201.
Proof.
  destruct (defaults_terminate text) as [ws [Hws [E _]]].
  rewrite E.
  pose proof (default_windows_count text (length text) 0 ws ltac:(lia) Hws) as B.
  pose proof (filter_length_le keepChunk (map (chunkOf text) ws)) as F.
  rewrite length_map in F.
  pose proof (len_nonneg text).
  destruct (0 <? len text); lia.
Qed.

End ChunkSizes.

(** ** The world a completed ingest leaves *)

Section IngestCalls.

Variable env : Env.
Variable file : FileProcessor.ProcessedFile.

Lemma ingestChunks_completed (textChunks : list jsstring) :
  forall (i : nat) (w w' : World),
    ingestChunks env file i textChunks w = (Ok tt, w') ->
    exists vectors,
      length vectors = length textChunks /\
      repliedFrom env (now w) (combine textChunks vectors) /\
      w' = {| rows := rows w ++
                      newRowsFrom file i (nextId w) (combine textChunks vectors);
              nextId := nextId w + Z.of_nat (length textChunks);
              calls := calls w ++
                       ingestCallsFrom file i (combine textChunks vectors) |}.
Proof.
  induction textChunks as [|chunk rest IH]; intros i w w' H.
  - simpl in H. unfold ret in H. injection H as <-. exists [].
    split; [reflexivity|]. split; [exact I|]. simpl. rewrite !app_nil_r.
    replace (nextId w + Z.of_nat 0) with (nextId w) by lia.
    destruct w; reflexivity.
  - rewrite ingestChunks_cons in H.
    destruct (embedReply env (now w) chunk) as [values|] eqn:R;
      [|discriminate].
    cbv zeta in H.
    destruct (queryFails env (now (logCall (EmbedContent chunk) w)));
      [discriminate|].
    apply IH in H. destruct H as [vectors [L [P ->]]].
    exists (values :: vectors). split; [simpl; lia|]. split.
    + cbn [combine repliedFrom]. split; [exact R|].
      replace (S (S (now w))) with
        (now {| rows := rows w ++
                    [{| id := nextId w; chunk_id := chunkIdOf file i;
                        content := chunk; embedding := values;
                        metadata := metadataOf file i |}];
                nextId := nextId w + 1;
                calls := calls (logCall (EmbedContent chunk) w) ++
                         [insertOf file i chunk values] |}); [exact P|].
      unfold now, logCall. cbn [calls]. rewrite !length_app. cbn [length].
      lia.
    + cbn [rows nextId calls logCall combine newRowsFrom ingestCallsFrom
           length].
      rewrite <- !app_assoc. cbn [app].
      f_equal. lia.
Qed.

Lemma ingestChunks_made (textChunks : list jsstring) :
  forall (i : nat) (w : World),
  exists (made : list Call) (j : nat),
    calls (snd (ingestChunks env file i textChunks w)) = calls w ++ made /\
    (j <= length textChunks)%nat /\
    filter isEmbed made = map EmbedContent (firstn j textChunks) /\
    existsb isGenerate made = false /\
    match fst (ingestChunks env file i textChunks w) with
    | Ok _ => j = length textChunks
    | Throw _ => True
    end.
Proof.
  induction textChunks as [|chunk rest IH]; intros i w.
  - exists [], O. simpl. rewrite app_nil_r. repeat split; lia.
  - rewrite ingestChunks_cons.
    destruct (embedReply env (now w) chunk) as [values|].
    + cbv zeta.
      destruct (queryFails env (now (logCall (EmbedContent chunk) w))).
      * exists [EmbedContent chunk; insertOf file i chunk values], 1%nat.
        cbn [fst snd logCall calls]. rewrite <- app_assoc.
        repeat split; simpl; lia.
      * match goal with
        | |- context [ingestChunks env file (S i) rest ?w1] =>
            destruct (IH (S i) w1) as [made [j [C [Hj [E [G O]]]]]];
            set (w' := w1) in *
        end.
        exists (EmbedContent chunk :: insertOf file i chunk values :: made),
               (S j).
        split; [|split; [|split; [|split]]].
        -- rewrite C. subst w'. cbn [calls logCall].
           rewrite <- !app_assoc. reflexivity.
        -- simpl. lia.
        -- cbn [filter isEmbed insertOf firstn map]. rewrite E. reflexivity.
        -- cbn [existsb isGenerate insertOf orb]. exact G.
        -- destruct (fst (ingestChunks env file (S i) rest w')); simpl;
             [lia | exact I].
    + exists [EmbedContent chunk], 1%nat. cbn [fst snd logCall calls].
      repeat split; simpl; lia.
Qed.

End IngestCalls.

(** X5.  An [ingestFile] that returns leaves exactly this: the rows of
    the other sources in their order, followed by one row per chunk in
    chunk order, with consecutive serial numbers, the chunk identifier
    and the metadata of the file, and as its vector what the embedding
    model replied to the call made for that chunk; the serial counter
    advanced by the number of chunks; and as calls the [DELETE], then
    for every chunk its [embedContent] followed by its [INSERT]. *)
Theorem completed_ingest_world (env : Env)
    (file : FileProcessor.ProcessedFile) (w : World) :
  fst (ingestFile env file w) = Ok tt ->
  let src := FileProcessor.path file in
  let textChunks := splitIntoChunks (FileProcessor.content file) in
  exists vectors,
    length vectors = length textChunks /\
    repliedFrom env (S (now w)) (combine textChunks vectors) /\
    snd (ingestFile env file w) =
    {| rows := otherSources src (rows w) ++
               newRowsFrom file 0 (nextId w) (combine textChunks vectors);
       nextId := nextId w + Z.of_nat (length textChunks);
       calls := calls w ++
                Query (DeleteWhereSource src)
                :: ingestCallsFrom file 0 (combine textChunks vectors) |}.
Proof.
  intros H src textChunks. rewrite ingestFile_unfold in *.
  destruct (queryFails env (now w)); [discriminate|].
  match type of H with
  | fst (ingestChunks env file 0 ?cs ?w1) = _ =>
      destruct (ingestChunks env file 0 cs w1) as [o w'] eqn:E
  end.
  cbn [fst snd] in *. subst o.
  apply ingestChunks_completed in E. destruct E as [vectors [L [P ->]]].
  exists vectors. split; [exact L|]. split.
  - replace (S (now w)) with
      (now {| rows := otherSources (FileProcessor.path file) (rows w);
              nextId := nextId w;
              calls := calls w ++
                       [Query (DeleteWhereSource (FileProcessor.path file))] |});
      [exact P|].
    unfold now. cbn [calls]. rewrite length_app. cbn [length]. lia.
  - cbn [rows nextId calls]. rewrite <- app_assoc. reflexivity.
Qed.

Lemma completed_ingest_world_witness :
  fst (ingestFile allReply fileA oldGeneration) = Ok tt /\
  exists vectors,
    length vectors =
      length (splitIntoChunks (FileProcessor.content fileA)) /\
    repliedFrom allReply (S (now oldGeneration))
      (combine (splitIntoChunks (FileProcessor.content fileA)) vectors) /\
    snd (ingestFile allReply fileA oldGeneration) =
    {| rows := otherSources (FileProcessor.path fileA) (rows oldGeneration) ++
               newRowsFrom fileA 0 (nextId oldGeneration)
                 (combine (splitIntoChunks (FileProcessor.content fileA))
                    vectors);
       nextId := nextId oldGeneration +
                 Z.of_nat (length (splitIntoChunks
                                     (FileProcessor.content fileA)));
       calls := calls oldGeneration ++
                Query (DeleteWhereSource (FileProcessor.path fileA))
                :: ingestCallsFrom fileA 0
                     (combine (splitIntoChunks (FileProcessor.content fileA))
                        vectors) |}.
Proof.
  split; [vm_compute; reflexivity|].
  apply (completed_ingest_world allReply fileA oldGeneration).
  vm_compute. reflexivity.
Defined.

(** X6.  Whether it returns or throws, [ingestFile] asks for the
    embeddings of a prefix of the chunks, in chunk order and one call per
    chunk, and never calls the generative model; the prefix is all the
    chunks when it returns and is empty when the [DELETE] fails. *)
Theorem ingestFile_embeds_in_order (env : Env)
    (file : FileProcessor.ProcessedFile) (w : World) :
  let textChunks := splitIntoChunks (FileProcessor.content file) in
  let made := callsSince w (snd (ingestFile env file w)) in
  exists j,
    (j <= length textChunks)%nat /\
    filter isEmbed made = map EmbedContent (firstn j textChunks) /\
    existsb isGenerate made = false /\
    (fst (ingestFile env file w) = Ok tt -> j = length textChunks) /\
    (queryFails env (now w) = true -> j = O).
Proof.
  intros textChunks made. subst made textChunks. rewrite ingestFile_unfold.
  destruct (queryFails env (now w)) eqn:Q.
  - exists O. unfold callsSince. cbn [fst snd logCall calls].
    rewrite skipn_app, skipn_all, Nat.sub_diag. simpl.
    repeat split; try lia; try reflexivity. discriminate.
  - match goal with
    | |- context [ingestChunks env file 0 ?cs ?w1] =>
        destruct (ingestChunks_made env file cs 0 w1)
          as [made [j [C [Hj [E [G O]]]]]]
    end.
    exists j. unfold callsSince. rewrite C. cbn [calls].
    rewrite <- app_assoc, skipn_app, skipn_all, Nat.sub_diag.
    cbn [skipn app filter isEmbed existsb isGenerate orb].
    split; [exact Hj|]. split; [exact E|]. split; [exact G|].
    split; [|discriminate].
    intros H. rewrite H in O. exact O.
Qed.

(** ** Chunk identifiers *)

Section DecimalFacts.

Lemma lit_inj (a b : String.string) : lit a = lit b -> a = b.
Proof.
  unfold lit. intros H.
  rewrite <- (string_of_list_ascii_of_string a).
  rewrite <- (string_of_list_ascii_of_string b). f_equal.
  revert H. generalize (list_ascii_of_string a) (list_ascii_of_string b).
  intros l. induction l as [|x l IH]; intros [|y l'] H; simpl in H;
    try discriminate; [reflexivity|].
  injection H as H1 H2. f_equal; [|apply IH; exact H2].
  rewrite <- (ascii_N_embedding x), <- (ascii_N_embedding y), H1. reflexivity.
Qed.

Lemma to_uint_not_nil (n : nat) : Nat.to_uint n <> Decimal.Nil.
Proof.
  intros H. pose proof (Unsigned.of_to n) as E. rewrite H in E.
  simpl in E. subst n. discriminate.
Qed.

Lemma ofNat_inj (n m : nat) : ofNat n = ofNat m -> n = m.
Proof.
  unfold ofNat. intros H. apply lit_inj in H.
  apply Unsigned.to_uint_inj.
  pose proof (NilZero.usu (Nat.to_uint n) (to_uint_not_nil n)) as E1.
  pose proof (NilZero.usu (Nat.to_uint m) (to_uint_not_nil m)) as E2.
  rewrite H in E1. rewrite E1 in E2. injection E2 as E2. exact E2.
Qed.

Lemma digits_no_underscore (d : Decimal.uint) :
  ~ In 95%N (lit (NilEmpty.string_of_uint d)).
Proof.
  induction d; simpl; intros H;
    try (destruct H as [H|H]; [discriminate | exact (IHd H)]).
  exact H.
Qed.

Lemma ofNat_no_underscore (n : nat) : ~ In 95%N (ofNat n).
Proof.
  unfold ofNat, NilZero.string_of_uint.
  destruct (Nat.to_uint n) eqn:E;
    try (rewrite <- E; apply digits_no_underscore).
  simpl. intros [H|[]]. discriminate.
Qed.

End DecimalFacts.

Section SplitFacts.

(** A list is cut in one way only at the first occurrence of [x]. *)
Lemma first_occurrence_unique {A} (x : A) (l1 l2 r1 r2 : list A) :
  ~ In x l1 -> ~ In x l2 -> l1 ++ x :: r1 = l2 ++ x :: r2 ->
  l1 = l2 /\ r1 = r2.
Proof.
  revert l2. induction l1 as [|a l1 IH]; intros l2 N1 N2 H.
  - destruct l2 as [|b l2]; simpl in H.
    + injection H as H. split; [reflexivity | exact H].
    + injection H as H1 H2. exfalso. apply N2. left. symmetry. exact H1.
  - destruct l2 as [|b l2]; simpl in H.
    + injection H as H1 H2. exfalso. apply N1. left. exact H1.
    + injection H as H1 H2. subst b.
      destruct (IH l2) as [E1 E2]; [| |exact H2|].
      * intros Hin. apply N1. right. exact Hin.
      * intros Hin. apply N2. right. exact Hin.
      * subst. split; reflexivity.
Qed.

Lemma chunk_id_inj (p1 p2 : jsstring) (i1 i2 : nat) :
  p1 ++ underscoreChunk ++ ofNat i1 = p2 ++ underscoreChunk ++ ofNat i2 ->
  p1 = p2 /\ i1 = i2.
Proof.
  intros H. apply (f_equal (@rev _)) in H.
  rewrite !rev_app_distr in H.
  change (rev underscoreChunk) with (95%N :: rev (lit "_chunk")) in H.
  rewrite <- !app_assoc in H. cbn [app] in H.
  apply first_occurrence_unique in H.
  - destruct H as [H1 H2]. apply app_inv_head in H2.
    apply (f_equal (@rev _)) in H1, H2. rewrite !rev_involutive in H1, H2.
    split; [exact H2 | apply ofNat_inj; exact H1].
  - rewrite <- in_rev. apply ofNat_no_underscore.
  - rewrite <- in_rev. apply ofNat_no_underscore.
Qed.

End SplitFacts.

Section Identifiers.

Lemma rowsFrom_named (file : FileProcessor.ProcessedFile) (i : nat)
    (textChunks : list jsstring) :
  Forall (fun d => fst (fst d) =
                   source (snd d) ++ underscoreChunk ++ ofNat (chunkIndex (snd d)))
    (rowsFrom file i textChunks).
Proof.
  revert i. induction textChunks as [|c rest IH]; intros i; simpl;
    constructor; [reflexivity | apply IH].
Qed.

Lemma oneGeneration_wellNamed (table : list DocumentChunk) :
  oneGeneration table -> Forall wellNamed table.
Proof.
  intros G. apply Forall_forall. intros r Hr.
  destruct (G (source (metadata r))) as [file [k [_ E]]].
  assert (In r (rowsOfSource (source (metadata r)) table)) as Hin.
  { unfold rowsOfSource. apply filter_In. split; [exact Hr|].
    unfold sourceIs. apply eqb_str_true. reflexivity. }
  apply (in_map describe) in Hin. rewrite E in Hin.
  assert (In (describe r) (generationOf file)) as Hg.
  { rewrite <- (firstn_skipn k (generationOf file)). apply in_or_app.
    left. exact Hin. }
  pose proof (rowsFrom_named file 0
                (splitIntoChunks (FileProcessor.content file))) as F.
  rewrite Forall_forall in F. apply (F _ Hg).
Qed.

Lemma NoDup_by_key {A B} (f : A -> B) (key : A -> jsstring) (h : A -> nat)
    (l : list A) :
  (forall x y, In x l -> In y l -> f x = f y -> key x = key y /\ h x = h y) ->
  (forall k, NoDup (map h (filter (fun x => eqb_str (key x) k) l))) ->
  NoDup (map f l).
Proof.
  induction l as [|x l IH]; intros Hinj Hk; simpl; [constructor|].
  constructor.
  - intros Hin. apply in_map_iff in Hin. destruct Hin as [y [E Hy]].
    destruct (Hinj y x (or_intror Hy) (or_introl eq_refl) E) as [K H].
    pose proof (Hk (key x)) as N. simpl in N.
    replace (eqb_str (key x) (key x)) with true in N
      by (symmetry; apply eqb_str_true; reflexivity).
    simpl in N. inversion N as [|? ? Hnot _]. apply Hnot.
    rewrite <- H. apply in_map. apply filter_In. split; [exact Hy|].
    apply eqb_str_true. exact K.
  - apply IH.
    + intros a b Ha Hb. apply Hinj; right; assumption.
    + intros k. specialize (Hk k). simpl in Hk.
      destruct (eqb_str (key x) k); [|exact Hk].
      simpl in Hk. inversion Hk. assumption.
Qed.

End Identifiers.

(** X7.  Chunk identifiers are unique.  In a table that calls of
    [ingestFile] built, whichever of them failed, the [chunk_id] of every
    row is its source, "_chunk_" and its chunk index in decimal; no two
    rows share a [chunk_id]; and a [chunk_id] determines the source and
    the index, also when a path itself contains "_chunk_". *)
Theorem chunk_ids_unique (env : Env)
    (files : list FileProcessor.ProcessedFile) (w : World) :
  oneGeneration (rows w) ->
  let table := rows (callIngestFile env files w) in
  Forall wellNamed table /\
  NoDup (map chunk_id table) /\
  (forall r1 r2, In r1 table -> In r2 table ->
     chunk_id r1 = chunk_id r2 ->
     source (metadata r1) = source (metadata r2) /\
     chunkIndex (metadata r1) = chunkIndex (metadata r2)).
Proof.
  intros G table.
  pose proof (callIngestFile_oneGeneration env files w G) as G'.
  fold table in G'.
  pose proof (oneGeneration_wellNamed table G') as W.
  assert (forall r1 r2, In r1 table -> In r2 table ->
            chunk_id r1 = chunk_id r2 ->
            source (metadata r1) = source (metadata r2) /\
            chunkIndex (metadata r1) = chunkIndex (metadata r2)) as Inj.
  { intros r1 r2 H1 H2 E. rewrite Forall_forall in W.
    rewrite (W r1 H1), (W r2 H2) in E. apply chunk_id_inj. exact E. }
  split; [exact W|]. split; [|exact Inj].
  apply (NoDup_by_key chunk_id (fun r => source (metadata r))
           (fun r => chunkIndex (metadata r))); [exact Inj|].
  intros k. apply (oneGeneration_NoDup table G' k).
Qed.

Lemma chunk_ids_unique_witness :
  oneGeneration (rows emptyWorld) /\
  let table :=
    rows (callIngestFile (embedFailsAt 3) [fileA; fileB; fileA] emptyWorld) in
  Forall wellNamed table /\
  NoDup (map chunk_id table) /\
  (forall r1 r2, In r1 table -> In r2 table ->
     chunk_id r1 = chunk_id r2 ->
     source (metadata r1) = source (metadata r2) /\
     chunkIndex (metadata r1) = chunkIndex (metadata r2)).
Proof.
  split; [apply oneGeneration_empty|].
  apply (chunk_ids_unique (embedFailsAt 3) [fileA; fileB; fileA] emptyWorld).
  apply oneGeneration_empty.
Defined.

(** ** Short files and statistics *)

Section TinyFacts.

Lemma splitIntoChunks_tiny (text : jsstring) :
  len text <= 20 -> splitIntoChunks text = [].
Proof.
  intros H. destruct (defaults_terminate text) as [ws [_ [E _]]].
  rewrite E. pose proof (kept_chunk_sizes text ws) as F.
  destruct (filter keepChunk (map (chunkOf text) ws)) as [|c rest];
    [reflexivity|].
  inversion F as [|? ? [Hc _] _]. lia.
Qed.

End TinyFacts.

(** X8.  A file whose content has at most 20 code units gives no chunk:
    when its [DELETE] succeeds, [ingestFile] returns after that one call,
    and the source has no row left, so what the table held of it is
    erased and nothing replaces it. *)
Theorem tiny_file_erases_source (env : Env)
    (file : FileProcessor.ProcessedFile) (w : World) :
  len (FileProcessor.content file) <= 20 ->
  queryFails env (now w) = false ->
  ingestFile env file w =
    (Ok tt,
     {| rows := otherSources (FileProcessor.path file) (rows w);
        nextId := nextId w;
        calls := calls w ++
                 [Query (DeleteWhereSource (FileProcessor.path file))] |}) /\
  rowsOfSource (FileProcessor.path file)
    (rows (snd (ingestFile env file w))) = [].
Proof.
  intros H Q.
  assert (ingestFile env file w =
    (Ok tt,
     {| rows := otherSources (FileProcessor.path file) (rows w);
        nextId := nextId w;
        calls := calls w ++
                 [Query (DeleteWhereSource (FileProcessor.path file))] |})) as E.
  { rewrite ingestFile_unfold, Q, (splitIntoChunks_tiny _ H). reflexivity. }
  split; [exact E|]. rewrite E. cbn [snd rows]. apply rowsOfSource_others.
Qed.

Lemma tiny_file_erases_source_witness :
  (len (FileProcessor.content tinyFile) <= 20 /\
   queryFails allReply (now oldGeneration) = false) /\
  ingestFile allReply tinyFile oldGeneration =
    (Ok tt,
     {| rows := otherSources (FileProcessor.path tinyFile) (rows oldGeneration);
        nextId := nextId oldGeneration;
        calls := calls oldGeneration ++
                 [Query (DeleteWhereSource (FileProcessor.path tinyFile))] |}) /\
  rowsOfSource (FileProcessor.path tinyFile)
    (rows (snd (ingestFile allReply tinyFile oldGeneration))) = [].
Proof.
  split; [split; [vm_compute; discriminate | reflexivity]|].
  apply (tiny_file_erases_source allReply tinyFile oldGeneration);
    [vm_compute; discriminate | reflexivity].
Defined.

Section StatsFacts.

Lemma uniqueFrom_length (xs seen : list jsstring) :
  (length (uniqueFrom seen xs) <= length xs)%nat.
Proof.
  revert seen. induction xs as [|x xs IH]; intros seen; simpl; [lia|].
  destruct (existsb (eqb_str x) seen); [specialize (IH seen); lia|].
  simpl. specialize (IH (x :: seen)). lia.
Qed.

End StatsFacts.

(** X9.  [getStats] never throws and makes one query.  The counts it
    reports satisfy [0 <= totalDocuments <= totalChunks] and are zero
    together; both are zero when the query fails, and otherwise
    [totalChunks] is the number of rows and [totalDocuments] the number
    of distinct sources. *)
Theorem getStats_reports (env : Env) (w : World) :
  exists stats,
    getStats env w = (Ok stats, logCall (Query SelectStats) w) /\
    0 <= totalDocuments stats <= totalChunks stats /\
    (totalChunks stats = 0 <-> totalDocuments stats = 0) /\
    (queryFails env (now w) = true ->
     totalChunks stats = 0) /\
    (queryFails env (now w) = false ->
     totalChunks stats = Z.of_nat (length (rows w)) /\
     exists sources,
       NoDup sources /\
       (forall s, In s sources <->
                  exists r, In r (rows w) /\ source (metadata r) = s) /\
       totalDocuments stats = Z.of_nat (length sources)).
Proof.
  rewrite getStats_unfold.
  destruct (queryFails env (now w)).
  - eexists. split; [reflexivity|]. cbn [totalChunks totalDocuments].
    repeat split; try lia; try discriminate.
  - eexists. split; [reflexivity|]. cbn [totalChunks totalDocuments].
    set (srcs := map (fun r => source (metadata r)) (rows w)).
    pose proof (uniqueFrom_length srcs []) as L. fold (unique srcs) in L.
    assert (length srcs = length (rows w)) as Ls
      by (subst srcs; apply length_map).
    assert (unique srcs = [] <-> rows w = []) as Z0.
    { split.
      - intros U. destruct (rows w) as [|r t] eqn:R; [reflexivity|].
        subst srcs. cbn in U. discriminate.
      - intros R. subst srcs. rewrite R. reflexivity. }
    split; [lia|]. split.
    + split; intros H.
      * assert (rows w = []) as R by (destruct (rows w); [reflexivity | simpl in H; lia]).
        apply Z0 in R. rewrite R. reflexivity.
      * assert (unique srcs = []) as U
          by (destruct (unique srcs); [reflexivity | simpl in H; lia]).
        apply Z0 in U. rewrite U. reflexivity.
    + split; [discriminate|]. intros _. split; [reflexivity|].
      exists (unique srcs). split; [apply uniqueFrom_NoDup|].
      split; [|reflexivity].
      intros s. unfold unique. rewrite uniqueFrom_In. subst srcs.
      rewrite in_map_iff. split.
      * intros [[r [E H]] _]. exists r. tauto.
      * intros [r [H E]]. split; [exists r; tauto | intros []].
Qed.

(** X10.  After an [ingestFile] that returned, a [getStats] whose query
    succeeds reports as [totalChunks] the number of rows of the other
    sources plus the number of chunks of the file. *)
Theorem stats_after_ingest (env : Env)
    (file : FileProcessor.ProcessedFile) (w : World) :
  fst (ingestFile env file w) = Ok tt ->
  let w' := snd (ingestFile env file w) in
  queryFails env (now w') = false ->
  exists stats,
    fst (getStats env w') = Ok stats /\
    totalChunks stats =
      Z.of_nat (length (otherSources (FileProcessor.path file) (rows w))) +
      Z.of_nat (length (splitIntoChunks (FileProcessor.content file))).
Proof.
  intros H w' Q. rewrite getStats_unfold, Q. eexists.
  split; [reflexivity|]. cbn [totalChunks]. subst w'.
  destruct (ingestFile_rows env file w)
    as [[_ [T _]]|[_ [fresh [k [R [D O]]]]]]; [rewrite H in T; discriminate|].
  rewrite H in O. rewrite R, length_app.
  assert (length fresh = k) as Lf.
  { rewrite <- (length_map describe), D, length_firstn. unfold generationOf.
    rewrite rowsFrom_length. lia. }
  lia.
Qed.

Lemma stats_after_ingest_witness :
  (fst (ingestFile allReply fileA oldGeneration) = Ok tt /\
   queryFails allReply (now (snd (ingestFile allReply fileA oldGeneration)))
     = false) /\
  exists stats,
    fst (getStats allReply (snd (ingestFile allReply fileA oldGeneration)))
      = Ok stats /\
    totalChunks stats =
      Z.of_nat (length (otherSources (FileProcessor.path fileA)
                          (rows oldGeneration))) +
      Z.of_nat (length (splitIntoChunks (FileProcessor.content fileA))).
Proof.
  split; [split; [vm_compute; reflexivity | reflexivity]|].
  apply (stats_after_ingest allReply fileA oldGeneration);
    [vm_compute; reflexivity | reflexivity].
Defined.

(** ** The search *)

Section SearchFacts.

Variable env : Env.

Lemma now_logCall (c : Call) (w : World) : now (logCall c w) = S (now w).
Proof. unfold now, logCall. cbn [calls]. rewrite length_app. simpl. lia. Qed.

Lemma insertByDistance_perm (t : nat) (queryVector : list float)
    (r : DocumentChunk) (sorted : list DocumentChunk) :
  Permutation (insertByDistance env t queryVector r sorted) (r :: sorted).
Proof.
  induction sorted as [|r' rest IH]; cbn [insertByDistance];
    [apply Permutation_refl|].
  destruct (rankedBefore env t queryVector r' r); [|apply Permutation_refl].
  eapply Permutation_trans; [apply perm_skip; exact IH | apply perm_swap].
Qed.

Lemma orderByDistance_perm (t : nat) (queryVector : list float)
    (table : list DocumentChunk) :
  Permutation (orderByDistance env t queryVector table) table.
Proof.
  induction table as [|r table IH]; simpl; [constructor|].
  eapply Permutation_trans; [apply insertByDistance_perm|].
  apply perm_skip. exact IH.
Qed.

(** [searchSimilarChunks], step by step. *)
Lemma searchSimilarChunks_unfold (query : jsstring) (topK : Z) (w : World) :
  searchSimilarChunks env query topK w =
  match embedReply env (now w) query with
  | None => (Throw ProviderError, logCall (EmbedContent query) w)
  | Some values =>
      let w1 := logCall (EmbedContent query) w in
      if queryFails env (S (now w)) || (topK <? 0)
      then (Throw StoreError, logCall (Query (SelectSimilar values topK)) w1)
      else (Ok (map (resultOf env values)
                  (firstn (Z.to_nat topK)
                     (orderByDistance env (S (now w)) values (rows w)))),
            logCall (Query (SelectSimilar values topK)) w1)
  end.
Proof.
  unfold searchSimilarChunks. rewrite tryCatch_rethrow.
  unfold bind, embedContent, selectSimilar.
  destruct (embedReply env (now w) query) as [values|]; [|reflexivity].
  cbv zeta. rewrite now_logCall.
  destruct (queryFails env (S (now w)) || (topK <? 0)); reflexivity.
Qed.

End SearchFacts.

(** X11.  When [searchSimilarChunks] returns, the limit is not negative,
    the table is as it was, the number of results is the smaller of the
    limit and the number of rows, and the results are the first rows of
    a reordering of the table, each with an empty embedding and with
    similarity one minus its distance to the vector the model replied
    for the query. *)
Theorem search_results_of_table (env : Env) (query : jsstring) (topK : Z)
    (w w' : World) (found : list SearchResult) :
  searchSimilarChunks env query topK w = (Ok found, w') ->
  0 <= topK /\
  rows w' = rows w /\ nextId w' = nextId w /\
  length found = Nat.min (Z.to_nat topK) (length (rows w)) /\
  exists values ranked,
    embedReply env (now w) query = Some values /\
    Permutation ranked (rows w) /\
    found = map (resultOf env values) (firstn (Z.to_nat topK) ranked).
Proof.
  rewrite searchSimilarChunks_unfold.
  destruct (embedReply env (now w) query) as [values|]; [|discriminate].
  cbv zeta. destruct (queryFails env (S (now w))); [discriminate|].
  cbn [orb]. destruct (topK <? 0) eqn:E; [discriminate|].
  apply Z.ltb_ge in E. intros H. injection H as <- <-.
  pose proof (orderByDistance_perm env (S (now w)) values (rows w)) as P.
  split; [exact E|]. split; [reflexivity|]. split; [reflexivity|]. split.
  - rewrite length_map, length_firstn, (Permutation_length P). reflexivity.
  - exists values, (orderByDistance env (S (now w)) values (rows w)).
    split; [reflexivity|]. split; [exact P | reflexivity].
Qed.

Lemma search_results_of_table_witness :
  searchSimilarChunks nearAndFar aQuestion 4
    (logCall (Query SelectStats) twoSources) = (Ok nearResults, snd nearSearch) /\
  0 <= 4 /\
  rows (snd nearSearch) = rows (logCall (Query SelectStats) twoSources) /\
  length nearResults = 2%nat.
Proof.
  split; [vm_compute; reflexivity|].
  destruct (search_results_of_table nearAndFar aQuestion 4
              (logCall (Query SelectStats) twoSources) (snd nearSearch)
              nearResults) as [H1 [H2 [_ [H4 _]]]].
  - vm_compute. reflexivity.
  - split; [exact H1|]. split; [exact H2|]. exact H4.
Defined.

Section RankingFacts.

Variable env : Env.
Variable queryVector : list float.

Lemma tied_sym (a b : float) : tied a b = tied b a.
Proof. unfold tied. apply andb_comm. Qed.

(** Rankings that compare the rows of a list alike insert alike. *)
Lemma insertByDistance_agree (t t' : nat) (r : DocumentChunk)
    (sorted : list DocumentChunk) :
  Forall (fun r' => rankedBefore env t queryVector r' r =
                    rankedBefore env t' queryVector r' r) sorted ->
  insertByDistance env t queryVector r sorted =
  insertByDistance env t' queryVector r sorted.
Proof.
  induction 1 as [|r' rest H _ IH]; [reflexivity|].
  cbn [insertByDistance]. rewrite H, IH. reflexivity.
Qed.

Lemma orderByDistance_agree (t t' : nat) (table : list DocumentChunk) :
  ForallOrdPairs
    (fun r1 r2 => rankedBefore env t queryVector r2 r1 =
                  rankedBefore env t' queryVector r2 r1) table ->
  orderByDistance env t queryVector table =
  orderByDistance env t' queryVector table.
Proof.
  induction 1 as [|r table Hr _ IH]; [reflexivity|].
  unfold orderByDistance in *. cbn [fold_right]. rewrite <- IH.
  apply insertByDistance_agree.
  apply Forall_forall. intros r' Hin.
  rewrite Forall_forall in Hr. apply Hr.
  apply (Permutation_in r' (orderByDistance_perm env t queryVector table)).
  exact Hin.
Qed.

(** Without ties, and also when the database ranks ties alike in both
    calls, the two rankings are the same. *)
Lemma orderByDistance_stable (t t' : nat) (table : list DocumentChunk) :
  noTies env queryVector table \/
  (forall r, tieRank env t r = tieRank env t' r) ->
  orderByDistance env t queryVector table =
  orderByDistance env t' queryVector table.
Proof.
  intros H. apply orderByDistance_agree.
  destruct H as [N | S].
  - unfold noTies in N. induction N as [|r table Hr _ IH]; constructor;
      [|exact IH].
    revert Hr. apply Forall_impl. intros r' T.
    unfold rankedBefore. cbv zeta. rewrite tied_sym, T. reflexivity.
  - clear -S. induction table as [|r table IH]; constructor; [|exact IH].
    apply Forall_forall. intros r' _. unfold rankedBefore.
    rewrite !S. reflexivity.
Qed.

End RankingFacts.

(** X12.  Raising the limit by one extends the result, when the order
    of the rows is determined or the store is stable: on the same table
    and with the same reply of the embedding model, if no two rows are
    at distances that [ORDER BY] ranks alike, or if the database ranks
    such rows the same way in both queries, the results for [topK] are
    the first [topK] of the results for [topK + 1].  The statement
    names no second sort key, so that otherwise the two results need
    not agree. *)
Theorem search_prefix (env : Env) (query : jsstring) (topK : Z)
    (values : list float)
    (w1 w1' w2 w2' : World) (found more : list SearchResult) :
  rows w1 = rows w2 ->
  embedReply env (now w1) query = Some values ->
  embedReply env (now w2) query = Some values ->
  noTies env values (rows w1) \/
  (forall r, tieRank env (S (now w1)) r = tieRank env (S (now w2)) r) ->
  searchSimilarChunks env query topK w1 = (Ok found, w1') ->
  searchSimilarChunks env query (topK + 1) w2 = (Ok more, w2') ->
  found = firstn (Z.to_nat topK) more /\
  (length found <= length more <= S (length found))%nat.
Proof.
  intros R E1 E2 T. rewrite !searchSimilarChunks_unfold. rewrite E1, E2, <- R.
  cbv zeta.
  rewrite (orderByDistance_stable env values (S (now w1)) (S (now w2))
             (rows w1) T).
  destruct (queryFails env (S (now w1)) || (topK <? 0)) eqn:Q1; [discriminate|].
  destruct (queryFails env (S (now w2)) || (topK + 1 <? 0)); [discriminate|].
  apply orb_false_elim in Q1. destruct Q1 as [_ Q1]. apply Z.ltb_ge in Q1.
  intros H1 H2. injection H1 as <- _. injection H2 as <- _.
  replace (Z.to_nat (topK + 1)) with (S (Z.to_nat topK)) by lia.
  split.
  - rewrite firstn_map, firstn_firstn. f_equal. f_equal. lia.
  - rewrite !length_map, !length_firstn. lia.
Qed.

Lemma search_prefix_witness :
  (rows twoSources = rows twoSources /\
   embedReply nearAndFar (now twoSources) aQuestion = Some [0.5%float] /\
   noTies nearAndFar [0.5%float] (rows twoSources) /\
   topOne = (Ok (foundOf topOne), snd topOne) /\
   topTwo = (Ok (foundOf topTwo), snd topTwo)) /\
  foundOf topOne = firstn (Z.to_nat 1) (foundOf topTwo) /\
  (length (foundOf topOne) <= length (foundOf topTwo)
   <= S (length (foundOf topOne)))%nat.
Proof.
  assert (noTies nearAndFar [0.5%float] (rows twoSources)) as N.
  { unfold noTies. repeat constructor. }
  split.
  - split; [reflexivity|]. split; [reflexivity|]. split; [exact N|].
    split; vm_compute; reflexivity.
  - apply (search_prefix nearAndFar aQuestion 1 [0.5%float] twoSources
             (snd topOne) twoSources (snd topTwo) (foundOf topOne)
             (foundOf topTwo));
      [reflexivity | reflexivity | reflexivity | left; exact N
      | vm_compute; reflexivity | vm_compute; reflexivity].
Defined.

(** With ties that the database ranks differently from one query to the
    next the property fails: in [twoSources] with every row at the same
    distance, the first result for the limit 1 is row 2 while the
    results for the limit 2, asked one call later, start with row 1. *)
Example ties_can_break_the_prefix :
  map (fun r => id (chunk r))
    (foundOf (searchSimilarChunks fickle aQuestion 1 twoSources)) = [2] /\
  map (fun r => id (chunk r))
    (foundOf (searchSimilarChunks fickle aQuestion (1 + 1)
                (logCall (Query SelectStats) twoSources))) = [1; 2].
Proof. vm_compute. split; reflexivity. Qed.

(** ** The answers of [askQuestion] *)

Section AskFacts.

Variable env : Env.

Lemma searchSimilarChunks_world (query : jsstring) (topK : Z) (w : World) :
  rows (snd (searchSimilarChunks env query topK w)) = rows w /\
  nextId (snd (searchSimilarChunks env query topK w)) = nextId w /\
  (exists values,
     calls (snd (searchSimilarChunks env query topK w)) =
     calls w ++ [EmbedContent query; Query (SelectSimilar values topK)]) \/
  rows (snd (searchSimilarChunks env query topK w)) = rows w /\
  nextId (snd (searchSimilarChunks env query topK w)) = nextId w /\
  calls (snd (searchSimilarChunks env query topK w)) =
    calls w ++ [EmbedContent query] /\
  exists e, fst (searchSimilarChunks env query topK w) = Throw e.
Proof.
  unfold searchSimilarChunks. rewrite tryCatch_rethrow.
  unfold bind, embedContent, selectSimilar.
  destruct (embedReply env (now w) query) as [values|].
  - left.
    destruct (queryFails env (now (logCall (EmbedContent query) w))
              || (topK <? 0));
      cbn [fst snd rows nextId calls logCall]; rewrite <- app_assoc;
      (split; [reflexivity|]); (split; [reflexivity|]);
      exists values; reflexivity.
  - right. cbn [fst snd rows nextId calls logCall].
    repeat split. exists ProviderError. reflexivity.
Qed.

End AskFacts.

(** X13.  [askQuestion] never throws and never changes the table: it
    returns one of its three fixed sentences, or else the search it
    made returned a result that is not empty and whose first similarity
    is not below the threshold, the generative model replied to the
    prompt built from that result, and the text returned is that reply
    followed by the list of the sources of that result. *)
Theorem askQuestion_always_answers (env : Env) (question : jsstring)
    (maxResults : Z) (w : World) :
  exists text,
    fst (askQuestion env question maxResults w) = Ok text /\
    rows (snd (askQuestion env question maxResults w)) = rows w /\
    nextId (snd (askQuestion env question maxResults w)) = nextId w /\
    (text = noDocuments \/ text = noRelevantInformation \/
     text = errorOccurred \/
     exists found w1 answer,
       searchSimilarChunks env question maxResults
         (logCall (Query SelectStats) w) = (Ok found, w1) /\
       found <> [] /\ belowThreshold found = false /\
       generateReply env (now w1) (promptOf (contextOf found) question)
         = Some answer /\
       text = answer ++ sourceInfoOf (sourcesOf found)).
Proof.
  rewrite askQuestion_unfold. cbv zeta.
  destruct (queryFails env (now w) || (Z.of_nat (length (rows w)) =? 0)).
  - exists noDocuments. repeat split. left. reflexivity.
  - pose proof (searchSimilarChunks_world env question maxResults
                  (logCall (Query SelectStats) w)) as S.
    destruct (searchSimilarChunks env question maxResults
                (logCall (Query SelectStats) w)) as [[found|e] w1].
    + cbn [fst snd] in S.
      assert (rows w1 = rows w /\ nextId w1 = nextId w) as [R N]
        by (destruct S as [[R [N _]]|[R [N _]]]; split; assumption).
      destruct (belowThreshold found) eqn:B.
      * exists noRelevantInformation. repeat split; try assumption.
        right. left. reflexivity.
      * destruct (generateReply env (now w1)
                    (promptOf (contextOf found) question)) as [answer|] eqn:G.
        -- exists (answer ++ sourceInfoOf (sourcesOf found)).
           repeat split; try assumption.
           right. right. right. exists found, w1, answer.
           split; [reflexivity|]. split; [intros ->; discriminate|].
           split; [exact B|]. split; [exact G | reflexivity].
        -- exists errorOccurred. repeat split; try assumption.
           right. right. left. reflexivity.
    + cbn [fst snd] in S.
      assert (rows w1 = rows w /\ nextId w1 = nextId w) as [R N]
        by (destruct S as [[R [N _]]|[R [N _]]]; split; assumption).
      exists errorOccurred. repeat split; try assumption.
      right. right. left. reflexivity.
Qed.

(** X14.  The calls of [askQuestion] are a prefix of: the statistics
    query, the embedding of the question, the similarity query with the
    limit given, and one call of the generative model with the prompt
    built from the results found.  The model is called only after a
    search that returned, and no call is made twice. *)
Theorem askQuestion_calls_in_order (env : Env) (question : jsstring)
    (maxResults : Z) (w : World) :
  let made := callsSince w (snd (askQuestion env question maxResults w)) in
  made = [Query SelectStats] \/
  made = [Query SelectStats; EmbedContent question] \/
  (exists values,
     made = [Query SelectStats; EmbedContent question;
             Query (SelectSimilar values maxResults)]) \/
  (exists values found,
     fst (searchSimilarChunks env question maxResults
            (logCall (Query SelectStats) w)) = Ok found /\
     made = [Query SelectStats; EmbedContent question;
             Query (SelectSimilar values maxResults);
             GenerateContent (promptOf (contextOf found) question)]).
Proof.
  intros made. subst made. rewrite askQuestion_unfold. cbv zeta.
  assert (forall cs, skipn (length (calls w)) (calls w ++ cs) = cs) as K
    by (intros cs; rewrite skipn_app, skipn_all, Nat.sub_diag; reflexivity).
  destruct (queryFails env (now w) || (Z.of_nat (length (rows w)) =? 0)).
  - left. unfold callsSince. cbn [snd logCall calls]. apply K.
  - pose proof (searchSimilarChunks_world env question maxResults
                  (logCall (Query SelectStats) w)) as S.
    destruct (searchSimilarChunks env question maxResults
                (logCall (Query SelectStats) w)) as [[found|e] w1].
    + cbn [fst snd] in S.
      destruct S as [[_ [_ [values C]]]|[_ [_ [_ [e E]]]]]; [|discriminate].
      cbn [logCall calls] in C. rewrite <- app_assoc in C. cbn [app] in C.
      destruct (belowThreshold found).
      * right. right. left. exists values. unfold callsSince. cbn [snd].
        rewrite C. apply K.
      * right. right. right. exists values, found. split; [reflexivity|].
        destruct (generateReply env (now w1)
                    (promptOf (contextOf found) question));
          unfold callsSince; cbn [snd logCall calls]; rewrite C;
          rewrite <- app_assoc; cbn [app]; apply K.
    + cbn [fst snd] in S. unfold callsSince. cbn [snd].
      destruct S as [[_ [_ [values C]]]|[_ [_ [C _]]]];
        cbn [logCall calls] in C; rewrite <- app_assoc in C; cbn [app] in C;
        rewrite C, K.
      * right. right. left. exists values. reflexivity.
      * right. left. reflexivity.
Qed.

(** X15.  On a table that is not empty and whose statistics query
    succeeds, a search that throws, or a generative model that throws
    for a result that passes the threshold, is answered by the error
    sentence, which differs from the two other fixed sentences. *)
Theorem failure_gives_error_sentence (env : Env) (question : jsstring)
    (maxResults : Z) (w : World) :
  queryFails env (now w) = false -> rows w <> [] ->
  let w0 := logCall (Query SelectStats) w in
  ((exists e, fst (searchSimilarChunks env question maxResults w0) = Throw e) \/
   (exists found,
      fst (searchSimilarChunks env question maxResults w0) = Ok found /\
      belowThreshold found = false /\
      generateReply env
        (now (snd (searchSimilarChunks env question maxResults w0)))
        (promptOf (contextOf found) question) = None)) ->
  fst (askQuestion env question maxResults w) = Ok errorOccurred /\
  eqb_str errorOccurred noDocuments = false /\
  eqb_str errorOccurred noRelevantInformation = false.
Proof.
  intros Q R w0 H. split; [|split; vm_compute; reflexivity].
  rewrite askQuestion_unfold. cbv zeta. rewrite Q.
  destruct (rows w) as [|r t]; [contradiction|]. cbn [orb length].
  replace (Z.of_nat (S (length t)) =? 0) with false
    by (symmetry; apply Z.eqb_neq; lia).
  fold w0.
  destruct (searchSimilarChunks env question maxResults w0) as [[found|e] w1].
  - destruct H as [[e E]|[found' [E [B G]]]]; [discriminate|].
    cbn [fst snd] in *. injection E as <-. rewrite B, G. reflexivity.
  - reflexivity.
Qed.

Lemma failure_gives_error_sentence_witness :
  (queryFails (embedFailsAt 1) (now twoSources) = false /\
   rows twoSources <> [] /\
   fst (searchSimilarChunks (embedFailsAt 1) aQuestion 4
          (logCall (Query SelectStats) twoSources)) = Throw ProviderError) /\
  fst (askQuestion (embedFailsAt 1) aQuestion 4 twoSources) = Ok errorOccurred /\
  eqb_str errorOccurred noDocuments = false /\
  eqb_str errorOccurred noRelevantInformation = false.
Proof.
  split; [split; [reflexivity|]; split; [discriminate|]; vm_compute; reflexivity|].
  apply (failure_gives_error_sentence (embedFailsAt 1) aQuestion 4 twoSources).
  - reflexivity.
  - discriminate.
  - left. exists ProviderError. vm_compute. reflexivity.
Defined.

(** X16.  A limit of 0 or less never reaches the generative model.
    On a table that is not empty, once the question is embedded, the
    answer is the error sentence when the limit is negative or the
    similarity query fails, and the no-relevant-information sentence
    for the limit 0; three calls are made, the last one the similarity
    query. *)
Theorem maxResults_edges (env : Env) (question : jsstring) (maxResults : Z)
    (w : World) (values : list float) :
  queryFails env (now w) = false -> rows w <> [] ->
  embedReply env (S (now w)) question = Some values ->
  maxResults <= 0 ->
  fst (askQuestion env question maxResults w) =
    Ok (if (maxResults <? 0) || queryFails env (S (S (now w)))
        then errorOccurred else noRelevantInformation) /\
  callsSince w (snd (askQuestion env question maxResults w)) =
    [Query SelectStats; EmbedContent question;
     Query (SelectSimilar values maxResults)].
Proof.
  intros Q R E L.
  assert (forall cs, skipn (length (calls w)) (calls w ++ cs) = cs) as K
    by (intros cs; rewrite skipn_app, skipn_all, Nat.sub_diag; reflexivity).
  rewrite askQuestion_unfold. cbv zeta. rewrite Q.
  destruct (rows w) as [|r t] eqn:Rw; [contradiction|]. cbn [orb length].
  replace (Z.of_nat (S (length t)) =? 0) with false
    by (symmetry; apply Z.eqb_neq; lia).
  unfold searchSimilarChunks. rewrite tryCatch_rethrow.
  unfold bind, embedContent, selectSimilar.
  assert (now (logCall (Query SelectStats) w) = S (now w)) as N1
    by (unfold now, logCall; cbn [calls]; rewrite length_app; simpl; lia).
  rewrite N1, E.
  assert (now (logCall (EmbedContent question)
                 (logCall (Query SelectStats) w)) = S (S (now w))) as N2
    by (unfold now, logCall; cbn [calls]; rewrite !length_app; simpl; lia).
  rewrite N2. rewrite orb_comm.
  unfold callsSince.
  destruct ((maxResults <? 0) || queryFails env (S (S (now w)))) eqn:F.
  - cbn [fst snd logCall calls]. rewrite <- !app_assoc. cbn [app].
    rewrite K. split; reflexivity.
  - apply orb_false_elim in F. destruct F as [F _]. apply Z.ltb_ge in F.
    assert (maxResults = 0) by lia. subst maxResults.
    cbn [Z.to_nat firstn map belowThreshold fst snd logCall calls].
    rewrite <- !app_assoc. cbn [app]. rewrite K. split; reflexivity.
Qed.

Lemma maxResults_edges_witness :
  (queryFails allReply (now twoSources) = false /\ rows twoSources <> [] /\
   embedReply allReply (S (now twoSources)) aQuestion = Some [0.5%float] /\
   0 <= 0) /\
  fst (askQuestion allReply aQuestion 0 twoSources) =
    Ok (if (0 <? 0) || queryFails allReply (S (S (now twoSources)))
        then errorOccurred else noRelevantInformation) /\
  callsSince twoSources (snd (askQuestion allReply aQuestion 0 twoSources)) =
    [Query SelectStats; EmbedContent aQuestion;
     Query (SelectSimilar [0.5%float] 0)].
Proof.
  split; [split; [reflexivity|]; split; [discriminate|]; split;
          [reflexivity | lia]|].
  apply (maxResults_edges allReply aQuestion 0 twoSources [0.5%float]).
  - reflexivity.
  - discriminate.
  - reflexivity.
  - lia.
Defined.

(** ** The [query] and [interactive] commands *)

Import Commands.

Section CommandsFacts.

Variable env : Env.

(** [askQuestion] returns a text and leaves the table as it was. *)
Lemma askQuestion_reads (question : jsstring) (maxResults : Z) (w : World) :
  exists text,
    fst (askQuestion env question maxResults w) = Ok text /\
    rows (snd (askQuestion env question maxResults w)) = rows w /\
    nextId (snd (askQuestion env question maxResults w)) = nextId w.
Proof.
  rewrite askQuestion_unfold. cbv zeta.
  destruct (queryFails env (now w) || (Z.of_nat (length (rows w)) =? 0)).
  - exists noDocuments. repeat split.
  - pose proof (searchSimilarChunks_world env question maxResults
                  (logCall (Query SelectStats) w)) as S.
    destruct (searchSimilarChunks env question maxResults
                (logCall (Query SelectStats) w)) as [[found|e] w1];
      cbn [fst snd] in S;
      assert (rows w1 = rows w /\ nextId w1 = nextId w) as [R N]
        by (destruct S as [[R [N _]]|[R [N _]]]; split; assumption).
    + destruct (belowThreshold found).
      * exists noRelevantInformation. repeat split; assumption.
      * destruct (generateReply env (now w1)
                    (promptOf (contextOf found) question)) as [answer|];
          eexists; repeat split; assumption.
    + exists errorOccurred. repeat split; assumption.
Qed.

Lemma queryCommand_unfold (connects : bool) (question : jsstring)
    (w : World) :
  queryCommand env connects question w =
  if connects then
    let w0 := logCall (Query SelectStats) w in
    if queryFails env (now w) || (Z.of_nat (length (rows w)) =? 0)
    then (Ok NoDocumentsFound, w0)
    else match askQuestion env question 4 w0 with
         | (Ok answer, w1) => (Ok (Answered answer), w1)
         | (Throw _, w1) => (Ok QueryFailed, w1)
         end
  else (Ok QueryFailed, w).
Proof.
  unfold queryCommand, tryCatch. unfold bind at 1. unfold connect.
  destruct connects; [|reflexivity].
  unfold bind at 1. rewrite getStats_unfold. cbv zeta.
  destruct (queryFails env (now w)); [reflexivity|]. cbn [orb totalChunks].
  destruct (Z.of_nat (length (rows w)) =? 0); [reflexivity|].
  unfold bind.
  destruct (askQuestion env question 4 (logCall (Query SelectStats) w))
    as [[answer|e] w1]; reflexivity.
Qed.

Variable toLowerCase : jsstring -> jsstring.

(** One turn of the loop. *)
Lemma askLoop_cons (question : jsstring) (rest : list jsstring) (w : World) :
  askLoop env toLowerCase (question :: rest) w =
  if len (trim question) =? 0 then
    match askLoop env toLowerCase rest w with
    | (Ok shown, w') => (Ok (PleaseEnterAQuestion :: shown), w')
    | (Throw e, w') => (Throw e, w')
    end
  else if isQuit toLowerCase question then (Ok [Thanks], w)
  else
    match askQuestion env question 4 w with
    | (Ok answer, w1) =>
        match askLoop env toLowerCase rest w1 with
        | (Ok shown, w') => (Ok (AnswerShown answer :: shown), w')
        | (Throw e, w') => (Throw e, w')
        end
    | (Throw _, w1) =>
        match askLoop env toLowerCase rest w1 with
        | (Ok shown, w') => (Ok (ErrorProcessingQuestion :: shown), w')
        | (Throw e, w') => (Throw e, w')
        end
    end.
Proof.
  cbn [askLoop].
  destruct (len (trim question) =? 0).
  - unfold bind.
    destruct (askLoop env toLowerCase rest w) as [[shown|e] w']; reflexivity.
  - destruct (isQuit toLowerCase question); [reflexivity|].
    unfold bind, tryCatch.
    destruct (askQuestion env question 4 w) as [[answer|e] w1]; cbn [ret];
      destruct (askLoop env toLowerCase rest w1) as [[shown|e'] w'];
      reflexivity.
Qed.

(** The session over lines none of which quits, followed by the rest. *)
Lemma askLoop_app (before rest : list jsstring) :
  Forall (fun line => quits toLowerCase line = false) before ->
  forall w, exists shown w1,
    sessionReplies env w before shown w1 /\
    rows w1 = rows w /\ nextId w1 = nextId w /\
    askLoop env toLowerCase (before ++ rest) w =
    match askLoop env toLowerCase rest w1 with
    | (Ok shown', w') => (Ok (shown ++ shown'), w')
    | (Throw e, w') => (Throw e, w')
    end.
Proof.
  induction 1 as [|line before Hl Hb IH]; intros w.
  - exists [], w. split; [constructor|]. split; [reflexivity|].
    split; [reflexivity|]. cbn [app].
    destruct (askLoop env toLowerCase rest w) as [[s|e] w']; reflexivity.
  - cbn [app]. rewrite askLoop_cons. unfold quits in Hl.
    destruct (len (trim line) =? 0) eqn:B.
    + destruct (IH w) as [shown [w1 [F [R [N E]]]]].
      exists (PleaseEnterAQuestion :: shown), w1.
      split; [apply replies_blank; [apply Z.eqb_eq; exact B | exact F]|].
      split; [exact R|]. split; [exact N|]. rewrite E.
      destruct (askLoop env toLowerCase rest w1) as [[s|e] w']; reflexivity.
    + cbn [negb andb] in Hl. rewrite Hl.
      destruct (askQuestion_reads line 4 w) as [text [T [R0 N0]]].
      destruct (askQuestion env line 4 w) as [o w0] eqn:A.
      cbn [fst snd] in *. subst o.
      destruct (IH w0) as [shown [w1 [F [R [N E]]]]].
      exists (AnswerShown text :: shown), w1.
      split.
      { apply (replies_answer env w line before text w0);
          [apply Z.eqb_neq; exact B | exact A | exact F]. }
      split; [congruence|]. split; [congruence|]. rewrite E.
      destruct (askLoop env toLowerCase rest w1) as [[s|e] w']; reflexivity.
Qed.

Lemma interactiveCommand_unfold (connects : bool) (lines : list jsstring)
    (w : World) :
  interactiveCommand env connects toLowerCase lines w =
  if connects then
    let w0 := logCall (Query SelectStats) w in
    if queryFails env (now w) || (Z.of_nat (length (rows w)) =? 0)
    then (Ok NoDocumentsInDatabase, w0)
    else match askLoop env toLowerCase lines w0 with
         | (Ok shown, w1) => (Ok (Session shown), w1)
         | (Throw _, w1) => (Ok FailedToStart, w1)
         end
  else (Ok FailedToStart, w).
Proof.
  unfold interactiveCommand, tryCatch. unfold bind at 1. unfold connect.
  destruct connects; [|reflexivity].
  unfold bind at 1. rewrite getStats_unfold. cbv zeta.
  destruct (queryFails env (now w)); [reflexivity|]. cbn [orb totalChunks].
  destruct (Z.of_nat (length (rows w)) =? 0); [reflexivity|].
  unfold bind.
  destruct (askLoop env toLowerCase lines (logCall (Query SelectStats) w))
    as [[shown|e] w1]; reflexivity.
Qed.

End CommandsFacts.

Section CommandsTheorems.

(** X25.  The [query] command.  When the connection fails it reports a
    failed query and makes no call.  Once connected it asks for the
    statistics twice: when the first query fails or the table is empty
    it reports that no documents were found and makes no other call;
    otherwise it shows as the answer what [askQuestion] returns, with
    the default limit 4, in the world after that first query, so that a
    second statistics query that fails is shown as the answer that no
    documents have been ingested.  Once connected it never reports a
    failed query, and it never changes the table. *)
Theorem queryCommand_reports (env : Env) (connects : bool)
    (question : jsstring) (w : World) :
  let w0 := logCall (Query SelectStats) w in
  let run := queryCommand env connects question w in
  rows (snd run) = rows w /\
  (fst run = Ok QueryFailed <-> connects = false) /\
  (connects = false -> snd run = w) /\
  (connects = true ->
   (queryFails env (now w) = true \/ rows w = [] ->
    run = (Ok NoDocumentsFound, w0)) /\
   (queryFails env (now w) = false -> rows w <> [] ->
    exists text,
      askQuestion env question 4 w0 = (Ok text, snd run) /\
      fst run = Ok (Answered text) /\
      (queryFails env (S (now w)) = true ->
       text = noDocuments /\
       callsSince w (snd run) = [Query SelectStats; Query SelectStats]))).
Proof.
  intros w0 run. subst run. rewrite queryCommand_unfold.
  destruct connects.
  2:{ cbn [fst snd]. split; [reflexivity|]. split; [tauto|].
      split; [reflexivity | discriminate]. }
  cbv zeta. fold w0.
  destruct (askQuestion_reads env question 4 w0) as [text [T [R N]]].
  destruct (queryFails env (now w)) eqn:Q.
  - cbn [orb fst snd]. split; [reflexivity|].
    split; [split; discriminate|]. split; [discriminate|]. intros _.
    split; [reflexivity | discriminate].
  - cbn [orb]. destruct (rows w) as [|r t] eqn:Rw.
    + change (Z.of_nat (length (@nil DocumentChunk)) =? 0) with true.
      cbn [fst snd]. split; [exact Rw|].
      split; [split; discriminate|]. split; [discriminate|]. intros _.
      split; [reflexivity|]. intros _ C.
      exfalso. apply C. reflexivity.
    + replace (Z.of_nat (length (r :: t)) =? 0) with false
        by (symmetry; apply Z.eqb_neq; cbn [length]; lia).
      pose proof (askQuestion_unfold env question 4 w0) as U.
      destruct (askQuestion env question 4 w0) as [o w1] eqn:A.
      cbn [fst snd] in T, R, N. subst o. cbn [fst snd].
      split; [rewrite R; exact Rw|].
      split; [split; discriminate|]. split; [discriminate|]. intros _.
      split; [intros [C|C]; discriminate|]. intros _ _.
      exists text. split; [reflexivity|]. split; [reflexivity|].
      intros Q2. cbv zeta in U.
      assert (now w0 = S (now w)) as Nw.
      { unfold w0, now, logCall. cbn [calls]. rewrite length_app.
        cbn [length]. lia. }
      rewrite Nw, Q2 in U. cbn [orb] in U. injection U as -> ->.
      split; [reflexivity|].
      unfold callsSince, w0, logCall. cbn [calls].
      rewrite <- app_assoc, skipn_app, skipn_all, Nat.sub_diag.
      reflexivity.
Qed.

(** X26.  The interactive session.  When the connection fails the
    command reports that the session failed to start, and when the
    first statistics query fails or the table is empty it reports that
    the database holds no documents; no line is read in either case.
    Otherwise every line before the first one that quits gets one
    reply, in order: the request to enter a question for a blank line,
    and for any other line exactly what [askQuestion] returns for it,
    with the default limit 4, in the world the lines before it left;
    the error message is never shown, since [askQuestion] does not
    throw.  A line that quits is answered by the thanks, and the lines
    after it are not read.  The table is never changed. *)
Theorem interactive_session (env : Env) (connects : bool)
    (toLowerCase : jsstring -> jsstring)
    (before rest : list jsstring) (w : World) :
  Forall (fun line => quits toLowerCase line = false) before ->
  match rest with
  | [] => True
  | line :: _ => quits toLowerCase line = true
  end ->
  let w0 := logCall (Query SelectStats) w in
  let run := interactiveCommand env connects toLowerCase (before ++ rest) w in
  rows (snd run) = rows w /\
  (connects = false -> run = (Ok FailedToStart, w)) /\
  (connects = true ->
   (queryFails env (now w) = true \/ rows w = [] ->
    run = (Ok NoDocumentsInDatabase, w0)) /\
   (queryFails env (now w) = false -> rows w <> [] ->
    exists shown,
      sessionReplies env w0 before shown (snd run) /\
      fst run =
        Ok (Session (shown ++ match rest with
                              | [] => []
                              | _ => [Thanks]
                              end)))).
Proof.
  intros Hb Hr w0 run. subst run. rewrite interactiveCommand_unfold.
  destruct connects.
  2:{ cbn [fst snd]. split; [reflexivity|]. split; [reflexivity|].
      discriminate. }
  cbv zeta. fold w0.
  destruct (queryFails env (now w)) eqn:Q.
  - cbn [orb fst snd logCall rows].
    split; [reflexivity|]. split; [discriminate|]. intros _.
    split; [reflexivity | discriminate].
  - cbn [orb]. destruct (rows w) as [|r t] eqn:Rw.
    + change (Z.of_nat (length (@nil DocumentChunk)) =? 0) with true.
      cbn [fst snd logCall rows].
      split; [exact Rw|]. split; [discriminate|]. intros _.
      split; [reflexivity|].
      intros _ C. exfalso. apply C. reflexivity.
    + replace (Z.of_nat (length (r :: t)) =? 0) with false
        by (symmetry; apply Z.eqb_neq; cbn [length]; lia).
      destruct (askLoop_app env toLowerCase before rest Hb w0)
        as [shown [w1 [F [R [N E]]]]].
      rewrite E.
      assert (askLoop env toLowerCase rest w1 =
              (Ok match rest with [] => [] | _ => [Thanks] end, w1)) as L.
      { destruct rest as [|line rest]; [reflexivity|].
        rewrite askLoop_cons. unfold quits in Hr.
        apply andb_true_iff in Hr. destruct Hr as [H1 H2].
        apply negb_true_iff in H1. rewrite H1, H2. reflexivity. }
      rewrite L. cbn [fst snd].
      split; [rewrite R; exact Rw|]. split; [discriminate|]. intros _.
      split; [intros [C|C]; discriminate|]. intros _ _.
      exists shown. split; [exact F | reflexivity].
Qed.

Lemma interactive_session_witness :
  (Forall (fun line => quits asciiLower line = false) sessionBefore /\
   match sessionRest with
   | [] => True
   | line :: _ => quits asciiLower line = true
   end) /\
  let w0 := logCall (Query SelectStats) twoSources in
  let run :=
    interactiveCommand nearAndFar true asciiLower
      (sessionBefore ++ sessionRest) twoSources in
  rows (snd run) = rows twoSources /\
  (true = false -> run = (Ok FailedToStart, twoSources)) /\
  (true = true ->
   (queryFails nearAndFar (now twoSources) = true \/ rows twoSources = [] ->
    run = (Ok NoDocumentsInDatabase, w0)) /\
   (queryFails nearAndFar (now twoSources) = false ->
    rows twoSources <> [] ->
    exists shown,
      sessionReplies nearAndFar w0 sessionBefore shown (snd run) /\
      fst run =
        Ok (Session (shown ++ match sessionRest with
                              | [] => []
                              | _ => [Thanks]
                              end)))).
Proof.
  split; [split; [repeat constructor | vm_compute; reflexivity]|].
  apply (interactive_session nearAndFar true asciiLower sessionBefore
           sessionRest twoSources);
    [repeat constructor | vm_compute; reflexivity].
Defined.

End CommandsTheorems.

(** ** Text of a JSON document *)

Import FileProcessor.
Import JsonDocument.

Section JsonTheorems.

#[local] Arguments lit : simpl never.

Lemma extractText_emitted (data : json) :
  forall (prefix : jsstring) (parts : list jsstring),
    extractText data prefix parts = parts ++ emitted data.
Proof.
  induction data as [| b | x | s | items IH | entries IH]
    using json_nested_ind; intros prefix parts.
  - simpl. rewrite app_nil_r. reflexivity.
  - simpl. rewrite app_nil_r. reflexivity.
  - simpl. rewrite app_nil_r. reflexivity.
  - reflexivity.
  - cbn [extractText emitted]. generalize O. revert parts.
    induction IH as [|item rest Hitem _ IHrest]; intros parts index.
    + simpl. rewrite app_nil_r. reflexivity.
    + simpl. rewrite IHrest, Hitem, app_assoc. reflexivity.
  - cbn [extractText emitted]. revert parts.
    induction IH as [|[key value] rest Hentry _ IHrest]; intros parts.
    + simpl. rewrite app_nil_r. reflexivity.
    + cbn [snd] in Hentry. simpl.
      rewrite IHrest, app_assoc. f_equal.
      destruct value as [| b | x | s | items | entries];
        try apply Hentry.
      destruct (len s >? 10); [reflexivity|].
      apply Hentry.
Qed.

Lemma define_fresh (props : list (jsstring * json)) (key : jsstring)
    (value : json) :
  existsb (eqb_str key) (map fst props) = false ->
  define props key value = props ++ [(key, value)].
Proof.
  induction props as [|[k v] rest IH]; intros H; [reflexivity|].
  cbn [map fst existsb] in H. apply orb_false_elim in H.
  destruct H as [H1 H2]. cbn [define app].
  assert (eqb_str k key = false) as ->.
  { apply eqb_str_false. apply eqb_str_false in H1. congruence. }
  rewrite (IH H2). reflexivity.
Qed.

(** The properties [JSON.parse] creates for members without a repeated
    key, after those it has created already. *)
Lemma each_fresh (members : list (jsstring * document)) :
  forall props,
    noRepeat (map fst props ++ map fst members) = true ->
    (fix each (members : list (jsstring * document))
         (props : list (jsstring * json)) : list (jsstring * json) :=
       match members with
       | [] => props
       | (key, value) :: rest => each rest (define props key (parse value))
       end) members props =
    props ++ map (fun member => (fst member, parse (snd member))) members.
Proof.
  induction members as [|[key value] rest IH]; intros props H.
  - rewrite app_nil_r. reflexivity.
  - assert (existsb (eqb_str key) (map fst props) = false) as F.
    { clear IH. induction props as [|[k v] ps IHp]; [reflexivity|].
      cbn [map fst app noRepeat] in H. apply andb_true_iff in H.
      destruct H as [H1 H2]. apply negb_true_iff in H1.
      rewrite existsb_app in H1. apply orb_false_elim in H1.
      destruct H1 as [_ H1]. cbn [map fst existsb] in H1.
      apply orb_false_elim in H1. destruct H1 as [H1 _].
      cbn [map fst existsb].
      assert (eqb_str key k = false) as ->.
      { apply eqb_str_false. apply eqb_str_false in H1. congruence. }
      apply IHp. exact H2. }
    rewrite (define_fresh props key (parse value) F).
    rewrite IH.
    + rewrite <- app_assoc. reflexivity.
    + rewrite map_app. cbn [map fst]. rewrite <- app_assoc. exact H.
Qed.

Lemma ownEntries_named (props : list (jsstring * json)) :
  Forall (fun entry => arrayIndex (fst entry) = None) props ->
  ownEntries props = props.
Proof.
  intros F. unfold ownEntries.
  assert (indexed props = []) as ->.
  { induction F as [|[k v] rest Hk _ IH]; [reflexivity|].
    cbn [indexed]. cbn [fst] in Hk. rewrite Hk. exact IH. }
  cbn [map app]. unfold named. apply filter_all.
  revert F. apply Forall_impl. intros [k v] H. rewrite H. reflexivity.
Qed.

(** On a document with plain keys the parsed value lists what the
    document holds in the order it is written. *)
Lemma emitted_parse (d : document) :
  plainKeys d = true -> emitted (parse d) = written d.
Proof.
  induction d as [| b | x | s | items IH | members IH]
    using document_nested_ind; intros H; try reflexivity.
  - cbn [parse emitted written plainKeys] in *.
    induction IH as [|item rest Hitem _ IHrest]; [reflexivity|].
    cbn [forallb] in H. apply andb_true_iff in H. destruct H as [H1 H2].
    cbn [map flat_map]. rewrite (Hitem H1), (IHrest H2). reflexivity.
  - cbn [plainKeys] in H. apply andb_true_iff in H. destruct H as [N K].
    cbn [parse]. rewrite (each_fresh members [] N). cbn [app].
    rewrite ownEntries_named.
    2:{ apply Forall_map. clear IH N.
        induction members as [|[k v] rest IHm]; constructor.
        - cbn [fst forallb] in *. apply andb_true_iff in K.
          destruct K as [K _]. destruct (arrayIndex k); [discriminate|].
          reflexivity.
        - apply IHm. cbn [forallb] in K. apply andb_true_iff in K.
          apply K. }
    cbn [emitted written]. clear N.
    induction IH as [|[k v] rest Hm _ IHrest]; [reflexivity|].
    cbn [forallb] in K. apply andb_true_iff in K. destruct K as [K1 K2].
    cbn [map flat_map fst snd]. rewrite (IHrest K2). f_equal.
    cbn [snd] in Hm.
    assert (plainKeys v = true) as Pv
      by (destruct (arrayIndex k); [discriminate | exact K1]).
    destruct v as [| b | x | s | items | ms]; try reflexivity;
      apply (Hm Pv).
Qed.

(** C10, amended.  [extractTextFromJson] is a function of the parsed
    value: it returns what a depth-first walk emits, joined by two
    newlines, the entries of an object taken in the order
    [Object.entries] lists them.  An object entry whose value is a
    string of more than 10 code units is emitted as "key: value", every
    other string (an element of an array, a string of at most 10 code
    units, a string at the top) as it is, and a value without strings
    gives the empty string.  For a document in which no object has a key
    that is an array index or a key written twice this is the order in
    which the document is written. *)
Theorem extractTextFromJson_emitted (data : json) :
  extractTextFromJson data = join [10; 10]%N (emitted data) /\
  (forall s, emitted (JString s) = [s]) /\
  (forall items, emitted (JArray items) = flat_map emitted items) /\
  (forall key s rest,
     emitted (JObject ((key, JString s) :: rest)) =
     (if len s >? 10 then key ++ lit ": " ++ s else s)
     :: emitted (JObject rest)) /\
  (forall key value rest,
     (forall s, value <> JString s) ->
     emitted (JObject ((key, value) :: rest)) =
     emitted value ++ emitted (JObject rest)) /\
  emitted JNull = [] /\ (forall b, emitted (JBool b) = []) /\
  (forall x, emitted (JNumber x) = []) /\
  emitted (JArray []) = [] /\ emitted (JObject []) = [] /\
  (emitted data = [] -> extractTextFromJson data = []) /\
  (forall d, plainKeys d = true ->
             extractTextFromJson (parse d) = join [10; 10]%N (written d)).
Proof.
  assert (forall v, extractTextFromJson v = join [10; 10]%N (emitted v)) as E.
  { intros v. unfold extractTextFromJson. cbv zeta.
    rewrite (extractText_emitted v [] []). reflexivity. }
  split; [apply E|]. repeat split; try reflexivity.
  - intros key s rest. cbn [emitted flat_map].
    destruct (len s >? 10); reflexivity.
  - intros key value rest N. cbn [emitted flat_map].
    destruct value as [| b | x | s | items | entries]; try reflexivity.
    exfalso. apply (N s). reflexivity.
  - intros H. rewrite E, H. reflexivity.
  - intros d P. rewrite E, (emitted_parse d P). reflexivity.
Qed.

Lemma extractTextFromJson_emitted_witness :
  plainKeys plainDocument = true /\
  extractTextFromJson (parse plainDocument) =
    join [10; 10]%N (written plainDocument) /\
  written plainDocument = [lit "title: A long enough title"; lit "x"].
Proof.
  split; [reflexivity|]. split; [|reflexivity].
  apply (extractTextFromJson_emitted (parse plainDocument)). reflexivity.
Defined.

(** C10 as stated fails: the walk is not in the order of the document
    when an object has a key that is an array index.  [JSON.parse] of
    {"b": "beta", "1": "one"} lists the entry "1" first, and the text
    extracted is "one", then "beta". *)
Lemma index_key_comes_first :
  plainKeys indexKeyDocument = false /\
  written indexKeyDocument = [lit "beta"; lit "one"] /\
  parse indexKeyDocument =
    JObject [(lit "1", JString (lit "one")); (lit "b", JString (lit "beta"))] /\
  extractTextFromJson (parse indexKeyDocument) =
    lit "one" ++ [10; 10]%N ++ lit "beta" /\
  join [10; 10]%N (written indexKeyDocument) =
    lit "beta" ++ [10; 10]%N ++ lit "one".
Proof. vm_compute. repeat split; reflexivity. Qed.

Example extractTextFromJson_sample :
  extractTextFromJson sampleJson =
  lit "title: A long enough title" ++ [10; 10]%N ++ lit "x" ++ [10; 10]%N ++
  lit "a tag of some length" ++ [10; 10]%N ++ lit "short".
Proof. vm_compute. reflexivity. Qed.

End JsonTheorems.

(** ** Discovery of files *)

Import Discovery.

Section DiscoveryFacts.

Variable sys : Platform.

Lemma includes_supported (ext : jsstring) :
  includes supportedExtensions ext = true ->
  ext = lit ".txt" \/ ext = lit ".md" \/ ext = lit ".json".
Proof.
  unfold includes, supportedExtensions. cbn [existsb].
  rewrite orb_false_r, !orb_true_iff, !eqb_str_true. tauto.
Qed.

Lemma processFile_some (p : jsstring) (f : ProcessedFile) :
  processFile sys p = Some f ->
  exists stats ext text,
    stat sys p = Some stats /\
    ext = toLowerCase sys (extname sys p) /\
    includes supportedExtensions ext = true /\
    (if eqb_str ext (lit ".json")
     then option_map extractTextFromJson (readJson sys p)
     else readFile sys p) = Some text /\
    trim text <> [] /\
    f = {| path := p; content := trim text; type := slice ext 1 (len ext);
           size := statSize stats; lastModified := mtime stats |}.
Proof.
  unfold processFile. intros H.
  destruct (stat sys p) as [stats|]; [|discriminate].
  cbv zeta in H.
  destruct (includes supportedExtensions (toLowerCase sys (extname sys p)))
    eqn:I; cbn [negb] in H; [|discriminate].
  match type of H with
  | match ?r with _ => _ end = _ => destruct r as [text|] eqn:R
  end; [|discriminate].
  destruct (len (trim text) =? 0) eqn:L; [discriminate|].
  exists stats, (toLowerCase sys (extname sys p)), text.
  repeat split; try assumption.
  - intros E. rewrite E in L. discriminate.
  - injection H as <-. reflexivity.
Qed.

End DiscoveryFacts.

Section DiscoveryTheorems.

Lemma supported_type (ext : jsstring) :
  includes supportedExtensions ext = true ->
  In (slice ext 1 (len ext)) supportedTypes /\
  ext = lit "." ++ slice ext 1 (len ext) /\
  eqb_str ext (lit ".json") = eqb_str (slice ext 1 (len ext)) (lit "json").
Proof.
  intros H. apply includes_supported in H.
  destruct H as [-> | [-> | ->]]; vm_compute; tauto.
Qed.




(** X17.  What [processFile] returns describes the file it was given: the
    path is the argument, the content is the text read, trimmed and not
    empty, the type is one of txt, md and json and is the lower-cased
    extension without its dot, size and date are those of [fs.stat], and
    the text comes from [fs.readJson] for json and from [fs.readFile]
    for the other two. *)
Theorem processFile_result (sys : Platform) (p : jsstring) (f : ProcessedFile) :
  processFile sys p = Some f ->
  path f = p /\
  content f <> [] /\ trim (content f) = content f /\
  In (type f) supportedTypes /\
  toLowerCase sys (extname sys p) = lit "." ++ type f /\
  (exists stats,
     stat sys p = Some stats /\
     size f = statSize stats /\ lastModified f = mtime stats) /\
  (if eqb_str (type f) (lit "json")
   then exists data,
          readJson sys p = Some data /\
          content f = trim (extractTextFromJson data)
   else exists text,
          readFile sys p = Some text /\ content f = trim text).
Proof.
  intros H. apply processFile_some in H.
  destruct H as [stats [ext [text [S [E [I [R [T ->]]]]]]]].
  cbn [path content type size lastModified].
  destruct (supported_type ext I) as [Hin [Hdot Hjson]].
  split; [reflexivity|]. split; [exact T|].
  split; [apply trim_idem|]. split; [exact Hin|].
  split; [rewrite <- E; exact Hdot|].
  split; [exists stats; repeat split; exact S|].
  rewrite <- Hjson. destruct (eqb_str ext (lit ".json")).
  - destruct (readJson sys p) as [data|]; [|discriminate].
    exists data. split; [reflexivity|]. injection R as <-. reflexivity.
  - exists text. split; [exact R | reflexivity].
Qed.

Lemma processFile_result_witness :
  processFile sampleTree (lit "docs/a.md") =
    Some {| path := lit "docs/a.md"; content := lit "Alpha is the first letter.";
            type := lit "md"; size := 28; lastModified := 0 |} /\
  In (lit "md") supportedTypes.
Proof.
  assert (processFile sampleTree (lit "docs/a.md") =
          Some {| path := lit "docs/a.md"; content := lit "Alpha is the first letter.";
                  type := lit "md"; size := 28; lastModified := 0 |}) as H
    by (vm_compute; reflexivity).
  split; [exact H|].
  exact (proj1 (proj2 (proj2 (proj2 (processFile_result _ _ _ H))))).
Defined.




(** A string of white space that is longer than 10 code units and held
    under a key is not dropped: it is emitted with its key and a colon,
    and the file is processed with the text that trimming leaves. *)
Example padded_value_is_kept :
  option_map content (processFile jsonTree (lit "docs/pad.json")) =
    Some (lit ":").
Proof. vm_compute. reflexivity. Qed.

End DiscoveryTheorems.

(** ** Directories *)

Section DirectoryFacts.

Variable sys : Platform.
Variable dir : jsstring.
Variable rec : bool.

(** The loop hands back the files it was given, followed by those of the
    entries. *)
Lemma forEachItem_acc (recur : jsstring -> option (list ProcessedFile))
    (items : list jsstring) (files : list ProcessedFile) :
  forEachItem recur sys dir rec items files =
  option_map (app files) (forEachItem recur sys dir rec items []).
Proof.
  revert files. induction items as [|item rest IH]; intros files.
  - simpl. rewrite app_nil_r. reflexivity.
  - cbn [forEachItem]. cbv zeta.
    destruct (stat sys (join2 sys dir item)) as [stats|].
    2:{ simpl. rewrite app_nil_r. reflexivity. }
    destruct (isDirectory stats && rec).
    + destruct (recur (join2 sys dir item)) as [subFiles|]; [|reflexivity].
      rewrite (IH (files ++ subFiles)), (IH ([] ++ subFiles)).
      destruct (forEachItem recur sys dir rec rest []) as [r|];
        [|reflexivity].
      simpl. rewrite app_assoc. reflexivity.
    + destruct (isFile stats); [|apply IH].
      destruct (processFile sys (join2 sys dir item)) as [pf|]; [|apply IH].
      rewrite (IH (files ++ [pf])), (IH ([] ++ [pf])).
      destruct (forEachItem recur sys dir rec rest []) as [r|];
        [|reflexivity].
      simpl. rewrite <- app_assoc. reflexivity.
Qed.

(** The entries before one whose [stat] throws are processed, that entry
    and those after it are not. *)
Lemma forEachItem_stops (recur : jsstring -> option (list ProcessedFile))
    (before : list jsstring) (bad : jsstring) (after : list jsstring) :
  stat sys (join2 sys dir bad) = None ->
  forall files,
    forEachItem recur sys dir rec (before ++ bad :: after) files =
    forEachItem recur sys dir rec before files.
Proof.
  intros S. induction before as [|item rest IH]; intros files.
  - simpl. rewrite S. reflexivity.
  - cbn [app forEachItem]. cbv zeta.
    destruct (stat sys (join2 sys dir item)) as [stats|]; [|reflexivity].
    destruct (isDirectory stats && rec).
    + destruct (recur (join2 sys dir item)); [apply IH | reflexivity].
    + destruct (isFile stats); [|apply IH].
      destruct (processFile sys (join2 sys dir item)); apply IH.
Qed.

(** A loop whose recursive calls all return is not cut short by the
    bound, and gives the same files with a recursion that returns
    more often. *)
Lemma forEachItem_mono (recur recur' : jsstring -> option (list ProcessedFile))
    (items : list jsstring) :
  (forall p r, recur p = Some r -> recur' p = Some r) ->
  forall files result,
    forEachItem recur sys dir rec items files = Some result ->
    forEachItem recur' sys dir rec items files = Some result.
Proof.
  intros M. induction items as [|item rest IH]; intros files result H.
  - exact H.
  - cbn [forEachItem] in *. cbv zeta in *.
    destruct (stat sys (join2 sys dir item)) as [stats|]; [|exact H].
    destruct (isDirectory stats && rec).
    + destruct (recur (join2 sys dir item)) as [subFiles|] eqn:R;
        [|discriminate].
      rewrite (M _ _ R). apply IH. exact H.
    + destruct (isFile stats); [|apply IH; exact H].
      destruct (processFile sys (join2 sys dir item)); apply IH; exact H.
Qed.

(** What holds of the files of every recursive call and of every file
    of the directory holds of all files found. *)
Lemma forEachItem_all (recur : jsstring -> option (list ProcessedFile))
    (P : ProcessedFile -> Prop) (items : list jsstring) :
  (forall item stats subFiles,
     In item items -> stat sys (join2 sys dir item) = Some stats ->
     isDirectory stats && rec = true ->
     recur (join2 sys dir item) = Some subFiles -> Forall P subFiles) ->
  (forall item stats f,
     In item items -> stat sys (join2 sys dir item) = Some stats ->
     isDirectory stats && rec = false -> isFile stats = true ->
     processFile sys (join2 sys dir item) = Some f -> P f) ->
  forall files result,
    Forall P files ->
    forEachItem recur sys dir rec items files = Some result ->
    Forall P result.
Proof.
  induction items as [|item rest IH]; intros Hsub Hfile files result F H.
  - injection H as <-. exact F.
  - cbn [forEachItem] in H. cbv zeta in H.
    assert (forall files result, Forall P files ->
              forEachItem recur sys dir rec rest files = Some result ->
              Forall P result) as IH'.
    { apply IH.
      - intros i s sf Hi. apply Hsub. right. exact Hi.
      - intros i s f Hi. apply Hfile. right. exact Hi. }
    destruct (stat sys (join2 sys dir item)) as [stats|] eqn:S.
    2:{ injection H as <-. exact F. }
    destruct (isDirectory stats && rec) eqn:D.
    + destruct (recur (join2 sys dir item)) as [subFiles|] eqn:R;
        [|discriminate].
      apply (IH' _ _ (proj2 (Forall_app _ _ _)
                        (conj F (Hsub item stats subFiles (or_introl eq_refl)
                                   S D R))) H).
    + destruct (isFile stats) eqn:I; [|apply (IH' _ _ F H)].
      destruct (processFile sys (join2 sys dir item)) as [pf|] eqn:E;
        [|apply (IH' _ _ F H)].
      apply (IH' (files ++ [pf]) result); [|exact H].
      apply Forall_app. split; [exact F|]. constructor; [|constructor].
      apply (Hfile item stats pf (or_introl eq_refl) S D I E).
Qed.

End DirectoryFacts.

Section DirectoryTheorems.

Lemma processDirectory_more_fuel (sys : Platform) (rec : bool) (fuel : nat) :
  forall dir files,
    processDirectory fuel sys dir rec = Some files ->
    processDirectory (S fuel) sys dir rec = Some files.
Proof.
  induction fuel as [|fuel IH]; intros dir files H; [discriminate|].
  cbn [processDirectory] in H.
  change (processDirectory (S (S fuel)) sys dir rec)
    with (match readdirSync sys dir with
          | None => Some []
          | Some items =>
              forEachItem (fun itemPath =>
                             processDirectory (S fuel) sys itemPath rec)
                sys dir rec items []
          end).
  destruct (readdirSync sys dir) as [items|]; [|exact H].
  apply (forEachItem_mono sys dir rec
           (fun itemPath => processDirectory fuel sys itemPath rec)).
  - intros p r. apply IH.
  - exact H.
Qed.

Lemma processDirectory_fuel_le (sys : Platform) (rec : bool)
    (fuel fuel' : nat) (dir : jsstring) (files : list ProcessedFile) :
  (fuel <= fuel')%nat ->
  processDirectory fuel sys dir rec = Some files ->
  processDirectory fuel' sys dir rec = Some files.
Proof.
  induction 1 as [|m _ IH]; intros H; [exact H|].
  apply processDirectory_more_fuel. apply IH. exact H.
Qed.

(** X19.  Every file [processDirectory] returns is a regular file reached
    from the directory through directory listings, and is exactly what
    [processFile] makes of its path; the bound on the depth of the
    recursion does not change the list. *)
Theorem processDirectory_files (sys : Platform) (rec : bool) (fuel : nat)
    (dir : jsstring) (files : list ProcessedFile) :
  processDirectory fuel sys dir rec = Some files ->
  Forall (fun f =>
            processed sys f /\ below sys dir (path f) /\
            exists stats,
              stat sys (path f) = Some stats /\ isFile stats = true)
    files /\
  forall fuel', (fuel <= fuel')%nat ->
    processDirectory fuel' sys dir rec = Some files.
Proof.
  intros H. split.
  2:{ intros fuel' L. apply (processDirectory_fuel_le sys rec fuel fuel');
        assumption. }
  revert dir files H.
  induction fuel as [|fuel IH]; intros dir files H; [discriminate|].
  cbn [processDirectory] in H.
  destruct (readdirSync sys dir) as [items|] eqn:R.
  2:{ injection H as <-. constructor. }
  refine (forEachItem_all sys dir rec _ _ items _ _ [] files
            (Forall_nil _) H).
  - intros item stats subFiles Hi S D Hsub.
    apply andb_true_iff in D. destruct D as [D _].
    apply IH in Hsub. revert Hsub. apply Forall_impl.
    intros f [Hp [Hb Hs]]. split; [exact Hp|]. split; [|exact Hs].
    apply (below_sub sys dir items item stats); assumption.
  - intros item stats f Hi S _ I E.
    pose proof (processFile_some sys _ _ E) as [st [ext [text [_ [_ [_ [_ [_ F]]]]]]]].
    assert (path f = join2 sys dir item) as P by (rewrite F; reflexivity).
    unfold processed. rewrite P. split; [exact E|].
    split; [apply (below_entry sys dir items); assumption|].
    exists stats. split; assumption.
Qed.

Lemma processDirectory_files_witness :
  processDirectory 2 sampleTree (lit "docs") true =
    Some [{| path := lit "docs/a.md"; content := lit "Alpha is the first letter.";
             type := lit "md"; size := 28; lastModified := 0 |};
          {| path := lit "docs/sub/b.txt"; content := lit "Beta is the second letter.";
             type := lit "txt"; size := 26; lastModified := 0 |}] /\
  processDirectory 5 sampleTree (lit "docs") true =
  processDirectory 2 sampleTree (lit "docs") true.
Proof.
  assert (processDirectory 2 sampleTree (lit "docs") true =
    Some [{| path := lit "docs/a.md"; content := lit "Alpha is the first letter.";
             type := lit "md"; size := 28; lastModified := 0 |};
          {| path := lit "docs/sub/b.txt"; content := lit "Beta is the second letter.";
             type := lit "txt"; size := 26; lastModified := 0 |}]) as H
    by (vm_compute; reflexivity).
  split; [exact H|]. rewrite H.
  apply (proj2 (processDirectory_files _ _ _ _ _ H)). lia.
Defined.

(** X20.  Errors inside [processDirectory] are swallowed: a directory that
    cannot be listed gives the empty list, and an entry whose [stat]
    throws ends the listing of its directory, so that the entries after
    it are never looked at while the files found before it are still
    returned. *)
Theorem directory_errors_are_swallowed (sys : Platform) (rec : bool)
    (fuel : nat) (dir : jsstring) :
  (readdirSync sys dir = None ->
   processDirectory (S fuel) sys dir rec = Some []) /\
  (forall before bad after,
     readdirSync sys dir = Some (before ++ bad :: after) ->
     stat sys (join2 sys dir bad) = None ->
     processDirectory (S fuel) sys dir rec =
     forEachItem (fun itemPath => processDirectory fuel sys itemPath rec)
       sys dir rec before []).
Proof.
  split.
  - intros R. cbn [processDirectory]. rewrite R. reflexivity.
  - intros before bad after R S. cbn [processDirectory]. rewrite R.
    apply forEachItem_stops. exact S.
Qed.

Lemma forEachItem_flat (sys : Platform) (dir : jsstring)
    (items : list jsstring) :
  forall files, exists result,
    forall recur, forEachItem recur sys dir false items files = Some result.
Proof.
  induction items as [|item rest IH]; intros files.
  - exists files. reflexivity.
  - cbn [forEachItem]. cbv zeta.
    destruct (stat sys (join2 sys dir item)) as [stats|];
      [|exists files; reflexivity].
    rewrite andb_false_r.
    destruct (isFile stats); [|apply IH].
    destruct (processFile sys (join2 sys dir item)); apply IH.
Qed.

(** X21.  Without the recursive option no subdirectory is entered: the call
    returns at depth one whatever the tree, and each file returned is
    what [processFile] makes of a direct entry of the directory that is
    a regular file. *)
Theorem flat_listing (sys : Platform) (dir : jsstring)
    (items : list jsstring) :
  readdirSync sys dir = Some items ->
  exists files,
    (forall fuel, processDirectory (S fuel) sys dir false = Some files) /\
    Forall (fun f =>
              exists item stats,
                In item items /\ path f = join2 sys dir item /\
                stat sys (path f) = Some stats /\ isFile stats = true /\
                processed sys f)
      files.
Proof.
  intros R. destruct (forEachItem_flat sys dir items []) as [files F].
  exists files. split.
  - intros fuel. cbn [processDirectory]. rewrite R. apply F.
  - refine (forEachItem_all sys dir false (fun _ => None) _ items _ _ []
              files (Forall_nil _) (F _)).
    + intros item stats subFiles _ _ D. rewrite andb_false_r in D.
      discriminate.
    + intros item stats f Hi S _ I E.
      pose proof (processFile_some sys _ _ E)
        as [st [ext [text [_ [_ [_ [_ [_ P]]]]]]]].
      assert (path f = join2 sys dir item) as Hp by (rewrite P; reflexivity).
      exists item, stats. unfold processed. rewrite Hp.
      repeat split; assumption.
Qed.

Lemma flat_listing_witness :
  readdirSync sampleTree (lit "docs") =
    Some [lit "a.md"; lit "sub"; lit "gone"; lit "c.json"] /\
  exists files,
    (forall fuel,
       processDirectory (S fuel) sampleTree (lit "docs") false = Some files) /\
    Forall (fun f =>
              exists item stats,
                In item [lit "a.md"; lit "sub"; lit "gone"; lit "c.json"] /\
                path f = join2 sampleTree (lit "docs") item /\
                stat sampleTree (path f) = Some stats /\
                isFile stats = true /\ processed sampleTree f)
      files.
Proof.
  split; [reflexivity|]. apply flat_listing. reflexivity.
Defined.

End DirectoryTheorems.

Section TerminationFacts.

Variable sys : Platform.
Variable dir : jsstring.
Variable rec : bool.

(** The loop returns when the recursive call does for every directory
    among the entries. *)
Lemma forEachItem_returns (recur : jsstring -> option (list ProcessedFile))
    (items : list jsstring) :
  (forall item stats,
     In item items -> stat sys (join2 sys dir item) = Some stats ->
     isDirectory stats = true -> recur (join2 sys dir item) <> None) ->
  forall files, forEachItem recur sys dir rec items files <> None.
Proof.
  induction items as [|item rest IH]; intros H files; [discriminate|].
  cbn [forEachItem]. cbv zeta.
  assert (forall files, forEachItem recur sys dir rec rest files <> None)
    as IH'.
  { apply IH. intros i s Hi. apply H. right. exact Hi. }
  destruct (stat sys (join2 sys dir item)) as [stats|] eqn:S; [|discriminate].
  destruct (isDirectory stats && rec) eqn:D.
  - apply andb_true_iff in D. destruct D as [D _].
    pose proof (H item stats (or_introl eq_refl) S D) as R.
    destruct (recur (join2 sys dir item)); [apply IH' | contradiction].
  - destruct (isFile stats); [|apply IH'].
    destruct (processFile sys (join2 sys dir item)); apply IH'.
Qed.

End TerminationFacts.

Section TerminationTheorems.

Lemma processDirectory_enough (sys : Platform) (rec : bool)
    (depth : jsstring -> nat) :
  measures sys depth ->
  forall fuel dir,
    (depth dir < fuel)%nat -> processDirectory fuel sys dir rec <> None.
Proof.
  intros M. induction fuel as [|fuel IH]; intros dir L; [lia|].
  cbn [processDirectory].
  destruct (readdirSync sys dir) as [items|] eqn:R; [|discriminate].
  apply forEachItem_returns. intros item stats Hi S D.
  apply IH. pose proof (M dir items item stats R Hi S D). lia.
Qed.

(** X24.  On a tree without cycles [processDirectory] returns: when every
    directory entered from a listing is less deep than the directory
    listed, a recursion as deep as the depth of the directory plus one
    is enough, and deeper bounds give the same list of files. *)
Theorem processDirectory_returns (sys : Platform) (rec : bool)
    (depth : jsstring -> nat) (dir : jsstring) :
  measures sys depth ->
  exists files,
    forall fuel, (depth dir < fuel)%nat ->
                 processDirectory fuel sys dir rec = Some files.
Proof.
  intros M.
  pose proof (processDirectory_enough sys rec depth M (S (depth dir)) dir
                ltac:(lia)) as E.
  destruct (processDirectory (S (depth dir)) sys dir rec) as [files|] eqn:P;
    [|contradiction].
  exists files. intros fuel L.
  apply (processDirectory_fuel_le sys rec (S (depth dir)) fuel);
    [lia | exact P].
Qed.

Lemma sampleTree_measures : measures sampleTree sampleDepth.
Proof.
  intros dir items item stats R Hi S D.
  assert (dir = lit "docs" \/ dir = lit "docs/sub") as [-> | ->].
  { unfold sampleTree, platformOf in R. cbn [readdirSync lookupPath] in R.
    repeat match type of R with
    | context [eqb_str dir ?q] =>
        let E := fresh "E" in
        destruct (eqb_str dir q) eqn:E;
        [apply eqb_str_true in E; subst dir; vm_compute in R;
         first [discriminate | tauto]|]
    end.
    discriminate. }
  - vm_compute in R. injection R as <-.
    repeat (destruct Hi as [<- | Hi];
            [vm_compute in S; try discriminate; injection S as <-;
             vm_compute in D; try discriminate; vm_compute; lia|]).
    destruct Hi.
  - vm_compute in R. injection R as <-.
    repeat (destruct Hi as [<- | Hi];
            [vm_compute in S; try discriminate; injection S as <-;
             vm_compute in D; try discriminate; vm_compute; lia|]).
    destruct Hi.
Qed.

Lemma processDirectory_returns_witness :
  measures sampleTree sampleDepth /\
  exists files,
    forall fuel, (sampleDepth (lit "docs") < fuel)%nat ->
                 processDirectory fuel sampleTree (lit "docs") true =
                 Some files.
Proof.
  split; [exact sampleTree_measures|].
  apply (processDirectory_returns sampleTree true sampleDepth (lit "docs")).
  exact sampleTree_measures.
Defined.

End TerminationTheorems.

(** ** The [ingest] command *)

Section CommandFacts.

Variable env : Env.

Lemma rowsFrom_fileType (file : ProcessedFile) (i : nat)
    (textChunks : list jsstring) :
  Forall (fun d => fileType (snd d) = type file) (rowsFrom file i textChunks).
Proof.
  revert i. induction textChunks as [|c rest IH]; intros i; simpl;
    constructor; [reflexivity | apply IH].
Qed.

(** The rows [ingestFile] leaves are rows that were there or rows with
    the type of the file. *)
Lemma ingestFile_fileType (file : ProcessedFile) (w : World) :
  Forall (fun r => In r (rows w) \/ fileType (metadata r) = type file)
    (rows (snd (ingestFile env file w))).
Proof.
  destruct (ingestFile_rows env file w) as [[_ [_ R]] | [_ [fresh [k [R [D _]]]]]];
    rewrite R.
  - apply Forall_forall. intros r Hr. left. exact Hr.
  - apply Forall_app. split.
    + apply Forall_forall. intros r Hr. left.
      unfold otherSources in Hr. apply filter_In in Hr. apply Hr.
    + assert (Forall (fun d => fileType (snd d) = type file)
                (map describe fresh)) as F.
      { rewrite D. apply Forall_forall. intros d Hd.
        pose proof (rowsFrom_fileType file 0
                      (splitIntoChunks (content file))) as S.
        rewrite Forall_forall in S. apply S. unfold generationOf in Hd.
        rewrite <- (firstn_skipn k (rowsFrom file 0 _)).
        apply in_or_app. left. exact Hd. }
      rewrite Forall_map in F. revert F. apply Forall_impl.
      intros r Hr. right. exact Hr.
Qed.

Lemma ingestFiles_fileType (Q : jsstring -> Prop) (files : list ProcessedFile) :
  Forall (fun f => Q (type f)) files ->
  forall w,
    Forall (fun r => In r (rows w) \/ Q (fileType (metadata r)))
      (rows (snd (ingestFiles env files w))).
Proof.
  induction 1 as [|file rest Hf Hrest IH]; intros w.
  - apply Forall_forall. intros r Hr. left. exact Hr.
  - cbn [ingestFiles]. unfold bind.
    pose proof (ingestFile_fileType file w) as F.
    destruct (ingestFile env file w) as [[[]|e] w1]; cbn [snd] in *.
    + specialize (IH w1). rewrite Forall_forall in *.
      intros r Hr. destruct (IH r Hr) as [Hin | Hq]; [|right; exact Hq].
      destruct (F r Hin) as [Hin' | Ht]; [left; exact Hin'|].
      right. rewrite Ht. exact Hf.
    + revert F. apply Forall_impl. intros r [Hin | Ht]; [left; exact Hin|].
      right. rewrite Ht. exact Hf.
Qed.

(** The action reports through [Ok]; with no file it makes no call. *)
Lemma ingestAction_rows (files : list ProcessedFile) (w : World) :
  exists report,
    fst (ingestAction env files w) = Ok report /\
    rows (snd (ingestAction env files w)) =
    rows (snd (ingestFiles env files w)) /\
    (files = [] -> report = NoValidFiles) /\
    (report = NoValidFiles -> snd (ingestAction env files w) = w).
Proof.
  unfold ingestAction, tryCatch.
  destruct files as [|file rest].
  - exists NoValidFiles. repeat split; reflexivity.
  - unfold bind.
    destruct (ingestFiles env (file :: rest) w) as [[[]|e] w1].
    + rewrite getStats_unfold. cbn [fst snd ret].
      eexists. split; [reflexivity|]. split; [reflexivity|].
      split; intros; discriminate.
    + exists IngestionFailed. cbn [fst snd ret].
      split; [reflexivity|]. split; [reflexivity|].
      split; intros; discriminate.
Qed.

End CommandFacts.

Section CommandTheorems.

Lemma processed_type (sys : Platform) (f : ProcessedFile) :
  processed sys f -> In (type f) supportedTypes.
Proof.
  intros H. apply processFile_some in H.
  destruct H as [stats [ext [text [_ [_ [I [_ [_ ->]]]]]]]].
  apply (supported_type ext I).
Qed.

(** The files the command discovers, whether the path is a file or a
    directory, are files [processFile] made. *)
Lemma discovered_processed (sys : Platform) (fuel : nat)
    (inputPath : jsstring) (stats : FsStats) (rec : bool)
    (files : list ProcessedFile) :
  (if isFile stats then
     Some match processFile sys inputPath with
          | Some file => [file]
          | None => []
          end
   else processDirectory fuel sys inputPath rec) = Some files ->
  Forall (processed sys) files.
Proof.
  destruct (isFile stats).
  - destruct (processFile sys inputPath) as [file|] eqn:E;
      intros [= <-]; [|constructor].
    constructor; [|constructor]. unfold processed.
    pose proof (processFile_some sys _ _ E)
      as [st [ext [text [_ [_ [_ [_ [_ P]]]]]]]].
    replace (path file) with inputPath by (rewrite P; reflexivity). exact E.
  - intros H. revert inputPath files H.
    induction fuel as [|fuel IH]; intros dir files H; [discriminate|].
    cbn [processDirectory] in H.
    destruct (readdirSync sys dir) as [items|].
    2:{ injection H as <-. constructor. }
    refine (forEachItem_all sys dir rec _ _ items _ _ [] files
              (Forall_nil _) H).
    + intros item st subFiles _ _ _ Hsub. apply (IH _ _ Hsub).
    + intros item st f _ _ _ _ E.
      pose proof (processFile_some sys _ _ E)
        as [st' [ext [text [_ [_ [_ [_ [_ P]]]]]]]].
      unfold processed.
      replace (path f) with (join2 sys dir item) by (rewrite P; reflexivity).
      exact E.
Qed.

Lemma filterByType_types (options : IngestOptions)
    (files : list ProcessedFile) (Q : jsstring -> Prop) :
  Forall (fun f => Q (type f)) files ->
  Forall (fun f =>
            Q (type f) /\
            forall c t, typeFilter options = Some (c :: t) ->
                        type f = c :: t)
    (filterByType options files).
Proof.
  intros F. unfold filterByType.
  destruct (typeFilter options) as [[|c t]|].
  - revert F. apply Forall_impl. intros f Hf. split; [exact Hf|].
    intros; discriminate.
  - apply Forall_forall. intros f Hf. apply filter_In in Hf.
    destruct Hf as [Hin E]. apply eqb_str_true in E.
    rewrite Forall_forall in F. split; [apply F; exact Hin|].
    intros c' t' [= <- <-]. exact E.
  - revert F. apply Forall_impl. intros f Hf. split; [exact Hf|].
    intros; discriminate.
Qed.

(** X22.  The [ingest] command only adds rows of supported files that pass
    the type filter: after it, every row of the table was there before
    or has a file type among txt, md and json and, when a type is asked
    for, that type.  When the path does not exist, when [fs.stat] of
    it throws and when no valid file is found the table and the log of
    calls are as they were: nothing was sent to the database or to the
    model. *)
Theorem ingestCommand_rows (fuel : nat) (sys : Platform) (env : Env)
    (inputPath : jsstring) (options : IngestOptions) (w : World)
    (report : CommandReport) (w' : World) :
  ingestCommand fuel sys env inputPath options w = Some (report, w') ->
  Forall (fun r =>
            In r (rows w) \/
            (In (fileType (metadata r)) supportedTypes /\
             forall c t, typeFilter options = Some (c :: t) ->
                         fileType (metadata r) = c :: t))
    (rows w') /\
  (pathExists sys inputPath = false <-> report = PathDoesNotExist) /\
  (pathExists sys inputPath = true -> stat sys inputPath = None ->
   report = Finished IngestionFailed) /\
  (report = PathDoesNotExist \/ report = Finished NoValidFiles \/
   stat sys inputPath = None -> w' = w).
Proof.
  unfold ingestCommand. intros H.
  assert (Forall (fun r =>
            In r (rows w) \/
            (In (fileType (metadata r)) supportedTypes /\
             forall c t, typeFilter options = Some (c :: t) ->
                         fileType (metadata r) = c :: t)) (rows w)) as Same.
  { apply Forall_forall. intros r Hr. left. exact Hr. }
  destruct (pathExists sys inputPath) eqn:E; cbn [negb] in H.
  2:{ injection H as <- <-. split; [exact Same|].
      split; [split; reflexivity|]. split; [discriminate|reflexivity]. }
  destruct (stat sys inputPath) as [stats|] eqn:S.
  2:{ injection H as <- <-. split; [exact Same|].
      split; [split; discriminate|]. split; reflexivity. }
  cbv zeta in H.
  match type of H with
  | match ?d with _ => _ end = _ => destruct d as [files|] eqn:D
  end; [|discriminate].
  apply discovered_processed in D.
  assert (Forall (fun f => In (type f) supportedTypes) files) as T.
  { revert D. apply Forall_impl. apply processed_type. }
  apply (filterByType_types options files
           (fun ty => In ty supportedTypes)) in T.
  destruct (ingestAction_rows env (filterByType options files) w)
    as [rep [O [R [_ N]]]].
  pose proof (ingestFiles_fileType env
                (fun ty => In ty supportedTypes /\
                           forall c t, typeFilter options = Some (c :: t) ->
                                       ty = c :: t) _ T w) as F.
  destruct (ingestAction env (filterByType options files) w) as [o w1].
  cbn [fst snd] in *. subst o. injection H as <- <-.
  split; [rewrite R; exact F|].
  split; [split; discriminate|]. split; [discriminate|].
  intros [C | [C | C]]; [discriminate | | discriminate].
  injection C as ->. apply N. reflexivity.
Qed.

Lemma ingestCommand_rows_witness :
  mdCommand = Some (mdReport, mdWorld) /\
  map (fun r => fileType (metadata r)) (rows mdWorld) = [lit "md"] /\
  Forall (fun r =>
            In r (rows emptyWorld) \/
            (In (fileType (metadata r)) supportedTypes /\
             forall c t, typeFilter mdOnly = Some (c :: t) ->
                         fileType (metadata r) = c :: t))
    (rows mdWorld).
Proof.
  assert (mdCommand = Some (mdReport, mdWorld)) as H
    by (vm_compute; reflexivity).
  split; [exact H|]. split; [vm_compute; reflexivity|].
  apply (ingestCommand_rows _ _ _ _ _ _ _ _ H).
Defined.

(** X23.  A type filter that names no supported type, such as pdf or .md with
    its dot, makes the command a no-op: whatever the path holds, no file
    passes the filter, the table is untouched and no call is made. *)
Theorem unsupported_filter_is_noop (fuel : nat) (sys : Platform) (env : Env)
    (inputPath : jsstring) (options : IngestOptions) (w : World)
    (c : char16) (t : jsstring) (report : CommandReport) (w' : World) :
  typeFilter options = Some (c :: t) ->
  ~ In (c :: t) supportedTypes ->
  ingestCommand fuel sys env inputPath options w = Some (report, w') ->
  w' = w /\
  (report = PathDoesNotExist \/ report = Finished IngestionFailed \/
   report = Finished NoValidFiles) /\
  (report = Finished IngestionFailed -> stat sys inputPath = None).
Proof.
  intros Ht Hn H. unfold ingestCommand in H.
  destruct (negb (pathExists sys inputPath)).
  { injection H as <- <-. split; [reflexivity|]. split; [tauto|discriminate]. }
  destruct (stat sys inputPath) as [stats|] eqn:S.
  2:{ injection H as <- <-. split; [reflexivity|]. split; [tauto|reflexivity]. }
  cbv zeta in H.
  match type of H with
  | match ?d with _ => _ end = _ => destruct d as [files|] eqn:D
  end; [|discriminate].
  apply discovered_processed in D.
  assert (filterByType options files = []) as E.
  { unfold filterByType. rewrite Ht. apply filter_none.
    revert D. apply Forall_impl. intros f Hf.
    apply eqb_str_false. intros Eq. apply Hn. rewrite <- Eq.
    apply (processed_type sys). exact Hf. }
  rewrite E in H. injection H as <- <-.
  split; [reflexivity|]. split; [tauto|discriminate].
Qed.

Lemma unsupported_filter_is_noop_witness :
  typeFilter dotMdOnly = Some (lit ".md") /\
  ~ In (lit ".md") supportedTypes /\
  ingestCommand 2 sampleTree allReply (lit "docs") dotMdOnly emptyWorld =
    Some (Finished NoValidFiles, emptyWorld) /\
  emptyWorld = emptyWorld /\
  (Finished NoValidFiles = PathDoesNotExist \/
   Finished NoValidFiles = Finished IngestionFailed \/
   Finished NoValidFiles = Finished NoValidFiles) /\
  (Finished NoValidFiles = Finished IngestionFailed ->
   stat sampleTree (lit "docs") = None).
Proof.
  split; [reflexivity|].
  assert (~ In (lit ".md") supportedTypes) as N.
  { intros H. vm_compute in H.
    repeat (destruct H as [H | H]; [discriminate|]). exact H. }
  split; [exact N|].
  assert (ingestCommand 2 sampleTree allReply (lit "docs") dotMdOnly
            emptyWorld = Some (Finished NoValidFiles, emptyWorld)) as H
    by (vm_compute; reflexivity).
  split; [exact H|].
  exact (unsupported_filter_is_noop 2 sampleTree allReply (lit "docs")
           dotMdOnly emptyWorld _ _ _ _ eq_refl N H).
Defined.

End CommandTheorems.
